(** * Adjoint-differentiation engine of pennylane-lightning-gpu

    A shallow embedding of [AdjointDiffGPU.hpp] (observables, generator
    registry, the reverse sweep [adjointJacobian], the multi-device
    [batchAdjointJacobian]) and of the gate cache [GateCache].

    Conventions.
    - The template parameter [T] is instantiated at its default, [double]:
      scalars are IEEE binary64 values ([PrimFloat.float]) and every
      comparison or product of scalars is the machine one.
    - [size_t] counters are integers reduced modulo [2^64]; wire labels and
      trainable positions are naturals (values of [size_t]).
    - C++ exceptions are values of [failure]; a function that can throw
      returns a [result], or the state it reached together with the failure.
    - The state-vector kernel (gate application, inner product, scaled add)
      is an external collaborator: it is a [Backend] record of total
      functions on amplitude buffers, and every statement about the engine
      is quantified over it. *)

From Stdlib Require Import ZArith Floats.PrimFloat Floats.SpecFloat Floats.FloatOps
  Floats.FloatAxioms.
From stdpp Require Import base list strings gmap sorting.

#[local] Set Warnings "-register-all,-clear-no-such-hyp".

Local Open Scope Z_scope.

(** ** Machine integers *)

(** Arithmetic on [std::size_t] wraps modulo [2^64]. *)
Definition wrap64 (z : Z) : Z := z mod 2 ^ 64.

(** [static_cast<int>(x)] for a [size_t] [x]: the low 32 bits, read as a
    two's-complement value. *)
Definition int_of_size_t (z : Z) : Z :=
  let r := z mod 2 ^ 32 in
  if r <? 2 ^ 31 then r else r - 2 ^ 32.

(** Conversion of a [size_t] to [double] (round to nearest, ties to even);
    the result is given as the integer the double denotes. *)
Definition double_of_size_t (z : Z) : Z :=
  if z <? 2 ^ 53 then z
  else
    let e := Z.log2 z - 52 in
    let q := z / 2 ^ e in
    let r := z mod 2 ^ e in
    let half := 2 ^ (e - 1) in
    let q' := if (half <? r) || ((r =? half) && Z.odd q) then q + 1 else q in
    q' * 2 ^ e.

(** [static_cast<std::size_t>(std::ceil(x))] for an integral [x]: [x] is
    converted to [double], [ceil] leaves an integral double unchanged, and
    the conversion back is undefined when the value does not fit. *)
Definition size_t_of_ceil (z : Z) : option Z :=
  let d := double_of_size_t z in
  if d <? 2 ^ 64 then Some d else None.

(** ** Failures *)

(** Modelled from the spec: the macros [PL_ABORT], [PL_ABORT_IF],
    [PL_ABORT_IF_NOT] and [PL_ASSERT] are defined outside the sources at
    hand. Following the error-handling design they raise a failure that
    aborts the computation; it is recorded with the message the source
    gives to the macro. *)
Inductive failure : Type :=
  | LightningException (msg : string)
      (** raised by [PL_ABORT], [PL_ABORT_IF], [PL_ABORT_IF_NOT], [PL_ASSERT] *)
  | OutOfRange
      (** [std::out_of_range], thrown by [at()] of a vector or a map *)
  | UndefinedBehaviour (what : string)
      (** the source leaves the language's defined behaviour here *).

Inductive result (A : Type) : Type :=
  | Ok (a : A)
  | Err (e : failure).
Arguments Ok {A} a.
Arguments Err {A} e.

#[global] Instance result_ret : MRet result := λ A a, Ok a.
#[global] Instance result_bind : MBind result := λ A B k r,
  match r with
  | Ok a => k a
  | Err e => Err e
  end.

Definition is_Err {A : Type} (r : result A) : Prop := ∃ e, r = Err e.

(** ** Standard containers *)

(** [operator==] of [std::vector]: same size and element-wise [==]. *)
Fixpoint vec_eqb {A : Type} (eqb : A → A → bool) (l1 l2 : list A) : bool :=
  match l1, l2 with
  | [], [] => true
  | x :: l1', y :: l2' => eqb x y && vec_eqb eqb l1' l2'
  | _, _ => false
  end.

(** [std::complex<T>] and the CUDA complex type [CFP_t]: real and imaginary
    part. *)
Definition complex : Type := float * float.

Definition complex_eqb (a b : complex) : bool :=
  PrimFloat.eqb a.1 b.1 && PrimFloat.eqb a.2 b.2.

(** [std::unordered_map<K, V>] as a list of entries. Only the entry whose
    key compares equal (with the map's key equality [keq]) is visible to a
    lookup; the position of an entry has no meaning. *)
Section unordered_map.
Context {K V : Type} (keq : K → K → bool) (dflt : V).

(** [m.find(k)]: the mapped value, or [None] for [m.end()]. *)
Fixpoint umap_find (k : K) (m : list (K * V)) : option V :=
  match m with
  | [] => None
  | (k', v) :: m' => if keq k' k then Some v else umap_find k m'
  end.

(** [f(m[k])]: the entry for [k] is created value-initialised when no
    stored key compares equal to [k], then modified through the
    reference. *)
Fixpoint umap_modify (k : K) (f : V → V) (m : list (K * V)) : list (K * V) :=
  match m with
  | [] => [(k, f dflt)]
  | (k', v) :: m' =>
      if keq k' k then (k', f v) :: m' else (k', v) :: umap_modify k f m'
  end.

(** [m[k] = v]. *)
Definition umap_assign (k : K) (v : V) (m : list (K * V)) : list (K * V) :=
  umap_modify k (λ _, v) m.

(** Reading [m[k]]: the map after the possible insertion, and the value. *)
Definition umap_subscript (k : K) (m : list (K * V)) : list (K * V) * V :=
  let m' := umap_modify k id m in
  (m', default dflt (umap_find k m')).

(** Every stored key equals itself and no two stored keys are equal. *)
Fixpoint umap_wf (m : list (K * V)) : Prop :=
  match m with
  | [] => True
  | (k, _) :: m' => keq k k = true ∧ umap_find k m' = None ∧ umap_wf m'
  end.
End unordered_map.

(** ** Device tags *)

(** Modelled from the spec: [DevTag<int>] is declared in [DevTag.hpp],
    which is not part of the sources at hand; it carries the device and
    stream identity of a buffer. *)
Record DevTag : Type := mkDevTag { getDeviceID : Z; getStreamID : Z }.

(** ** The gate cache *)

Module GateCache.

Definition CFP_t : Type := complex.

(** [using gate_id = std::pair<std::string, fp_t>], compared with the
    [operator==] of [std::pair]: string equality and floating-point [==]. *)
Definition gate_id : Type := string * float.

Definition gate_id_eqb (a b : gate_id) : bool :=
  String.eqb a.1 b.1 && PrimFloat.eqb a.2 b.2.

(** Modelled from the spec: [CUDA::DataBuffer<CFP_t>] is declared in
    [DataBuffer.hpp], which is not part of the sources at hand. It is a
    device allocation of [db_size] elements on [db_dev]; [db_data] is
    [None] until host data is copied in. *)
Record DataBuffer : Type := mkDataBuffer
  { db_size : Z; db_dev : DevTag; db_data : option (list CFP_t) }.

(** A value-initialised buffer, as [operator[]] creates it. *)
Definition DataBuffer_default : DataBuffer :=
  mkDataBuffer 0 (mkDevTag 0 0) None.

Definition CopyHostDataToGpu (host : list CFP_t) (b : DataBuffer) : DataBuffer :=
  mkDataBuffer (db_size b) (db_dev b) (Some host).

Record t : Type := mkCache
  { total_alloc_bytes_ : Z;
    device_tag_ : DevTag;
    device_gates_ : list (gate_id * DataBuffer);
    host_gates_ : list (gate_id * list CFP_t) }.

(** [sizeof(CFP_t)] for double precision. *)
Definition sizeof_CFP_t : Z := 16.

Definition vsize {A : Type} (l : list A) : Z := Z.of_nat (length l).

Definition gateExists (gate_name : string) (gate_param : float) (c : t) : bool :=
  bool_decide (is_Some (umap_find gate_id_eqb (gate_name, gate_param) (host_gates_ c)))
  && bool_decide (is_Some (umap_find gate_id_eqb (gate_name, gate_param) (device_gates_ c))).

Definition add_gate (gate_name : string) (gate_param : float)
    (host_data : list CFP_t) (c : t) : t :=
  let gate_key := (gate_name, gate_param) in
  (* host_gates_[gate_key] = std::move(host_data); *)
  let host1 := umap_assign gate_id_eqb [] gate_key host_data (host_gates_ c) in
  (* auto &gate = host_gates_[gate_key]; *)
  let '(host2, gate) := umap_subscript gate_id_eqb [] gate_key host1 in
  (* device_gates_[gate_key] = {gate.size(), device_tag_}; *)
  let dev1 :=
    umap_assign gate_id_eqb DataBuffer_default gate_key
      (mkDataBuffer (vsize gate) (device_tag_ c) None) (device_gates_ c) in
  (* device_gates_[gate_key].CopyHostDataToGpu(gate.data(), gate.size()); *)
  let dev2 :=
    umap_modify gate_id_eqb DataBuffer_default gate_key (CopyHostDataToGpu gate) dev1 in
  (* total_alloc_bytes_ += (sizeof(CFP_t) * gate.size()); *)
  mkCache (wrap64 (total_alloc_bytes_ c + wrap64 (sizeof_CFP_t * vsize gate)))
    (device_tag_ c) dev2 host2.

(** [get_gate_host] returns a copy of [host_gates_[key]]; the subscript
    may insert an entry, so the cache is returned as well. *)
Definition get_gate_host (gate_name : string) (gate_param : float) (c : t)
    : t * list CFP_t :=
  let '(host', v) :=
    umap_subscript gate_id_eqb [] (gate_name, gate_param) (host_gates_ c) in
  (mkCache (total_alloc_bytes_ c) (device_tag_ c) (device_gates_ c) host', v).

(** The cache built by [GateCache(false, device_id, stream_id)]. *)
Definition empty (dev : DevTag) : t := mkCache 0 dev [] [].

(** A key is present in a map when a stored key compares equal to it. *)
Definition key_present {V : Type} (k : gate_id) (m : list (gate_id * V)) : Prop :=
  ∃ k' v, (k', v) ∈ m ∧ gate_id_eqb k' k = true.

(** [gateExists(const gate_id &gate)]. *)
Definition gateExists_key (gate : gate_id) (c : t) : bool :=
  bool_decide (is_Some (umap_find gate_id_eqb gate (host_gates_ c)))
  && bool_decide (is_Some (umap_find gate_id_eqb gate (device_gates_ c))).

(** [add_gate(const gate_id &gate_key, std::vector<CFP_t> host_data)]. *)
Definition add_gate_key (gate_key : gate_id) (host_data : list CFP_t) (c : t) : t :=
  let host1 := umap_assign gate_id_eqb [] gate_key host_data (host_gates_ c) in
  let '(host2, gate) := umap_subscript gate_id_eqb [] gate_key host1 in
  let dev1 :=
    umap_assign gate_id_eqb DataBuffer_default gate_key
      (mkDataBuffer (vsize gate) (device_tag_ c) None) (device_gates_ c) in
  let dev2 :=
    umap_modify gate_id_eqb DataBuffer_default gate_key (CopyHostDataToGpu gate) dev1 in
  mkCache (wrap64 (total_alloc_bytes_ c + wrap64 (sizeof_CFP_t * vsize gate)))
    (device_tag_ c) dev2 host2.

(** [get_gate_device_ptr]: the pointer [getData()] of the buffer stored
    under the key is given as that buffer; the subscript may insert an
    entry, so the cache is returned as well. *)
Definition get_gate_device_ptr (gate_name : string) (gate_param : float) (c : t)
    : t * DataBuffer :=
  let '(dev', b) :=
    umap_subscript gate_id_eqb DataBuffer_default (gate_name, gate_param)
      (device_gates_ c) in
  (mkCache (total_alloc_bytes_ c) (device_tag_ c) dev' (host_gates_ c), b).

(** The constants and operations of [cuUtil] that [defaultPopulateCache]
    uses; they are declared in [cuda_helpers.hpp], outside the sources at
    hand, and are parameters here. [cNEG] is the unary minus of [CFP_t]. *)
Record cuUtil : Type := mkCuUtil
  { ONE : CFP_t;
    ZERO : CFP_t;
    IMAG : CFP_t;
    INVSQRT2 : CFP_t;
    SQRT2 : float;
    cNEG : CFP_t → CFP_t;
    ConstMultSC : float → CFP_t → CFP_t;
    ConstSum : CFP_t → CFP_t → CFP_t }.

(** The assignments [host_gates_[std::make_pair(name, 0.0)] = ...] of
    [defaultPopulateCache], in source order, up to the one of [CZ]. *)
Definition default_host_gates (u : cuUtil) : list (string * list CFP_t) :=
  [ ("Identity", [ONE u; ZERO u; ZERO u; ONE u]);
    ("PauliX", [ZERO u; ONE u; ONE u; ZERO u]);
    ("PauliY", [ZERO u; cNEG u (IMAG u); IMAG u; ZERO u]);
    ("PauliZ", [ONE u; ZERO u; ZERO u; cNEG u (ONE u)]);
    ("Hadamard", [INVSQRT2 u; INVSQRT2 u; INVSQRT2 u; cNEG u (INVSQRT2 u)]);
    ("S", [ONE u; ZERO u; ZERO u; IMAG u]);
    ("T", [ONE u; ZERO u; ZERO u;
           ConstMultSC u (SQRT2 u / 2)%float (ConstSum u (ONE u) (IMAG u))]);
    ("SWAP", [ONE u; ZERO u; ZERO u; ZERO u;
              ZERO u; ZERO u; ONE u; ZERO u;
              ZERO u; ONE u; ZERO u; ZERO u;
              ZERO u; ZERO u; ZERO u; ONE u]);
    ("CNOT", [ZERO u; ONE u; ONE u; ZERO u]);
    ("Toffoli", [ZERO u; ONE u; ONE u; ZERO u]);
    ("CZ", [ONE u; ZERO u; ZERO u; cNEG u (ONE u)]) ]%string.

(** The loop of [defaultPopulateCache] over the entries of [host_gates_]:
    each is mirrored into [device_gates_] and counted. The entries are
    visited in the order of the list; the maps the loop produces hold the
    same entries for every order. *)
Fixpoint populate_device (dev : DevTag) (entries : list (gate_id * list CFP_t))
    (device : list (gate_id * DataBuffer)) (total : Z)
    : list (gate_id * DataBuffer) * Z :=
  match entries with
  | [] => (device, total)
  | (h_gate_k, h_gate_v) :: rest =>
      let dev1 :=
        umap_assign gate_id_eqb DataBuffer_default h_gate_k
          (mkDataBuffer (vsize h_gate_v) dev None) device in
      let dev2 :=
        umap_modify gate_id_eqb DataBuffer_default h_gate_k
          (CopyHostDataToGpu h_gate_v) dev1 in
      populate_device dev rest dev2 (wrap64 (total + wrap64 (sizeof_CFP_t * vsize h_gate_v)))
  end.

(** [defaultPopulateCache()]. The entry of [CSWAP] is read with [at()],
    which throws when [SWAP] is not a key. *)
Definition defaultPopulateCache (u : cuUtil) (c : t) : result t :=
  let host1 :=
    foldl (λ host '(name, v), umap_assign gate_id_eqb [] (name, 0%float) v host)
      (host_gates_ c) (default_host_gates u) in
  match umap_find gate_id_eqb ("SWAP"%string, 0%float) host1 with
  | None => Err OutOfRange
  | Some swap =>
      let host2 := umap_assign gate_id_eqb [] ("CSWAP"%string, 0%float) swap host1 in
      let '(device, total) :=
        populate_device (device_tag_ c) host2 (device_gates_ c) (total_alloc_bytes_ c) in
      Ok (mkCache total (device_tag_ c) device host2)
  end.

(** The constructor [GateCache(populate, device_id, stream_id)]. *)
Definition GateCache_new (u : cuUtil) (populate : bool) (dev : DevTag) : result t :=
  if populate then defaultPopulateCache u (empty dev) else Ok (empty dev).

(** The names [defaultPopulateCache] registers. *)
Definition default_gate_names : list string :=
  [ "Identity"; "PauliX"; "PauliY"; "PauliZ"; "Hadamard"; "S"; "T"; "SWAP";
    "CNOT"; "Toffoli"; "CZ"; "CSWAP" ]%string.

(** Every host entry has its copy on the device: a buffer of the size of
    the host vector, on the device of the cache, holding the host data. *)
Definition mirrored (c : t) : Prop :=
  ∀ k v, umap_find gate_id_eqb k (host_gates_ c) = Some v →
         umap_find gate_id_eqb k (device_gates_ c)
         = Some (mkDataBuffer (vsize v) (device_tag_ c) (Some v)).

(** The maps are as [std::unordered_map] keeps them when no key is a NaN:
    every stored key equals itself and no two stored keys are equal. *)
Definition keys_unique (c : t) : Prop :=
  umap_wf gate_id_eqb (host_gates_ c) ∧ umap_wf gate_id_eqb (device_gates_ c).

End GateCache.

(** ** The state-vector backend *)

(** The member functions of [StateVectorCudaManaged] that take only wires
    and an adjoint flag. *)
Inductive SVMethod : Type :=
  | applyPauliX | applyPauliY | applyPauliZ
  | applyGeneratorIsingXX | applyGeneratorIsingYY | applyGeneratorIsingZZ
  | applyGeneratorSingleExcitation
  | applyGeneratorSingleExcitationMinus
  | applyGeneratorSingleExcitationPlus
  | applyGeneratorDoubleExcitation
  | applyGeneratorDoubleExcitationMinus
  | applyGeneratorDoubleExcitationPlus
  | applyGeneratorMultiRZ.

(** One call into the state-vector kernel. *)
Inductive BackendCall : Type :=
  | applyOperation (name : string) (wires : list N) (adjoint : bool)
      (params : list float)
      (** [sv.applyOperation(name, wires, adjoint, params)] *)
  | applyOperation_gate (name : string) (wires : list N) (adjoint : bool)
      (params : list float) (gate_matrix : list complex)
      (** [sv.applyOperation(name, wires, adjoint, params, gate_matrix)] *)
  | applyOperation_std (name : string) (wires : list N) (adjoint : bool)
      (params : list float) (gate_matrix : list complex)
      (** [sv.applyOperation_std(name, wires, adjoint, params, gate_matrix)] *)
  | applyMethod (m : SVMethod) (wires : list N) (adj : bool)
      (** [sv.m(wires, adj)] *).

(** Modelled from the spec: the state-vector class and the CUDA kernels
    are declared in [StateVectorCudaManaged.hpp] and its companions, which
    are not part of the sources at hand. Following the collaborator
    interface, the backend applies an operation to an amplitude buffer,
    copies buffers, and provides the inner product and the scaled add.
    [Amp] is the content of an amplitude buffer. *)
Record Backend : Type := mkBackend
  { Amp : Type;
    (** effect of one kernel call on the amplitudes *)
    exec : BackendCall → Amp → Amp;
    (** amplitudes of [StateVectorCudaManaged(num_qubits, dev_tag)] *)
    amp_alloc : N → Amp;
    (** amplitudes of a zero-filled host vector of the given length *)
    amp_zeros : N → Amp;
    getNumQubits_amp : Amp → N;
    getLength_amp : Amp → N;
    (** [scaleAndAddC_CUDA(a, x, y, ...)]: [y] after [y += a * x] *)
    scaleAndAddC_CUDA : complex → Amp → Amp → Amp;
    (** [innerProdC_CUDA(v1, v2, ...).y]: imaginary part of the inner
        product, [v1] conjugated *)
    innerProdC_CUDA_y : Amp → Amp → float }.

(** [StateVectorCudaManaged<T>]: an amplitude buffer living on a device. *)
Record StateVectorCudaManaged (B : Backend) : Type := mkSV
  { getDevTag : DevTag; getData : Amp B }.
Arguments mkSV {B} _ _.
Arguments getDevTag {B} _.
Arguments getData {B} _.

Section StateVector.
Context {B : Backend}.
Abbreviation SV := (StateVectorCudaManaged B).

Definition sv_call (c : BackendCall) (sv : SV) : SV :=
  mkSV (getDevTag sv) (exec B c (getData sv)).

(** [sv.updateData(other)]: the amplitudes of [other] are copied into the
    buffer of [sv]. *)
Definition updateData (sv other : SV) : SV :=
  mkSV (getDevTag sv) (getData other).

(** [StateVectorCudaManaged(num_qubits, dev_tag)]. *)
Definition sv_alloc (num_qubits : N) (dev : DevTag) : SV :=
  mkSV dev (amp_alloc B num_qubits).

Definition getNumQubits (sv : SV) : N := getNumQubits_amp B (getData sv).
Definition getLength (sv : SV) : N := getLength_amp B (getData sv).
End StateVector.

(** ** Observables *)

(** The four final subclasses of [ObservableGPU<T>] with their private
    members. *)
Inductive ObservableGPU : Type :=
  | NamedObsGPU (obs_name_ : string) (wires_ : list N) (params_ : list float)
  | HermitianObsGPU (matrix_ : list complex) (wires_ : list N)
  | TensorProdObsGPU (obs_ : list ObservableGPU) (all_wires_ : list N)
  | HamiltonianGPU (coeffs_ : list float) (obs_ : list ObservableGPU).

(** the dynamic type, as [typeid] reports it. *)
Inductive obs_typeid : Type :=
  | tid_NamedObsGPU | tid_HermitianObsGPU | tid_TensorProdObsGPU
  | tid_HamiltonianGPU.

#[global] Instance obs_typeid_eq_dec : EqDecision obs_typeid.
Proof. solve_decision. Defined.

Definition typeid (o : ObservableGPU) : obs_typeid :=
  match o with
  | NamedObsGPU _ _ _ => tid_NamedObsGPU
  | HermitianObsGPU _ _ => tid_HermitianObsGPU
  | TensorProdObsGPU _ _ => tid_TensorProdObsGPU
  | HamiltonianGPU _ _ => tid_HamiltonianGPU
  end.

(** [std::sort] of a vector of [size_t]. *)
Definition sort_wires (l : list N) : list N := merge_sort N.le l.

(** [getWires()]. The Hamiltonian collects the wires of its terms in a
    [std::unordered_set] and returns them sorted. *)
Fixpoint getWires (o : ObservableGPU) : list N :=
  match o with
  | NamedObsGPU _ wires _ => wires
  | HermitianObsGPU _ wires => wires
  | TensorProdObsGPU _ all_wires => all_wires
  | HamiltonianGPU _ obs =>
      let wires : gset N :=
        foldl (λ acc ob_wires, acc ∪ list_to_set ob_wires) ∅ (map getWires obs) in
      sort_wires (elements wires)
  end.

Definition disjoint_msg : string := "All wires in observables must be disjoint.".

(** The inner loop of the [TensorProdObsGPU] constructor, over the wires of
    one member; [wires] is the set of wires seen so far. *)
Fixpoint check_ob_wires (ob_wires : list N) (wires : gset N) : result (gset N) :=
  match ob_wires with
  | [] => Ok wires
  | wire :: rest =>
      if bool_decide (wire ∈ wires) then Err (LightningException disjoint_msg)
      else check_ob_wires rest ({[wire]} ∪ wires)
  end.

(** The outer loop, over the members. *)
Fixpoint check_obs_wires (obs : list ObservableGPU) (wires : gset N)
    : result (gset N) :=
  match obs with
  | [] => Ok wires
  | ob :: rest =>
      wires' ← check_ob_wires (getWires ob) wires;
      check_obs_wires rest wires'
  end.

(** The constructor [TensorProdObsGPU(obs...)] (and [create]). *)
Definition TensorProdObsGPU_new (obs : list ObservableGPU) : result ObservableGPU :=
  wires ← check_obs_wires obs ∅;
  Ok (TensorProdObsGPU obs (sort_wires (elements wires))).

(** The constructor [HamiltonianGPU(coeffs, obs)] (and [create]). *)
Definition HamiltonianGPU_new (coeffs : list float) (obs : list ObservableGPU)
    : result ObservableGPU :=
  if bool_decide (length coeffs = length obs) then Ok (HamiltonianGPU coeffs obs)
  else Err (LightningException "Assertion failed: coeffs_.size() == obs_.size()").

(** [operator==]: the dynamic types agree and [isEqual(other)] holds, with
    the [isEqual] override of each subclass inlined. The loops of the
    tensor product and of the Hamiltonian walk [obs_] and read the same
    position of [other.obs_]; that position exists when the sizes agree,
    which the tensor product tests and the Hamiltonian constructor
    guarantees once the coefficients are equal. *)
Fixpoint operator_eq (a b : ObservableGPU) {struct a} : bool :=
  bool_decide (typeid a = typeid b) &&
  match a, b with
  | NamedObsGPU n1 w1 p1, NamedObsGPU n2 w2 p2 =>
      String.eqb n1 n2 && vec_eqb N.eqb w1 w2 && vec_eqb PrimFloat.eqb p1 p2
  | HermitianObsGPU m1 w1, HermitianObsGPU m2 w2 =>
      vec_eqb complex_eqb m1 m2 && vec_eqb N.eqb w1 w2
  | TensorProdObsGPU o1 _, TensorProdObsGPU o2 _ =>
      if negb (length o1 =? length o2)%nat then false
      else
        (fix loop (l1 l2 : list ObservableGPU) {struct l1} : bool :=
           match l1, l2 with
           | [], _ => true
           | x :: l1', y :: l2' =>
               if negb (operator_eq x y) then false else loop l1' l2'
           | _ :: _, [] => false
           end) o1 o2
  | HamiltonianGPU c1 o1, HamiltonianGPU c2 o2 =>
      if negb (vec_eqb PrimFloat.eqb c1 c2) then false
      else
        (fix loop (l1 l2 : list ObservableGPU) {struct l1} : bool :=
           match l1, l2 with
           | [], _ => true
           | x :: l1', y :: l2' =>
               if negb (operator_eq x y) then false else loop l1' l2'
           | _ :: _, [] => false
           end) o1 o2
  | _, _ => false
  end.

(** [operator!=]. *)
Definition operator_ne (a b : ObservableGPU) : bool := negb (operator_eq a b).

(** Induction on observables, with the members of a tensor product or of a
    Hamiltonian covered by the induction hypothesis. *)
Section ObservableGPU_induction.
Context (P : ObservableGPU → Prop).
Hypothesis P_Named : ∀ n w p, P (NamedObsGPU n w p).
Hypothesis P_Hermitian : ∀ m w, P (HermitianObsGPU m w).
Hypothesis P_TensorProd : ∀ obs aw, Forall P obs → P (TensorProdObsGPU obs aw).
Hypothesis P_Hamiltonian : ∀ cs obs, Forall P obs → P (HamiltonianGPU cs obs).

Fixpoint ObservableGPU_nested_ind (o : ObservableGPU) : P o :=
  match o with
  | NamedObsGPU n w p => P_Named n w p
  | HermitianObsGPU m w => P_Hermitian m w
  | TensorProdObsGPU obs aw =>
      P_TensorProd obs aw
        ((fix go (l : list ObservableGPU) : Forall P l :=
            match l with
            | [] => ListDef.Forall_nil P
            | x :: l' => ListDef.Forall_cons P x l' (ObservableGPU_nested_ind x) (go l')
            end) obs)
  | HamiltonianGPU cs obs =>
      P_Hamiltonian cs obs
        ((fix go (l : list ObservableGPU) : Forall P l :=
            match l with
            | [] => ListDef.Forall_nil P
            | x :: l' => ListDef.Forall_cons P x l' (ObservableGPU_nested_ind x) (go l')
            end) obs)
  end.
End ObservableGPU_induction.

Section ApplyObservable.
Context {B : Backend}.
Abbreviation SV := (StateVectorCudaManaged B).

(** [applyInPlace(sv)]. For the Hamiltonian, [d_res] starts as a state
    built from a zero-filled host vector of the length of [sv]; each term
    is applied to a copy [tmp] of [sv] and accumulated into [d_res] with
    its coefficient; [sv.updateData(d_res)] ends the call. *)
Fixpoint applyInPlace (o : ObservableGPU) (sv : SV) {struct o} : SV :=
  match o with
  | NamedObsGPU obs_name wires params =>
      sv_call (applyOperation obs_name wires false params) sv
  | HermitianObsGPU matrix wires =>
      sv_call (applyOperation_std "Hermitian" wires false [] matrix) sv
  | TensorProdObsGPU obs _ =>
      (fix loop (l : list ObservableGPU) (sv : SV) {struct l} : SV :=
         match l with
         | [] => sv
         | ob :: l' => loop l' (applyInPlace ob sv)
         end) obs sv
  | HamiltonianGPU coeffs obs =>
      let d_res0 := amp_zeros B (getLength sv) in
      let d_res :=
        (fix loop (cs : list float) (l : list ObservableGPU) (d_res : Amp B)
             {struct l} : Amp B :=
           match cs, l with
           | c :: cs', ob :: l' =>
               let tmp := applyInPlace ob sv in
               loop cs' l' (scaleAndAddC_CUDA B (c, 0%float) (getData tmp) d_res)
           | _, _ => d_res
           end) coeffs obs d_res0 in
      mkSV (getDevTag sv) d_res
  end.
End ApplyObservable.

(** ** The operations tape *)

(** Modelled from the spec: the tape type [OpsData] is declared in
    [JacobianTape.hpp], which is not part of the sources at hand. Following
    the data model, the tape is the ordered sequence of its operations,
    each with a name, its numeric parameters, its wires, its inverse flag
    and an optional explicit matrix. *)
Record OpData : Type := mkOp
  { op_name : string;
    op_params : list float;
    op_wires : list N;
    op_inverse : bool;
    op_matrix : list complex }.

Definition OpsData : Type := list OpData.

(** Modelled from the spec: [ops.hasParams(op_idx)], the operation carries
    a numeric parameter. *)
Definition hasParams (op : OpData) : bool :=
  match op_params op with
  | [] => false
  | _ :: _ => true
  end.

(** Modelled from the spec: [ops.getNumParOps()], the number of parametric
    operations of the tape. *)
Definition getNumParOps (ops : OpsData) : Z :=
  Z.of_nat (length (List.filter hasParams ops)).

(** ** The generator registry *)

(** The free functions [applyGenerator..._GPU] that [generator_map] points
    to. *)
Inductive GeneratorFunc : Type :=
  | applyGeneratorRX_GPU | applyGeneratorRY_GPU | applyGeneratorRZ_GPU
  | applyGeneratorIsingXX_GPU | applyGeneratorIsingYY_GPU
  | applyGeneratorIsingZZ_GPU
  | applyGeneratorPhaseShift_GPU
  | applyGeneratorCRX_GPU | applyGeneratorCRY_GPU | applyGeneratorCRZ_GPU
  | applyGeneratorControlledPhaseShift_GPU
  | applyGeneratorSingleExcitation_GPU
  | applyGeneratorSingleExcitationMinus_GPU
  | applyGeneratorSingleExcitationPlus_GPU
  | applyGeneratorDoubleExcitation_GPU
  | applyGeneratorDoubleExcitationMinus_GPU
  | applyGeneratorDoubleExcitationPlus_GPU
  | applyGeneratorMultiRZ_GPU.

(** [getP11_CU()]: the projector on the state 1, row-major. *)
Definition getP11_CU : list complex :=
  [(0, 0); (0, 0); (0, 0); (1, 0)]%float.

(** [wires.back()]; undefined on an empty vector. *)
Definition wires_back (wires : list N) : result N :=
  match last wires with
  | Some w => Ok w
  | None => Err (UndefinedBehaviour "back() of an empty vector")
  end.

Definition generator_map : gmap string GeneratorFunc :=
  list_to_map
    [ ("RX", applyGeneratorRX_GPU);
      ("RY", applyGeneratorRY_GPU);
      ("RZ", applyGeneratorRZ_GPU);
      ("IsingXX", applyGeneratorIsingXX_GPU);
      ("IsingYY", applyGeneratorIsingYY_GPU);
      ("IsingZZ", applyGeneratorIsingZZ_GPU);
      ("CRX", applyGeneratorCRX_GPU);
      ("CRY", applyGeneratorCRY_GPU);
      ("CRZ", applyGeneratorCRZ_GPU);
      ("PhaseShift", applyGeneratorPhaseShift_GPU);
      ("ControlledPhaseShift", applyGeneratorControlledPhaseShift_GPU);
      ("SingleExcitation", applyGeneratorSingleExcitation_GPU);
      ("SingleExcitationMinus", applyGeneratorSingleExcitationMinus_GPU);
      ("SingleExcitationPlus", applyGeneratorSingleExcitationPlus_GPU);
      ("DoubleExcitation", applyGeneratorDoubleExcitation_GPU);
      ("DoubleExcitationMinus", applyGeneratorDoubleExcitationMinus_GPU);
      ("DoubleExcitationPlus", applyGeneratorDoubleExcitationPlus_GPU);
      ("MultiRZ", applyGeneratorMultiRZ_GPU) ]%string.

Definition scaling_factors : gmap string float :=
  list_to_map
    [ ("RX"%string, -0.5); ("RY"%string, -0.5); ("RZ"%string, -0.5);
      ("IsingXX"%string, -0.5); ("IsingYY"%string, -0.5);
      ("IsingZZ"%string, -0.5);
      ("PhaseShift"%string, 1);
      ("CRX"%string, -0.5); ("CRY"%string, -0.5); ("CRZ"%string, -0.5);
      ("ControlledPhaseShift"%string, 1);
      ("SingleExcitation"%string, -0.5);
      ("SingleExcitationMinus"%string, -0.5);
      ("SingleExcitationPlus"%string, -0.5);
      ("DoubleExcitation"%string, -0.5);
      ("DoubleExcitationMinus"%string, -0.5);
      ("DoubleExcitationPlus"%string, -0.5);
      ("MultiRZ"%string, -0.5) ]%float.

Definition not_supported_msg : string :=
  "The operation is not supported using the adjoint differentiation method".

Definition no_trainable_msg : string := "No trainable parameters provided.".

Definition different_gpus_msg : string :=
  "Data exists on different GPUs. Aborting.".

(** ** The adjoint sweep *)

Section AdjointJacobianGPU.
Context {B : Backend}.
Abbreviation SV := (StateVectorCudaManaged B).

(** The body of each [applyGenerator..._GPU] function. *)
Definition call_generator (g : GeneratorFunc) (sv : SV) (wires : list N)
    (adj : bool) : result SV :=
  match g with
  | applyGeneratorRX_GPU => Ok (sv_call (applyMethod applyPauliX wires adj) sv)
  | applyGeneratorRY_GPU => Ok (sv_call (applyMethod applyPauliY wires adj) sv)
  | applyGeneratorRZ_GPU => Ok (sv_call (applyMethod applyPauliZ wires adj) sv)
  | applyGeneratorIsingXX_GPU =>
      Ok (sv_call (applyMethod applyGeneratorIsingXX wires adj) sv)
  | applyGeneratorIsingYY_GPU =>
      Ok (sv_call (applyMethod applyGeneratorIsingYY wires adj) sv)
  | applyGeneratorIsingZZ_GPU =>
      Ok (sv_call (applyMethod applyGeneratorIsingZZ wires adj) sv)
  | applyGeneratorPhaseShift_GPU =>
      Ok (sv_call (applyOperation_gate "P_11" wires adj [0%float] getP11_CU) sv)
  | applyGeneratorCRX_GPU =>
      w ← wires_back wires; Ok (sv_call (applyMethod applyPauliX [w] adj) sv)
  | applyGeneratorCRY_GPU =>
      w ← wires_back wires; Ok (sv_call (applyMethod applyPauliY [w] adj) sv)
  | applyGeneratorCRZ_GPU =>
      w ← wires_back wires; Ok (sv_call (applyMethod applyPauliZ [w] adj) sv)
  | applyGeneratorControlledPhaseShift_GPU =>
      w ← wires_back wires;
      Ok (sv_call (applyOperation_gate "P_11" [w] adj [0%float] getP11_CU) sv)
  | applyGeneratorSingleExcitation_GPU =>
      Ok (sv_call (applyMethod applyGeneratorSingleExcitation wires adj) sv)
  | applyGeneratorSingleExcitationMinus_GPU =>
      Ok (sv_call (applyMethod applyGeneratorSingleExcitationMinus wires adj) sv)
  | applyGeneratorSingleExcitationPlus_GPU =>
      Ok (sv_call (applyMethod applyGeneratorSingleExcitationPlus wires adj) sv)
  | applyGeneratorDoubleExcitation_GPU =>
      Ok (sv_call (applyMethod applyGeneratorDoubleExcitation wires adj) sv)
  | applyGeneratorDoubleExcitationMinus_GPU =>
      Ok (sv_call (applyMethod applyGeneratorDoubleExcitationMinus wires adj) sv)
  | applyGeneratorDoubleExcitationPlus_GPU =>
      Ok (sv_call (applyMethod applyGeneratorDoubleExcitationPlus wires adj) sv)
  | applyGeneratorMultiRZ_GPU =>
      Ok (sv_call (applyMethod applyGeneratorMultiRZ wires adj) sv)
  end.

(** [applyGenerator]: both lookups are [at()], which throws
    [std::out_of_range] for a name that is not a key. *)
Definition applyGenerator (sv : SV) (op_name : string) (wires : list N)
    (adj : bool) : result (SV * float) :=
  match generator_map !! op_name with
  | None => Err OutOfRange
  | Some g =>
      sv' ← call_generator g sv wires adj;
      match scaling_factors !! op_name with
      | None => Err OutOfRange
      | Some c => Ok (sv', c)
      end
  end.

(** [updateJacobian]. The write [jac[...]] is unchecked. *)
Definition updateJacobian (sv1 sv2 : SV) (jac : list float)
    (scaling_coeff : float) (obs_index param_index tp_size : Z)
    : result (list float) :=
  if negb (getDeviceID (getDevTag sv1) =? getDeviceID (getDevTag sv2))
  then Err (LightningException different_gpus_msg)
  else
    let idx := wrap64 (wrap64 (obs_index * tp_size) + param_index) in
    if idx <? Z.of_nat (length jac) then
      Ok (<[Z.to_nat idx :=
             (-2 * scaling_coeff * innerProdC_CUDA_y B (getData sv1) (getData sv2))%float]>
            jac)
    else Err (UndefinedBehaviour "write past the end of jac").

(** The value [updateJacobian] stores. *)
Definition jac_entry (sv1 sv2 : SV) (scaling_coeff : float) : float :=
  (-2 * scaling_coeff * innerProdC_CUDA_y B (getData sv1) (getData sv2))%float.

(** [applyOperations(state, operations, adj)]. *)
Definition applyOperations (state : SV) (operations : OpsData) (adj : bool) : SV :=
  foldl
    (λ st op,
       sv_call (applyOperation (op_name op) (op_wires op)
                  (xorb (op_inverse op) adj) (op_params op)) st)
    state operations.

(** [applyOperationAdj(state, operations, op_idx)], given the operation at
    [op_idx]. *)
Definition applyOperationAdj (state : SV) (op : OpData) : SV :=
  sv_call (applyOperation (op_name op) (op_wires op) (negb (op_inverse op))
             (op_params op)) state.

(** [applyObservables(states, reference_state, observables)], for states
    freshly allocated on [dev]. *)
Definition applyObservables (num_qubits : N) (dev : DevTag)
    (reference_state : SV) (observables : list ObservableGPU) : list SV :=
  map (λ ob, applyInPlace ob (updateData (sv_alloc num_qubits dev) reference_state))
    observables.

(** [applyOperationsAdj(states, operations, op_idx)]. *)
Definition applyOperationsAdj (states : list SV) (op : OpData) : list SV :=
  map (λ st, applyOperationAdj st op) states.

(** The variables of [adjointJacobian] that its loop reads and writes.
    [tp_it] holds what the reverse iterator has still to visit, next
    element first; it is empty when [tp_it == tp_rend]. *)
Record Sweep : Type := mkSweep
  { lambda : SV;
    H_lambda : list SV;
    mu : SV;
    jac : list float;
    trainableParamNumber : Z;
    current_param_idx : Z;
    tp_it : list N }.

(** The loop over the observables that calls [updateJacobian], in index
    order from [obs_idx]. *)
Fixpoint updateJacobian_all (states : list SV) (obs_idx : Z) (mu : SV)
    (jac : list float) (scalingFactor : float) (param_index tp_size : Z)
    : list float * option failure :=
  match states with
  | [] => (jac, None)
  | h :: rest =>
      match updateJacobian h mu jac scalingFactor obs_idx param_index tp_size with
      | Ok jac' =>
          updateJacobian_all rest (obs_idx + 1) mu jac' scalingFactor param_index tp_size
      | Err e => (jac, Some e)
      end
  end.

(** What one iteration of the loop does to the loop itself. *)
Inductive Step : Type :=
  | Continue (s : Sweep)
  | Break
  | Abort (s : Sweep) (e : failure).

Definition is_state_prep (name : string) : bool :=
  String.eqb name "QubitStateVector" || String.eqb name "BasisState".

(** The body of the reverse loop, for the operation [op] at [op_idx]. *)
Definition sweep_step (tp_size : Z) (op : OpData) (s : Sweep) : Step :=
  if bool_decide (1 < length (op_params op))%nat then
    Abort s (LightningException not_supported_msg)
  else if is_state_prep (op_name op) then Continue s
  else
    match tp_it s with
    | [] => Break
    | tp :: tp_rest =>
        let mu1 := updateData (mu s) (lambda s) in
        let lambda1 := applyOperationAdj (lambda s) op in
        let H1 := applyOperationsAdj (H_lambda s) op in
        if hasParams op then
          if current_param_idx s =? Z.of_N tp then
            match applyGenerator mu1 (op_name op) (op_wires op)
                    (negb (op_inverse op)) with
            | Err e =>
                Abort (mkSweep lambda1 (H_lambda s) mu1 (jac s)
                         (trainableParamNumber s) (current_param_idx s) (tp_it s)) e
            | Ok (mu2, c) =>
                let scalingFactor := (c * (if op_inverse op then -1 else 1))%float in
                match updateJacobian_all (H_lambda s) 0 mu2 (jac s) scalingFactor
                        (trainableParamNumber s) tp_size with
                | (jac', Some e) =>
                    Abort (mkSweep lambda1 (H_lambda s) mu2 jac'
                             (trainableParamNumber s) (current_param_idx s) (tp_it s)) e
                | (jac', None) =>
                    Continue (mkSweep lambda1 H1 mu2 jac'
                                (wrap64 (trainableParamNumber s - 1))
                                (wrap64 (current_param_idx s - 1)) tp_rest)
                end
            end
          else
            Continue (mkSweep lambda1 H1 mu1 (jac s) (trainableParamNumber s)
                        (wrap64 (current_param_idx s - 1)) (tp_it s))
        else
          Continue (mkSweep lambda1 H1 mu1 (jac s) (trainableParamNumber s)
                      (current_param_idx s) (tp_it s))
    end.

(** The reverse loop, over the operations in the order it visits them. *)
Fixpoint sweep_loop (tp_size : Z) (walk : list OpData) (s : Sweep)
    : Sweep * option failure :=
  match walk with
  | [] => (s, None)
  | op :: rest =>
      match sweep_step tp_size op s with
      | Continue s' => sweep_loop tp_size rest s'
      | Break => (s, None)
      | Abort s' e => (s', Some e)
      end
  end.

(** The state in which the loop enters the iteration that follows the
    iterations over [walk], if it gets that far: [None] when one of them
    leaves the loop. *)
Fixpoint sweep_reach (tp_size : Z) (walk : list OpData) (s : Sweep) : option Sweep :=
  match walk with
  | [] => Some s
  | op :: rest =>
      match sweep_step tp_size op s with
      | Continue s' => sweep_reach tp_size rest s'
      | Break | Abort _ _ => None
      end
  end.

(** The number of parametric operations the loop counts down over [walk]:
    a state-preparation sentinel is skipped before the counter is
    touched. *)
Definition walked_par (walk : list OpData) : Z :=
  Z.of_nat
    (length (List.filter (λ op, negb (is_state_prep (op_name op)) && hasParams op) walk)).

(** What holds of the loop variables of [adjointJacobian] on every
    iteration, for the device [dev], [n_obs] observables and a buffer of
    [n_jac] entries. *)
Record sweep_inv (dev : DevTag) (n_obs n_jac : nat) (s : Sweep) : Prop :=
  { inv_mu : getDevTag (mu s) = dev;
    inv_H : Forall (λ h, getDevTag h = dev) (H_lambda s);
    inv_H_length : length (H_lambda s) = n_obs;
    inv_jac_length : length (jac s) = n_jac;
    inv_tpn : trainableParamNumber s = wrap64 (Z.of_nat (length (tp_it s)) - 1);
    inv_cpi : 0 ≤ current_param_idx s < 2 ^ 64 }.

(** The operations the loop visits: [op_idx] starts at
    [static_cast<int>(ops_name.size() - 1)] and runs down to 0. *)
Definition walk_order (ops : OpsData) : list OpData :=
  let start := int_of_size_t (wrap64 (Z.of_nat (length ops) - 1)) in
  rev (take (Z.to_nat (start + 1)) ops).

(** The state on entry to the loop. *)
Definition sweep_init (ref_data : Amp B) (jac : list float)
    (obs : list ObservableGPU) (ops : OpsData) (trainableParams : list N)
    (apply_operations : bool) (dev_tag : DevTag) : Sweep :=
  let tp_size := Z.of_nat (length trainableParams) in
  let num_param_ops := getNumParOps ops in
  let dt_local := dev_tag in
  let lambda0 := mkSV dt_local ref_data in
  let lambda := if apply_operations then applyOperations lambda0 ops false else lambda0 in
  let H_lambda := applyObservables (getNumQubits lambda) dt_local lambda obs in
  let mu := sv_alloc (getNumQubits lambda) dt_local in
  mkSweep lambda H_lambda mu jac (wrap64 (tp_size - 1)) (wrap64 (num_param_ops - 1))
    (rev trainableParams).

(** [adjointJacobian]: the content of the caller's buffer [jac] when the
    call ends, and the exception it ends with, if any. *)
Definition adjointJacobian (ref_data : Amp B) (jac0 : list float)
    (obs : list ObservableGPU) (ops : OpsData) (trainableParams : list N)
    (apply_operations : bool) (dev_tag : DevTag) : list float * option failure :=
  match trainableParams with
  | [] => (jac0, Some (LightningException no_trainable_msg))
  | _ :: _ =>
      let '(s, r) :=
        sweep_loop (Z.of_nat (length trainableParams)) (walk_order ops)
          (sweep_init ref_data jac0 obs ops trainableParams apply_operations dev_tag) in
      (jac s, r)
  end.
End AdjointJacobianGPU.

Arguments Sweep B : clear implicits.
Arguments Step B : clear implicits.

(** ** The device pool *)

(** Modelled from the spec: [DevicePool] is declared in [DevicePool.hpp],
    which is not part of the sources at hand. Following the data model it
    is a registry of device identifiers with their availability:
    [acquireDevice] takes an available device (the caller is suspended while
    there is none), [releaseDevice] makes it available again, and
    [getTotalDevices] is the number of devices. *)
Record DevicePool : Type := mkPool { getTotalDevices : Z; available : list Z }.

(** A pool as its default constructor builds it on a machine with
    [num_gpus] devices: every device is available. *)
Definition DevicePool_new (num_gpus : N) : DevicePool :=
  mkPool (Z.of_N num_gpus) (seqZ 0 (Z.of_N num_gpus)).

(** [None] stands for a caller that stays suspended. *)
Definition acquireDevice (dp : DevicePool) : option (Z * DevicePool) :=
  match available dp with
  | [] => None
  | id :: rest => Some (id, mkPool (getTotalDevices dp) rest)
  end.

Definition releaseDevice (id : Z) (dp : DevicePool) : DevicePool :=
  mkPool (getTotalDevices dp) (available dp ++ [id]).

(** ** Batching over the devices *)

(** How a shard worker, a [std::thread] running [adj_lambda], ends. *)
Inductive WorkerEnd : Type :=
  | Fulfilled (jac_local : list float)
      (** the promise received its value and the thread function returned *)
  | Escaped (e : failure)
      (** an exception left the thread function, which calls
          [std::terminate] *)
  | Suspended
      (** [acquireDevice] never returned *).

(** How [batchAdjointJacobian] ends. An exception that leaves the
    function of a thread calls [std::terminate]; so does an exception that
    leaves [batchAdjointJacobian] itself, since the merge loop runs before
    the threads are joined and unwinding destroys joinable [std::thread]
    objects. Where the behaviour is undefined nothing is said of the buffer
    or of the pool. *)
Inductive BatchEnd : Type :=
  | Returned (jac : list float)
      (** the call returned, every thread joined, with [jac] in the
          caller's buffer *)
  | ProcessTerminated (e : failure)
      (** [std::terminate] was called, after the exception [e] *)
  | NeverReturns
  | Undefined (what : string)
      (** undefined behaviour *).

(** The end that an exception brings: a failure that stands for undefined
    behaviour is undefined behaviour of the whole call. *)
Definition ended_by (e : failure) : BatchEnd :=
  match e with
  | UndefinedBehaviour what => Undefined what
  | _ => ProcessTerminated e
  end.

(** The closure [adj_lambda] captures by reference ([&]): it holds
    references to [first] and [last], which are local to the body of the
    loop that creates the thread. The thread reads them after it acquired a
    device; the iteration may have ended by then. A schedule tells, for the
    thread of each shard, whether it reads [first] and [last] while the
    iteration that created it is still running. If not, the thread reads
    objects whose lifetime has ended, which is undefined. *)
Definition Schedule : Type := Z → bool.

(** The schedule in which every thread reads the bounds of its shard in
    time. *)
Definition all_in_time : Schedule := λ _, true.

Section Batch.
Context {B : Backend}.

(** The shard boundaries. The quotient is the integer division of
    [size_t] values, so [std::ceil] has nothing to round. *)
Definition shard_first (obs_size i num_chunks : Z) : option Z :=
  size_t_of_ceil (wrap64 (obs_size * i) / num_chunks).

Definition shard_last (obs_size i num_chunks : Z) : option Z :=
  size_t_of_ceil (wrap64 (wrap64 (obs_size * wrap64 (i + 1)) / num_chunks - 1)).

(** The vector built from the iterator range
    [{obs.begin() + first, obs.begin() + last + 1}]; the range has to lie
    within [obs]. *)
Definition obs_range {A : Type} (first last : Z) (obs : list A) : result (list A) :=
  let stop := wrap64 (last + 1) in
  if (first <=? stop) && (stop <=? Z.of_nat (length obs)) then
    Ok (take (Z.to_nat (stop - first)) (drop (Z.to_nat first) obs))
  else Err (UndefinedBehaviour "iterator range outside of obs").

(** The thread function [adj_lambda]: the pool when the thread ends, and
    how it ends. [first] and [last] are the values the thread finds when it
    reads through the references the closure holds; [run_workers] says
    when these are the bounds of the shard of the thread. *)
Definition adj_lambda (dp : DevicePool) (first last : Z) (ref_data : Amp B)
    (obs : list ObservableGPU) (ops : OpsData) (trainableParams : list N)
    (apply_operations : bool) : DevicePool * WorkerEnd :=
  match acquireDevice dp with
  | None => (dp, Suspended)
  | Some (id, dp1) =>
      let dt_local := mkDevTag id 0 in
      let local_sv : StateVectorCudaManaged B := mkSV dt_local ref_data in
      let jac_local :=
        replicate
          (Z.to_nat (wrap64 (wrap64 (last - first + 1)
                             * Z.of_nat (length trainableParams))))
          0%float in
      match obs_range first last obs with
      | Err e => (dp1, Escaped e)
      | Ok shard =>
          match adjointJacobian (getData local_sv) jac_local shard ops
                  trainableParams apply_operations dt_local with
          | (_, Some e) => (dp1, Escaped e)
          | (jac_local', None) => (releaseDevice id dp1, Fulfilled jac_local')
          end
      end
  end.

(** The first loop of [batchAdjointJacobian], for the shards [i],
    [i+1], ... ([fuel] of them), and the threads it starts. The threads
    are run here one after the other, in shard order: apart from the pool
    they share only what they read, there are as many devices as threads,
    and what a sweep computes does not depend on its device, so the blocks
    of threads that read their bounds in time do not depend on the
    interleaving. The result is the pool of this interleaving, and the
    blocks in shard order or the way the call ends without them. The
    conversions of the bounds to [size_t] are undefined when the value does
    not fit. *)
Fixpoint run_workers (sched : Schedule) (fuel : nat) (i num_chunks : Z)
    (dp : DevicePool) (ref_data : Amp B) (obs : list ObservableGPU) (ops : OpsData)
    (trainableParams : list N) (apply_operations : bool)
    : DevicePool * (BatchEnd + list (list float)) :=
  match fuel with
  | O => (dp, inr [])
  | S fuel' =>
      let n := Z.of_nat (length obs) in
      match shard_first n i num_chunks, shard_last n i num_chunks with
      | Some first, Some last =>
          if sched i then
            match adj_lambda dp first last ref_data obs ops trainableParams
                    apply_operations with
            | (dp', Fulfilled rows) =>
                match run_workers sched fuel' (i + 1) num_chunks dp' ref_data obs ops
                        trainableParams apply_operations with
                | (dp'', inr blocks) => (dp'', inr (rows :: blocks))
                | (dp'', inl e) => (dp'', inl e)
                end
            | (dp', Escaped e) => (dp', inl (ended_by e))
            | (dp', Suspended) => (dp', inl NeverReturns)
            end
          else (dp, inl (Undefined "first and last read after their lifetime ended"))
      | _, _ => (dp, inl (Undefined "conversion of a double out of range"))
      end
  end.

(** The inner loop of the merge: [jac.at(first + j) = jac_rows[j]]. *)
Fixpoint merge_rows (first j : Z) (jac_rows : list float) (jac : list float)
    : list float * option failure :=
  match jac_rows with
  | [] => (jac, None)
  | x :: rest =>
      let idx := wrap64 (first + j) in
      if idx <? Z.of_nat (length jac) then
        merge_rows first (j + 1) rest (<[Z.to_nat idx := x]> jac)
      else (jac, Some OutOfRange)
  end.

(** The outer loop of the merge, over the futures in shard order. *)
Fixpoint merge_blocks (obs_size i num_chunks : Z) (blocks : list (list float))
    (jac : list float) : list float * option failure :=
  match blocks with
  | [] => (jac, None)
  | jac_rows :: rest =>
      match shard_first obs_size i num_chunks with
      | None => (jac, Some (UndefinedBehaviour "conversion of a double out of range"))
      | Some first =>
          match merge_rows first 0 jac_rows jac with
          | (jac', None) => merge_blocks obs_size (i + 1) num_chunks rest jac'
          | (jac', Some e) => (jac', Some e)
          end
      end
  end.

(** [batchAdjointJacobian] on a machine with [num_gpus] devices, under
    the schedule [sched]: how the call ends. An exception of [jac.at] in
    the merge loop leaves the function before the threads are joined. *)
Definition batchAdjointJacobian (sched : Schedule) (num_gpus : N)
    (ref_data : Amp B) (jac0 : list float) (obs : list ObservableGPU)
    (ops : OpsData) (trainableParams : list N) (apply_operations : bool)
    : BatchEnd :=
  let dp := DevicePool_new num_gpus in
  let num_chunks := getTotalDevices dp in
  match run_workers sched (N.to_nat num_gpus) 0 num_chunks dp ref_data obs ops
          trainableParams apply_operations with
  | (_, inl e) => e
  | (_, inr blocks) =>
      match merge_blocks (Z.of_nat (length obs)) 0 num_chunks blocks jac0 with
      | (jac', None) => Returned jac'
      | (_, Some e) => ended_by e
      end
  end.
End Batch.

(** ** A recording backend

    A backend that computes nothing: an amplitude buffer is the history of
    the kernel calls that produced it. It serves to run the engine on
    concrete inputs. The inner product is replaced by a number that tells
    histories apart. *)
Module Recording.

Inductive Trace : Type :=
  | Host (tag : N)
  | Alloc (num_qubits : N)
  | Zeros (len : N)
  | Call (c : BackendCall) (t : Trace)
  | Axpy (a : complex) (x y : Trace).

(** A number for a kernel call: it depends on the wires and on the
    adjoint flag. *)
Definition call_code (c : BackendCall) : Z :=
  match c with
  | applyOperation _ wires adj _
  | applyOperation_gate _ wires adj _ _
  | applyOperation_std _ wires adj _ _
  | applyMethod _ wires adj =>
      1 + Z.of_N (foldr N.add 0%N wires) + (if adj then 3 else 0)
  end.

Fixpoint weight (t : Trace) : Z :=
  match t with
  | Host tag => Z.of_N tag
  | Alloc _ => 0
  | Zeros _ => 0
  | Call c t' => 7 * weight t' + call_code c
  | Axpy _ x y => weight x + weight y
  end.

Fixpoint float_of_nat (n : nat) : float :=
  match n with
  | O => 0%float
  | S n' => (1 + float_of_nat n')%float
  end.

Definition backend : Backend :=
  {| Amp := Trace;
     exec := Call;
     amp_alloc := Alloc;
     amp_zeros := Zeros;
     getNumQubits_amp := λ _, 2%N;
     getLength_amp := λ _, 4%N;
     scaleAndAddC_CUDA := Axpy;
     innerProdC_CUDA_y := λ v1 v2,
       float_of_nat (Z.to_nat ((weight v1 + 3 * weight v2) mod 101)) |}.

End Recording.

(** ** Concrete inputs *)

Module Examples.

Definition RX (w : N) (theta : float) : OpData := mkOp "RX" [theta] [w] false [].
Definition RY (w : N) (theta : float) : OpData := mkOp "RY" [theta] [w] false [].
Definition PauliX_op (w : N) : OpData := mkOp "PauliX" [] [w] false [].
Definition Rot (w : N) (phi theta omega : float) : OpData :=
  mkOp "Rot" [phi; theta; omega] [w] false [].

Definition PauliZ_obs (w : N) : ObservableGPU := NamedObsGPU "PauliZ" [w] [].

(** A tape of two rotations, both trainable, and two observables. *)
Definition tape2 : OpsData := [RX 0 0.5; RY 1 0.25].
Definition obs2 : list ObservableGPU := [PauliZ_obs 0; PauliZ_obs 1].

(** A tape whose first operation has three parameters. *)
Definition tape_rot_far : OpsData := [Rot 0 0.5 0.25 0.125; PauliX_op 0; RX 0 0.5].
Definition tape_rot_near : OpsData := [Rot 0 0.5 0.25 0.125; RX 0 0.5].

(** A tape whose three-parameter operation is followed by a parameterless
    operation only. *)
Definition tape_rot_mid : OpsData := [RX 0 0.5; Rot 0 0.5 0.25 0.125; PauliX_op 0].

Definition dev0 : DevTag := mkDevTag 0 0.

Definition ref_state : Amp Recording.backend := Recording.Host 1.

(** The state of the sweep over [tape2] on entry to its loop. *)
Definition s0 : Sweep Recording.backend :=
  sweep_init ref_state [0; 0; 0; 0]%float obs2 tape2 [0; 1]%N false dev0.

(** The same sweep when only the first rotation is trainable. *)
Definition s0_sparse : Sweep Recording.backend :=
  sweep_init ref_state [0; 0]%float obs2 tape2 [0]%N false dev0.

(** The state of the sweep over [tape2] after its first iteration, on
    the last operation. *)
Definition s1 : Sweep Recording.backend :=
  default s0 (sweep_reach 2 [RY 1 0.25] s0).

(** The scratch state after the generator of the first operation of
    [tape2] was applied to a copy of [lambda], in the second iteration. *)
Definition mu2 : StateVectorCudaManaged Recording.backend :=
  sv_call (applyMethod applyPauliX [0%N] true) (updateData (mu s1) (lambda s1)).

(** The scratch state after the generator of the last operation of
    [tape2] was applied to a copy of [lambda]. *)
Definition mu1 : StateVectorCudaManaged Recording.backend :=
  sv_call (applyMethod applyPauliY [1%N] true) (updateData (mu s0) (lambda s0)).

(** A Hermitian observable with the matrix of Pauli Z. *)
Definition HermitianZ_obs (w : N) : ObservableGPU :=
  HermitianObsGPU [(1, 0); (0, 0); (0, 0); (-1, 0)]%float [w].

(** A named observable that lists the wire 0 twice. *)
Definition PauliZ_00 : ObservableGPU := NamedObsGPU "PauliZ" [0; 0]%N [].

End Examples.

(** ** Further members of the classes *)

(** [getJacIndex(obs_index, tp_index, tp_size)]. *)
Definition getJacIndex (obs_index tp_index tp_size : Z) : Z :=
  wrap64 (wrap64 (obs_index * tp_size) + tp_index).

(** [getSize()] of a tensor product. *)
Definition getSize (o : ObservableGPU) : Z :=
  match o with
  | TensorProdObsGPU obs _ => Z.of_nat (length obs)
  | _ => 0
  end.

(** An observable as the constructors of the classes build it: the wires
    of a tensor product are the ones its constructor computed, and a
    Hamiltonian has as many coefficients as terms. *)
Fixpoint constructed (o : ObservableGPU) : Prop :=
  match o with
  | NamedObsGPU _ _ _ => True
  | HermitianObsGPU _ _ => True
  | TensorProdObsGPU obs all_wires =>
      TensorProdObsGPU_new obs = Ok (TensorProdObsGPU obs all_wires)
      ∧ (fix all (l : list ObservableGPU) : Prop :=
           match l with
           | [] => True
           | x :: l' => constructed x ∧ all l'
           end) obs
  | HamiltonianGPU coeffs obs =>
      length coeffs = length obs
      ∧ (fix all (l : list ObservableGPU) : Prop :=
           match l with
           | [] => True
           | x :: l' => constructed x ∧ all l'
           end) obs
  end.

(** No scalar of the observable is a NaN: each compares equal to itself. *)
Fixpoint nan_free (o : ObservableGPU) : Prop :=
  match o with
  | NamedObsGPU _ _ params => Forall (λ x, PrimFloat.eqb x x = true) params
  | HermitianObsGPU matrix _ => Forall (λ z, complex_eqb z z = true) matrix
  | TensorProdObsGPU obs _ =>
      (fix all (l : list ObservableGPU) : Prop :=
         match l with
         | [] => True
         | x :: l' => nan_free x ∧ all l'
         end) obs
  | HamiltonianGPU coeffs obs =>
      Forall (λ x, PrimFloat.eqb x x = true) coeffs
      ∧ (fix all (l : list ObservableGPU) : Prop :=
           match l with
           | [] => True
           | x :: l' => nan_free x ∧ all l'
           end) obs
  end.

(** When [SFeqb] holds: both are zeros, or both are the same infinity, or
    both are the same finite value. *)
Definition sf_same (x y : spec_float) : Prop :=
  match x, y with
  | S754_zero _, S754_zero _ => True
  | S754_infinity s1, S754_infinity s2 => s1 = s2
  | S754_finite s1 m1 e1, S754_finite s2 m2 e2 => s1 = s2 ∧ m1 = m2 ∧ e1 = e2
  | _, _ => False
  end.


(** The host map after the assignments of [defaultPopulateCache]. *)
Definition default_host (u : GateCache.cuUtil)
    (host : list (GateCache.gate_id * list GateCache.CFP_t))
    : list (GateCache.gate_id * list GateCache.CFP_t) :=
  foldl (λ host '(name, v), umap_assign GateCache.gate_id_eqb [] (name, 0%float) v host)
    host (GateCache.default_host_gates u).


(** An instance of the constants of [cuUtil] at double precision, to run
    [defaultPopulateCache] on. *)
Definition cuUtil_double : GateCache.cuUtil :=
  GateCache.mkCuUtil (1%float, 0%float) (0%float, 0%float) (0%float, 1%float)
    ((1 / sqrt 2)%float, 0%float) (sqrt 2)
    (λ z, ((- z.1)%float, (- z.2)%float))
    (λ a z, ((a * z.1)%float, (a * z.2)%float))
    (λ z w, ((z.1 + w.1)%float, (z.2 + w.2)%float)).

(** The loop of the [isEqual] overrides of the tensor product and of the
    Hamiltonian, for a given comparison [eq] of the members. *)
Fixpoint isEqual_loop (eq : ObservableGPU → ObservableGPU → bool)
    (l1 l2 : list ObservableGPU) : bool :=
  match l1, l2 with
  | [], _ => true
  | x :: l1', y :: l2' => if negb (eq x y) then false else isEqual_loop eq l1' l2'
  | _ :: _, [] => false
  end.

(** The names whose generator reads [wires.back()]. *)
Definition controlled_generators : list string :=
  ["CRX"; "CRY"; "CRZ"; "ControlledPhaseShift"]%string.

(** The operations the reverse loop does not skip: every operation but the
    state-preparation sentinels. *)
Definition not_state_prep (op : OpData) : bool := negb (is_state_prep (op_name op)).

(** The failures of the unchecked accesses of the engine. *)
Definition back_of_empty : failure := UndefinedBehaviour "back() of an empty vector".
Definition write_past_jac : failure := UndefinedBehaviour "write past the end of jac".

(** ** Relating the sweep over a list of observables to the sweeps over
    its parts *)

Section Rows.
Context {B : Backend}.

(** The loop variables of the sweep over [obs1 ++ obs2] against those of
    the sweeps over [obs1] and over [obs2]: the bra states and the rows of
    the buffer are those of the first followed by those of the second,
    everything else is shared. *)
Definition rows_related (s s1 s2 : Sweep B) : Prop :=
  lambda s = lambda s1 ∧ lambda s = lambda s2
  ∧ mu s = mu s1 ∧ mu s = mu s2
  ∧ H_lambda s = H_lambda s1 ++ H_lambda s2
  ∧ jac s = jac s1 ++ jac s2
  ∧ trainableParamNumber s = trainableParamNumber s1
  ∧ trainableParamNumber s = trainableParamNumber s2
  ∧ current_param_idx s = current_param_idx s1
  ∧ current_param_idx s = current_param_idx s2
  ∧ tp_it s = tp_it s1 ∧ tp_it s = tp_it s2.

Definition steps_related (t t1 t2 : Step B) : Prop :=
  match t, t1, t2 with
  | Continue s, Continue s1, Continue s2 => rows_related s s1 s2
  | Break, Break, Break => True
  | Abort s e, Abort s1 e1, Abort s2 e2 =>
      e = e1 ∧ e = e2 ∧ jac s = jac s1 ++ jac s2
  | _, _, _ => False
  end.
End Rows.

(** ** Tapes on which the sweep runs to its end *)

(** An operation whose generator can be applied: its name is registered,
    and it has a wire when the generator reads the last one. *)
Definition supported (op : OpData) : Prop :=
  is_Some (generator_map !! op_name op)
  ∧ (op_name op ∈ controlled_generators → op_wires op ≠ []).

(** The operations the sweep differentiates: those whose position among
    the parametric operations of the tape is listed in [tps]. *)
Definition trained_supported (ops : OpsData) (tps : list N) : Prop :=
  ∀ pre o post t,
    ops = pre ++ o :: post → hasParams o = true → t ∈ tps →
    Z.of_N t = getNumParOps pre → supported o.

(** No operation has more than one parameter, and the state-preparation
    sentinels have none. *)
Definition well_formed_tape (ops : OpsData) : Prop :=
  Forall (λ o, (length (op_params o) ≤ 1)%nat
               ∧ (is_state_prep (op_name o) = true → op_params o = [])) ops.

Section Cursor.
Context {B : Backend}.

(** What holds of the trainable cursor when the operations [rem] are left
    to visit: it holds, in descending order, the trainable positions that
    lie among the parametric operations of [rem]. *)
Record cursor_inv (tp_size : Z) (rem : OpsData) (s : Sweep B) : Prop :=
  { cur_cpi : current_param_idx s = wrap64 (getNumParOps rem - 1);
    cur_bound : Forall (λ t, Z.of_N t ≤ getNumParOps rem - 1) (tp_it s);
    cur_sorted : StronglySorted (λ a b, (b < a)%N) (tp_it s);
    cur_len : Z.of_nat (length (tp_it s)) ≤ tp_size;
    cur_supported : trained_supported rem (tp_it s);
    cur_tape : well_formed_tape rem;
    cur_size : Z.of_nat (length rem) < 2 ^ 63 }.

(** The entries of the columns from [length (tp_it s)] on are the same in
    [s'] as in [s]. *)
Definition columns_kept (n_obs : nat) (tp_size : Z) (s s' : Sweep B) : Prop :=
  ∀ i j, 0 ≤ i < Z.of_nat n_obs → Z.of_nat (length (tp_it s)) ≤ j < tp_size →
         jac s' !! Z.to_nat (i * tp_size + j) = jac s !! Z.to_nat (i * tp_size + j).

(** The trainable positions still pending once the operations [rem] are
    left. *)
Definition pending (rem : OpsData) (tps : list N) : list N :=
  List.filter (λ t, Z.of_N t <=? getNumParOps rem - 1) tps.
End Cursor.

(** ** Relating sweeps on different devices *)

Section SameData.
Context {B : Backend}.

(** Two sets of loop variables that hold the same amplitudes and the same
    numbers, wherever the amplitudes live. *)
Definition same_data (s s' : Sweep B) : Prop :=
  getData (lambda s) = getData (lambda s')
  ∧ map getData (H_lambda s) = map getData (H_lambda s')
  ∧ getData (mu s) = getData (mu s')
  ∧ jac s = jac s'
  ∧ trainableParamNumber s = trainableParamNumber s'
  ∧ current_param_idx s = current_param_idx s'
  ∧ tp_it s = tp_it s'.

Definition steps_same_data (t t' : Step B) : Prop :=
  match t, t' with
  | Continue s, Continue s' => same_data s s'
  | Break, Break => True
  | Abort s e, Abort s' e' => e = e' ∧ jac s = jac s'
  | _, _ => False
  end.

(** The outcomes of a generator on two states. *)
Definition generators_same_data (r r' : result (StateVectorCudaManaged B * float))
    : Prop :=
  match r, r' with
  | Ok (m, c), Ok (m', c') => getData m = getData m' ∧ c = c'
  | Err e, Err e' => e = e'
  | _, _ => False
  end.
End SameData.

(** ** The shards of the batch *)

(** The first observable of the shard [i] among [k], for [n] observables
    that a [double] counts exactly. *)
Definition shard_start (n i k : Z) : Z := n * i / k.

(** The observables of the shard [i], and those from the shard [i] on. *)
Definition shard_obs {A : Type} (obs : list A) (i k : Z) : list A :=
  take (Z.to_nat (shard_start (Z.of_nat (length obs)) (i + 1) k
                  - shard_start (Z.of_nat (length obs)) i k))
    (drop (Z.to_nat (shard_start (Z.of_nat (length obs)) i k)) obs).

Definition obs_from {A : Type} (obs : list A) (i k : Z) : list A :=
  drop (Z.to_nat (shard_start (Z.of_nat (length obs)) i k)) obs.

(** The sweep for one trainable parameter over the observables [part], on a
    zero-filled buffer of one entry per observable. *)
Definition sweep_of {B : Backend} (ref_data : Amp B) (ops : OpsData) (t : N)
    (apply_operations : bool) (part : list ObservableGPU)
    : list float * option failure :=
  adjointJacobian ref_data (replicate (length part) 0%float) part ops [t]
    apply_operations (mkDevTag 0 0).

(** ** Values that compare equal *)

(** The two zeros of the floating-point format. *)
Definition is_zero_value (x : float) : Prop := x = 0%float ∨ x = (-0)%float.

(** Two floating-point values that hold the same number: the same value
    other than NaN, or two zeros of either sign. *)
Definition same_number (x y : float) : Prop :=
  (x = y ∧ x ≠ nan) ∨ (is_zero_value x ∧ is_zero_value y).

(** * Comparison of floating-point values *)

Lemma SFeqb_same (x y : spec_float) : SFeqb x y = true ↔ sf_same x y.
Proof.
  unfold SFeqb. destruct x as [sx|sx| |sx mx ex], y as [sy|sy| |sy my ey]; simpl;
    try (by destruct sx); try (by destruct sy); try done.
  - destruct sx, sy; simpl; split; done.
  - destruct sx, sy; simpl; try (split; [done | by intros [? _]]).
    + destruct (Z.compare_spec ex ey) as [->| |]; simpl; try (split; [done | lia]).
      rewrite Pos.compare_cont_spec. simpl.
      destruct (Pos.compare_spec mx my) as [->| |]; simpl; split; try done;
        intros (_ & ? & _); lia.
    + destruct (Z.compare_spec ex ey) as [->| |]; simpl; try (split; [done | lia]).
      rewrite Pos.compare_cont_spec. simpl.
      destruct (Pos.compare_spec mx my) as [->| |]; simpl; split; try done;
        intros (_ & ? & _); lia.
Qed.

Lemma sf_same_sym (x y : spec_float) : sf_same x y → sf_same y x.
Proof. destruct x, y; simpl; naive_solver. Qed.

Lemma sf_same_trans (x y z : spec_float) : sf_same x y → sf_same y z → sf_same x z.
Proof. destruct x, y, z; simpl; naive_solver. Qed.

Lemma float_eqb_sym (x y : float) : PrimFloat.eqb x y = PrimFloat.eqb y x.
Proof.
  rewrite !FloatAxioms.eqb_spec. apply eq_true_iff_eq.
  rewrite !SFeqb_same. split; apply sf_same_sym.
Qed.

Lemma float_eqb_trans (x y z : float) :
  PrimFloat.eqb x y = true → PrimFloat.eqb y z = true → PrimFloat.eqb x z = true.
Proof.
  rewrite !FloatAxioms.eqb_spec, !SFeqb_same. apply sf_same_trans.
Qed.

Lemma float_eqb_refl_l (x y : float) :
  PrimFloat.eqb x y = true → PrimFloat.eqb x x = true.
Proof.
  intros H. apply (float_eqb_trans x y x); [done |]. by rewrite float_eqb_sym.
Qed.

Lemma float_nan_spec (x : float) : x = nan ↔ Prim2SF x = S754_nan.
Proof.
  split; [by intros -> |]. intros H. by apply FloatAxioms.Prim2SF_inj.
Qed.

Lemma float_zero_spec (x : float) : is_zero_value x ↔ ∃ s, Prim2SF x = S754_zero s.
Proof.
  split.
  - intros [-> | ->]; by eexists.
  - intros [s Hs]. rewrite <- (FloatAxioms.SF2Prim_Prim2SF x), Hs.
    destruct s; [by right | by left].
Qed.

(** [==] on floating-point values holds of the same value other than NaN
    and of two zeros, and of nothing else. *)
Lemma float_eqb_same_number (x y : float) :
  PrimFloat.eqb x y = true ↔ same_number x y.
Proof.
  rewrite FloatAxioms.eqb_spec, SFeqb_same. unfold same_number.
  rewrite !float_zero_spec, float_nan_spec. split.
  - destruct (Prim2SF x) as [sx|sx| |sx mx ex] eqn:Ex,
      (Prim2SF y) as [sy|sy| |sy my ey] eqn:Ey; simpl; try done.
    + intros _. right. split; by eexists.
    + intros ->. left. split; [| done].
      apply FloatAxioms.Prim2SF_inj. by rewrite Ex, Ey.
    + intros (-> & -> & ->). left. split; [| done].
      apply FloatAxioms.Prim2SF_inj. by rewrite Ex, Ey.
  - intros [[-> Hnan] | [[sx Hx] [sy Hy]]].
    + by destruct (Prim2SF y).
    + by rewrite Hx, Hy.
Qed.

Lemma vec_eqb_same_number (p1 p2 : list float) :
  vec_eqb PrimFloat.eqb p1 p2 = true ↔ Forall2 same_number p1 p2.
Proof.
  revert p2. induction p1 as [|x p1 IH]; intros [|y p2]; simpl.
  - split; [constructor | done].
  - split; [done | intros H; inversion H].
  - split; [done | intros H; inversion H].
  - rewrite andb_true_iff, float_eqb_same_number, IH, Forall2_cons. done.
Qed.

Lemma zero_ne_neg_zero : 0%float ≠ (-0)%float.
Proof.
  intros H. apply (f_equal PrimFloat.classify) in H. vm_compute in H. discriminate.
Qed.

(** On lists without NaN and without zero, to hold the same numbers is to
    be equal. *)
Lemma same_number_exact (p1 p2 : list float) :
  Forall (λ x, x ≠ nan ∧ ¬ is_zero_value x) p1 →
  Forall2 same_number p1 p2 ↔ p1 = p2.
Proof.
  intros Hp. split.
  - intros H. induction H as [|x y p1 p2 Hxy _ IH]; [done |].
    apply Forall_cons in Hp as [[Hnan Hz] Hp].
    destruct Hxy as [[-> _] | [Hx _]]; [| done]. f_equal. by apply IH.
  - intros <-. induction Hp as [|x p1 [Hnan _] _ IH]; constructor; [| done].
    by left.
Qed.


(** * Properties of the containers *)

Section unordered_map_facts.
Context {K V : Type} (keq : K → K → bool) (dflt : V).

Lemma umap_find_modify (k : K) (f : V → V) (m : list (K * V)) :
  keq k k = true →
  umap_find keq k (umap_modify keq dflt k f m)
  = Some (f (default dflt (umap_find keq k m))).
Proof.
  intros Hk. induction m as [|[k' v] m IH]; simpl.
  - by rewrite Hk.
  - destruct (keq k' k) eqn:E; simpl; rewrite E; [done | apply IH].
Qed.

Lemma umap_find_Some (k : K) (v : V) (m : list (K * V)) :
  umap_find keq k m = Some v → ∃ k', (k', v) ∈ m ∧ keq k' k = true.
Proof.
  induction m as [|[k' v'] m IH]; simpl; [done |].
  destruct (keq k' k) eqn:E.
  - intros [= ->]. exists k'. split; [left | done].
  - intros H. destruct (IH H) as (k1 & Hin & Hk1).
    exists k1. split; [by right | done].
Qed.

Lemma umap_find_None (k : K) (m : list (K * V)) :
  umap_find keq k m = None → ∀ k' v, (k', v) ∈ m → keq k' k = false.
Proof.
  induction m as [|[k1 v1] m IH]; simpl; intros H k' v Hin.
  - by apply elem_of_nil in Hin.
  - destruct (keq k1 k) eqn:E; [done |].
    apply elem_of_cons in Hin as [[= -> ->] | Hin]; [done | by eapply IH].
Qed.
End unordered_map_facts.

(** * Properties of the gate cache *)

Lemma key_present_find {V : Type} (k : GateCache.gate_id)
    (m : list (GateCache.gate_id * V)) :
  is_Some (umap_find GateCache.gate_id_eqb k m) ↔ GateCache.key_present k m.
Proof.
  split.
  - intros [v Hv]. apply umap_find_Some in Hv as (k' & Hin & Hk). by exists k', v.
  - intros (k' & v & Hin & Hk).
    destruct (umap_find GateCache.gate_id_eqb k m) eqn:E; [done |].
    by rewrite (umap_find_None _ _ _ E _ _ Hin) in Hk.
Qed.

Lemma gate_id_eqb_refl (name : string) (param : float) :
  PrimFloat.eqb param param = true →
  GateCache.gate_id_eqb (name, param) (name, param) = true.
Proof. intros H. unfold GateCache.gate_id_eqb. simpl. by rewrite String.eqb_refl, H. Qed.

Lemma gateExists_present (name : string) (param : float) (c : GateCache.t) :
  GateCache.gateExists name param c = true
  ↔ GateCache.key_present (name, param) (GateCache.host_gates_ c)
    ∧ GateCache.key_present (name, param) (GateCache.device_gates_ c).
Proof.
  unfold GateCache.gateExists. rewrite andb_true_iff, !bool_decide_eq_true.
  by rewrite !key_present_find.
Qed.

(** C10, as amended. For every cache, gate name and host matrix, and for
    every parameter value that compares equal to itself (every value but
    NaN): after [add_gate(name, param, matrix)], [gateExists(name, param)]
    is true and [get_gate_host(name, param)] returns the matrix that was
    inserted. On every cache, [gateExists] is true exactly for the keys that
    are present in the host-side map and in the device-side map. *)
Theorem add_gate_then_lookup (c : GateCache.t) (name : string) (param : float)
    (matrix : list GateCache.CFP_t) :
  PrimFloat.eqb param param = true →
  GateCache.gateExists name param (GateCache.add_gate name param matrix c) = true
  ∧ (GateCache.get_gate_host name param (GateCache.add_gate name param matrix c)).2
    = matrix
  ∧ ∀ (c0 : GateCache.t) (n : string) (p : float),
      GateCache.gateExists n p c0 = true
      ↔ GateCache.key_present (n, p) (GateCache.host_gates_ c0)
        ∧ GateCache.key_present (n, p) (GateCache.device_gates_ c0).
Proof.
  intros Hp.
  pose proof (gate_id_eqb_refl name _ Hp) as Hk.
  split; [| split; [| intros; apply gateExists_present]].
  - unfold GateCache.gateExists, GateCache.add_gate, umap_subscript, umap_assign.
    simpl. by rewrite !umap_find_modify.
  - unfold GateCache.get_gate_host, GateCache.add_gate, umap_subscript, umap_assign.
    simpl. by rewrite !umap_find_modify.
Qed.

Lemma add_gate_then_lookup_witness :
  GateCache.gateExists "RX" 0.5
    (GateCache.add_gate "RX" 0.5 [(1, 0)%float] (GateCache.empty Examples.dev0))
  = true
  ∧ (GateCache.get_gate_host "RX" 0.5
       (GateCache.add_gate "RX" 0.5 [(1, 0)%float] (GateCache.empty Examples.dev0))).2
    = [(1, 0)%float].
Proof.
  destruct (add_gate_then_lookup (GateCache.empty Examples.dev0) "RX" 0.5
              [(1, 0)%float] eq_refl) as (H1 & H2 & _).
  exact (conj H1 H2).
Defined.

(** C10, as stated, fails for the parameter value NaN: the key never
    compares equal to itself, so each subscript creates a further entry, no
    lookup finds any of them, and [get_gate_host] returns an empty matrix. *)
Lemma add_gate_nan_not_found :
  GateCache.gateExists "RX" nan
    (GateCache.add_gate "RX" nan [(1, 0)%float] (GateCache.empty Examples.dev0))
  = false
  ∧ (GateCache.get_gate_host "RX" nan
       (GateCache.add_gate "RX" nan [(1, 0)%float] (GateCache.empty Examples.dev0))).2
    = []
  ∧ ¬ (∀ (c : GateCache.t) (name : string) (param : float)
         (matrix : list GateCache.CFP_t),
         GateCache.gateExists name param (GateCache.add_gate name param matrix c)
         = true).
Proof.
  split; [reflexivity |]. split; [reflexivity |].
  intros H.
  specialize (H (GateCache.empty Examples.dev0) "RX"%string nan [(1, 0)%float]).
  vm_compute in H. discriminate H.
Qed.

(** * Properties of the observables *)

Lemma vec_eqb_N (l1 l2 : list N) : vec_eqb N.eqb l1 l2 = true ↔ l1 = l2.
Proof.
  revert l2. induction l1 as [|x l1 IH]; intros [|y l2]; simpl; try done.
  rewrite andb_true_iff, N.eqb_eq, IH. naive_solver.
Qed.

Lemma vec_eqb_refl {A : Type} (eqb : A → A → bool) (l : list A) :
  Forall (λ x, eqb x x = true) l → vec_eqb eqb l l = true.
Proof. induction 1 as [|x l Hx _ IH]; simpl; [done | by rewrite Hx, IH]. Qed.

Lemma operator_eq_typeid (a b : ObservableGPU) :
  operator_eq a b = true → typeid a = typeid b.
Proof.
  destruct a, b; simpl; try done; rewrite ?andb_false_r; done.
Qed.

Lemma check_ob_wires_app (l1 l2 : list N) (wires : gset N) :
  check_ob_wires (l1 ++ l2) wires
  = (check_ob_wires l1 wires ≫= check_ob_wires l2).
Proof.
  revert wires. induction l1 as [|w l1 IH]; intros wires; simpl; [done |].
  case_bool_decide; [done | apply IH].
Qed.

Lemma check_obs_wires_concat (obs : list ObservableGPU) (wires : gset N) :
  check_obs_wires obs wires = check_ob_wires (concat (map getWires obs)) wires.
Proof.
  revert wires. induction obs as [|ob obs IH]; intros wires; simpl; [done |].
  rewrite check_ob_wires_app.
  destruct (check_ob_wires (getWires ob) wires); simpl; [apply IH | done].
Qed.

Lemma check_ob_wires_Ok (l : list N) (wires : gset N) :
  NoDup l → (∀ w, w ∈ l → w ∉ wires) →
  check_ob_wires l wires = Ok (list_to_set l ∪ wires).
Proof.
  intros Hnd. revert wires.
  induction Hnd as [|w l Hw Hnd IH]; intros wires Hfresh; simpl.
  - f_equal. set_solver.
  - rewrite bool_decide_eq_false_2 by (apply Hfresh; set_solver).
    rewrite IH; [f_equal; set_solver |].
    intros w' Hw'. specialize (Hfresh w'). set_solver.
Qed.

Lemma check_ob_wires_Err (l : list N) (wires : gset N) :
  ¬ (NoDup l ∧ ∀ w, w ∈ l → w ∉ wires) →
  check_ob_wires l wires = Err (LightningException disjoint_msg).
Proof.
  revert wires. induction l as [|w l IH]; intros wires Hbad; simpl.
  - destruct Hbad. split; [constructor | set_solver].
  - case_bool_decide as Hw; [done |].
    apply IH. intros [Hnd Hfresh]. apply Hbad. split.
    + constructor; [| done]. intros Hin. apply (Hfresh w Hin). set_solver.
    + intros w' [-> | Hin]%elem_of_cons; [done |].
      specialize (Hfresh w' Hin). set_solver.
Qed.

Lemma sort_wires_sorted (l : list N) :
  NoDup l → StronglySorted N.lt (sort_wires l).
Proof.
  intros Hnd.
  assert (Hs : StronglySorted N.le (sort_wires l)).
  { apply StronglySorted_merge_sort; [apply _ | intros x y; lia]. }
  assert (Hnd' : NoDup (sort_wires l)).
  { unfold sort_wires. by rewrite merge_sort_Permutation. }
  induction Hs as [|x l' Hs IH Hall]; [constructor |].
  apply NoDup_cons in Hnd' as [Hx Hnd'].
  constructor; [by apply IH |].
  rewrite Forall_forall in Hall |- *. intros y Hy.
  specialize (Hall y Hy).
  assert (x ≠ y) by (intros ->; done). lia.
Qed.

Lemma elem_of_sort_wires (w : N) (l : list N) : w ∈ sort_wires l ↔ w ∈ l.
Proof. unfold sort_wires. by rewrite merge_sort_Permutation. Qed.

(** C7, as amended. Construction of a tensor product fails, with the
    failure raised by [PL_ABORT], if and only if some wire occurs twice in
    the wire lists of the members taken together (two members share it, or
    one member lists it twice). When no wire is repeated, construction
    succeeds and [getWires()] returns the union of the members' wires in
    strictly ascending order. *)
Theorem TensorProd_construction (obs : list ObservableGPU) :
  (TensorProdObsGPU_new obs = Err (LightningException disjoint_msg)
   ↔ ¬ NoDup (concat (map getWires obs)))
  ∧ (is_Err (TensorProdObsGPU_new obs) ↔ ¬ NoDup (concat (map getWires obs)))
  ∧ (NoDup (concat (map getWires obs)) →
     ∃ tp, TensorProdObsGPU_new obs = Ok tp
           ∧ StronglySorted N.lt (getWires tp)
           ∧ ∀ w, w ∈ getWires tp ↔ ∃ ob, ob ∈ obs ∧ w ∈ getWires ob).
Proof.
  assert (Hok : NoDup (concat (map getWires obs)) →
     ∃ tp, TensorProdObsGPU_new obs = Ok tp
           ∧ StronglySorted N.lt (getWires tp)
           ∧ ∀ w, w ∈ getWires tp ↔ ∃ ob, ob ∈ obs ∧ w ∈ getWires ob).
  { intros Hnd. unfold TensorProdObsGPU_new.
    rewrite check_obs_wires_concat, check_ob_wires_Ok by set_solver.
    simpl. eexists. split; [done |]. simpl. split.
    - apply sort_wires_sorted, NoDup_elements.
    - intros w. rewrite elem_of_sort_wires, elem_of_elements.
      rewrite elem_of_union, elem_of_list_to_set.
      rewrite list_elem_of_In, in_concat. setoid_rewrite in_map_iff.
      split.
      + intros [(l & (ob & <- & Hob) & Hw) | ?]; [| set_solver].
        exists ob. by rewrite !list_elem_of_In.
      + intros (ob & Hob & Hw). left. exists (getWires ob).
        split; [exists ob; split; [done |] |]; by apply list_elem_of_In. }
  assert (Herr : ¬ NoDup (concat (map getWires obs)) →
     TensorProdObsGPU_new obs = Err (LightningException disjoint_msg)).
  { intros Hd. unfold TensorProdObsGPU_new.
    rewrite check_obs_wires_concat, check_ob_wires_Err; [done | tauto]. }
  split; [| split]; [| | done].
  - split; [| done]. intros He Hnd. destruct (Hok Hnd) as (tp & Htp & _). congruence.
  - split.
    + intros [e He] Hnd. destruct (Hok Hnd) as (tp & Htp & _). congruence.
    + intros Hd. eexists. by apply Herr.
Qed.

Lemma TensorProd_construction_witness :
  ∃ tp,
    TensorProdObsGPU_new [NamedObsGPU "PauliX" [3; 0]%N []; Examples.PauliZ_obs 2]
    = Ok tp
    ∧ getWires tp = [0; 2; 3]%N.
Proof.
  destruct (proj2 (proj2 (TensorProd_construction
              [NamedObsGPU "PauliX" [3; 0]%N []; Examples.PauliZ_obs 2])))
    as (tp & Htp & _).
  { apply (bool_decide_unpack _). vm_compute. exact I. }
  exists tp. split; [exact Htp |].
  vm_compute in Htp. injection Htp as <-. reflexivity.
Defined.

(** C7, as stated, fails for a single member that lists a wire twice:
    construction fails although no two members share a wire. *)
Lemma TensorProd_repeated_wire_in_one_member :
  TensorProdObsGPU_new [Examples.PauliZ_00] = Err (LightningException disjoint_msg)
  ∧ ¬ (∃ (i j : nat) (a b : ObservableGPU) (w : N),
         i ≠ j
         ∧ [Examples.PauliZ_00] !! i = Some a
         ∧ [Examples.PauliZ_00] !! j = Some b
         ∧ w ∈ getWires a ∧ w ∈ getWires b).
Proof.
  split; [reflexivity |].
  intros (i & j & a & b & w & Hij & Ha & Hb & _).
  destruct i as [|i]; destruct j as [|j]; simpl in Ha, Hb; done.
Qed.

(** C8, as amended. Two Named observables compare equal with [operator==]
    if and only if their names are equal, their wire lists are equal, and
    their parameter lists have the same length and hold the same numbers
    position by position: the same value other than NaN, or two zeros of
    either sign. So a NaN parameter matches nothing, itself included, and
    0.0 matches -0.0. On parameter lists without NaN and without zero the
    observables compare equal exactly when the three fields are equal, and
    a Named observable without NaN parameter equals itself. Two observables
    of different concrete variants never compare equal. *)
Theorem observable_equality :
  (∀ n1 w1 p1 n2 w2 p2,
     operator_eq (NamedObsGPU n1 w1 p1) (NamedObsGPU n2 w2 p2) = true
     ↔ n1 = n2 ∧ w1 = w2 ∧ Forall2 same_number p1 p2)
  ∧ (∀ n1 w1 p1 n2 w2 p2,
       Forall (λ x, x ≠ nan ∧ ¬ is_zero_value x) p1 →
       operator_eq (NamedObsGPU n1 w1 p1) (NamedObsGPU n2 w2 p2) = true
       ↔ n1 = n2 ∧ w1 = w2 ∧ p1 = p2)
  ∧ (∀ n w p,
       Forall (λ x, x ≠ nan) p →
       operator_eq (NamedObsGPU n w p) (NamedObsGPU n w p) = true)
  ∧ (∀ a b, typeid a ≠ typeid b → operator_eq a b = false).
Proof.
  assert (H1 : ∀ n1 w1 p1 n2 w2 p2,
     operator_eq (NamedObsGPU n1 w1 p1) (NamedObsGPU n2 w2 p2) = true
     ↔ n1 = n2 ∧ w1 = w2 ∧ Forall2 same_number p1 p2).
  { intros. simpl.
    rewrite !andb_true_iff, String.eqb_eq, vec_eqb_N, vec_eqb_same_number. tauto. }
  split; [done | split; [| split]].
  - intros n1 w1 p1 n2 w2 p2 Hp. by rewrite H1, (same_number_exact p1 p2 Hp).
  - intros n w p Hp. apply H1. split; [done |]. split; [done |].
    induction Hp as [|x p Hx _ IH]; constructor; [by left | done].
  - intros a b Hne. destruct (operator_eq a b) eqn:E; [| done].
    by apply operator_eq_typeid in E.
Qed.

Lemma observable_equality_witness :
  operator_eq (Examples.PauliZ_obs 0) (Examples.HermitianZ_obs 0) = false
  ∧ operator_eq (NamedObsGPU "RX" [0%N] [0.5%float]) (NamedObsGPU "RX" [0%N] [0.5%float])
    = true
  ∧ operator_eq (NamedObsGPU "RX" [0%N] [0.5%float]) (NamedObsGPU "RX" [0%N] [0.25%float])
    = false.
Proof.
  assert (Hhalf : Forall (λ x, x ≠ nan ∧ ¬ is_zero_value x) [0.5%float]).
  { repeat constructor; [done | intros [H | H]; discriminate H]. }
  split; [| split].
  - apply (proj2 (proj2 (proj2 observable_equality))). discriminate.
  - apply (proj1 (proj2 (proj2 observable_equality))). repeat constructor. done.
  - destruct (operator_eq (NamedObsGPU "RX" [0%N] [0.5%float])
                (NamedObsGPU "RX" [0%N] [0.25%float])) eqn:E; [| done].
    apply (proj1 (proj2 observable_equality) _ _ _ _ _ _ Hhalf) in E.
    destruct E as (_ & _ & E). discriminate E.
Defined.

(** C8, against the claim as it was stated. Parameter lists that match
    exactly need not compare equal, and lists that compare equal need not
    match exactly: a Named observable with a NaN parameter does not equal
    itself, and a parameter 0.0 equals a parameter -0.0. *)
Lemma observable_equality_not_exact :
  operator_eq (NamedObsGPU "RX" [0%N] [nan]) (NamedObsGPU "RX" [0%N] [nan]) = false
  ∧ operator_eq (NamedObsGPU "RX" [0%N] [0%float]) (NamedObsGPU "RX" [0%N] [(-0)%float])
    = true
  ∧ [0%float] ≠ [(-0)%float].
Proof.
  split; [reflexivity | split; [reflexivity |]].
  intros H. apply zero_ne_neg_zero. congruence.
Qed.


(** * Properties of the sweep *)

Section SweepFacts.
Context {B : Backend}.

Lemma wrap64_small (z : Z) : 0 ≤ z < 2 ^ 64 → wrap64 z = z.
Proof. intros. unfold wrap64. by apply Z.mod_small. Qed.

Lemma call_generator_DevTag (g : GeneratorFunc) (sv sv' : StateVectorCudaManaged B)
    (wires : list N) (adj : bool) :
  call_generator g sv wires adj = Ok sv' → getDevTag sv' = getDevTag sv.
Proof.
  destruct g; simpl; try (by intros [= <-]);
    destruct (wires_back wires); simpl; by intros [= <-].
Qed.

Lemma updateJacobian_in_range (sv1 sv2 : StateVectorCudaManaged B)
    (jac : list float) (c : float) (i p tp_size : Z) :
  getDeviceID (getDevTag sv1) = getDeviceID (getDevTag sv2) →
  0 ≤ i → 0 ≤ p < tp_size →
  i * tp_size + p < Z.of_nat (length jac) → Z.of_nat (length jac) < 2 ^ 64 →
  updateJacobian sv1 sv2 jac c i p tp_size
  = Ok (<[Z.to_nat (i * tp_size + p) := jac_entry sv1 sv2 c]> jac).
Proof.
  intros Hdev Hi Hp Hlt Hlen. unfold updateJacobian.
  rewrite Hdev, Z.eqb_refl. simpl.
  assert (0 ≤ i * tp_size) by nia.
  rewrite (wrap64_small (i * tp_size)) by lia.
  rewrite wrap64_small by lia.
  by rewrite (proj2 (Z.ltb_lt _ _) Hlt).
Qed.

(** The loop over the observables fills the column [p] of the rows from
    [k] on, one entry per state, and leaves every other entry alone. *)
Lemma updateJacobian_all_spec (states : list (StateVectorCudaManaged B)) :
  ∀ (k : Z) (jac : list float) (mu : StateVectorCudaManaged B) (c : float)
    (p tp_size : Z),
    Forall (λ h, getDeviceID (getDevTag h) = getDeviceID (getDevTag mu)) states →
    0 ≤ k → 0 ≤ p < tp_size →
    (k + Z.of_nat (length states)) * tp_size ≤ Z.of_nat (length jac) →
    Z.of_nat (length jac) < 2 ^ 64 →
    ∃ jac',
      updateJacobian_all states k mu jac c p tp_size = (jac', None)
      ∧ length jac' = length jac
      ∧ (∀ (i : nat) h, states !! i = Some h →
           jac' !! Z.to_nat ((k + Z.of_nat i) * tp_size + p)
           = Some (jac_entry h mu c))
      ∧ (∀ j : nat,
           (∀ i : nat, (i < length states)%nat →
                       j ≠ Z.to_nat ((k + Z.of_nat i) * tp_size + p)) →
           jac' !! j = jac !! j).
Proof.
  induction states as [|h rest IH]; intros k jac mu c p tp_size Hdev Hk Hp Hsz Hlen.
  - exists jac. simpl. by repeat split.
  - simpl in Hsz |- *.
    assert (Hk0 : 0 ≤ k * tp_size) by nia.
    assert (Hr0 : 0 ≤ Z.of_nat (length rest) * tp_size) by nia.
    assert (Hidx : k * tp_size + p < Z.of_nat (length jac)) by lia.
    apply Forall_cons in Hdev as [Hh Hdev].
    rewrite updateJacobian_in_range by done.
    set (jac1 := <[Z.to_nat (k * tp_size + p):=jac_entry h mu c]> jac).
    assert (Hlen1 : length jac1 = length jac) by apply length_insert.
    destruct (IH (k + 1) jac1 mu c p tp_size) as (jac' & Hrun & Hl & Hnew & Hold);
      [done | lia | done | rewrite Hlen1; lia | by rewrite Hlen1 |].
    exists jac'. rewrite Hrun. split; [done |]. split; [congruence |]. split.
    + intros [|i] h' Hi; simpl in Hi.
      * injection Hi as <-. rewrite Z.add_0_r. rewrite Hold.
        -- apply list_lookup_insert_eq. lia.
        -- intros i _.
           assert (0 ≤ Z.of_nat i * tp_size) by nia. lia.
      * replace (k + Z.of_nat (S i)) with (k + 1 + Z.of_nat i) by lia.
        by apply Hnew.
    + intros j Hj. rewrite Hold.
      * apply list_lookup_insert_ne. specialize (Hj 0%nat). simpl in Hj.
        rewrite Z.add_0_r in Hj. intros Heq. apply Hj; [lia | done].
      * intros i Hi. specialize (Hj (S i)).
        replace (k + Z.of_nat (S i)) with (k + 1 + Z.of_nat i) in Hj by lia.
        apply Hj. simpl. lia.
Qed.

Lemma hasParams_one (op : OpData) : length (op_params op) = 1%nat → hasParams op = true.
Proof. unfold hasParams. by destruct (op_params op). Qed.

Lemma hasParams_none (op : OpData) : op_params op = [] → hasParams op = false.
Proof. unfold hasParams. by intros ->. Qed.

(** Once the trainable cursor is exhausted the loop changes nothing. *)
Lemma sweep_loop_exhausted (tp_size : Z) (walk : list OpData) (s : Sweep B) :
  tp_it s = [] → (sweep_loop tp_size walk s).1 = s.
Proof.
  intros Hs. induction walk as [|op walk IH]; simpl; [done |].
  unfold sweep_step. case_bool_decide; [done |].
  destruct (is_state_prep (op_name op)); [done |]. by rewrite Hs.
Qed.

Lemma sweep_loop_app_exhausted (tp_size : Z) (walk1 walk2 : list OpData)
    (s s1 : Sweep B) :
  sweep_loop tp_size walk1 s = (s1, None) → tp_it s1 = [] →
  (sweep_loop tp_size (walk1 ++ walk2) s).1 = s1.
Proof.
  revert s. induction walk1 as [|op walk1 IH]; intros s; simpl.
  - intros [= ->] Hs1. by apply sweep_loop_exhausted.
  - destruct (sweep_step tp_size op s) as [s'| |s' e] eqn:E.
    + apply IH.
    + by intros [= ->] _.
    + done.
Qed.

(** Parameterless operations neither write to the Jacobian nor move the
    trainable cursor. *)
Lemma sweep_loop_parameterless (tp_size : Z) (walk rest : list OpData) (s : Sweep B) :
  Forall (λ op, op_params op = []) walk → tp_it s ≠ [] →
  ∃ s', sweep_loop tp_size (walk ++ rest) s = sweep_loop tp_size rest s'
        ∧ jac s' = jac s ∧ tp_it s' = tp_it s.
Proof.
  intros Hall. revert s. induction Hall as [|op walk Hop _ IH]; intros s Hs; simpl.
  - by exists s.
  - unfold sweep_step. rewrite Hop. simpl.
    destruct (is_state_prep (op_name op)); [by apply IH |].
    destruct (tp_it s) as [|tp tp_rest] eqn:Etp; [done |].
    rewrite hasParams_none by done.
    match goal with |- context [sweep_loop _ _ ?s1] =>
      destruct (IH s1) as (s' & Hrun & Hj & Ht); [by simpl |] end.
    exists s'. simpl in Hj, Ht. by rewrite Hrun, Hj, Ht.
Qed.

Lemma walk_order_small (ops : OpsData) :
  Z.of_nat (length ops) < 2 ^ 31 → walk_order ops = rev ops.
Proof.
  intros Hlen. unfold walk_order. f_equal.
  destruct ops as [|op ops]; [done |].
  rewrite take_ge; [done |].
  simpl length in *. rewrite wrap64_small by lia.
  unfold int_of_size_t. rewrite Z.mod_small by lia.
  destruct (Z.ltb_spec (Z.of_nat (S (length ops)) - 1) (2 ^ 31)); lia.
Qed.

(** How the thread function ends, once it holds a device and its shard. *)
Lemma adj_lambda_end (dp : DevicePool) (id : Z) (rest : list Z)
    (first last : Z) (ref_data : Amp B) (obs shard : list ObservableGPU)
    (ops : OpsData) (trainableParams : list N) (apply_operations : bool) :
  available dp = id :: rest →
  obs_range first last obs = Ok shard →
  adj_lambda dp first last ref_data obs ops trainableParams apply_operations
  = match adjointJacobian ref_data
            (replicate
               (Z.to_nat (wrap64 (wrap64 (last - first + 1)
                                  * Z.of_nat (length trainableParams))))
               0%float)
            shard ops trainableParams apply_operations (mkDevTag id 0) with
    | (jac_local, None) =>
        (mkPool (getTotalDevices dp) (rest ++ [id]), Fulfilled jac_local)
    | (_, Some e) => (mkPool (getTotalDevices dp) rest, Escaped e)
    end.
Proof.
  intros Hdp Hshard. unfold adj_lambda, acquireDevice. rewrite Hdp, Hshard. simpl.
  by destruct (adjointJacobian _ _ _ _ _ _ _) as [jl [e|]].
Qed.
End SweepFacts.


(** * The invariant of the sweep *)

Section Invariant.
Context {B : Backend}.

Lemma applyInPlace_DevTag (o : ObservableGPU) :
  ∀ sv : StateVectorCudaManaged B, getDevTag (applyInPlace o sv) = getDevTag sv.
Proof.
  induction o as [n w p|m w|obs aw IH|cs obs IH] using ObservableGPU_nested_ind;
    intros sv; simpl; try done.
  revert sv. induction IH as [|ob obs Hob _ IHobs]; intros sv; [done |].
  rewrite IHobs. apply Hob.
Qed.

Lemma applyOperations_DevTag (ops : OpsData) (adj : bool) :
  ∀ sv : StateVectorCudaManaged B, getDevTag (applyOperations sv ops adj) = getDevTag sv.
Proof.
  unfold applyOperations. induction ops as [|op ops IH]; intros sv; simpl; [done |].
  by rewrite IH.
Qed.

Lemma wrap64_sub_idemp (a b : Z) : wrap64 (wrap64 a - b) = wrap64 (a - b).
Proof. unfold wrap64. apply Zminus_mod_idemp_l. Qed.

Lemma updateJacobian_all_length (states : list (StateVectorCudaManaged B)) :
  ∀ k mu jac c p tp_size jac' r,
    updateJacobian_all states k mu jac c p tp_size = (jac', r) →
    length jac' = length jac.
Proof.
  induction states as [|h rest IH]; intros k mu jac c p tp_size jac' r; simpl.
  - by intros [= <- _].
  - unfold updateJacobian.
    destruct (negb _); [by intros [= <- _] |].
    destruct (_ <? _); [| by intros [= <- _]].
    intros H%IH. by rewrite H, length_insert.
Qed.

Lemma wrap64_range (z : Z) : 0 ≤ wrap64 z < 2 ^ 64.
Proof. unfold wrap64. apply Z.mod_pos_bound. lia. Qed.

Lemma applyOperationsAdj_inv (dev : DevTag) (op : OpData)
    (states : list (StateVectorCudaManaged B)) :
  Forall (λ h, getDevTag h = dev) states →
  Forall (λ h, getDevTag h = dev) (applyOperationsAdj states op)
  ∧ length (applyOperationsAdj states op) = length states.
Proof.
  intros H. unfold applyOperationsAdj. split; [| by rewrite length_map].
  induction H; simpl; constructor; done.
Qed.

Lemma sweep_step_inv (dev : DevTag) (n_obs n_jac : nat) (tp_size : Z)
    (op : OpData) (s s' : Sweep B) :
  sweep_inv dev n_obs n_jac s →
  sweep_step tp_size op s = Continue s' →
  sweep_inv dev n_obs n_jac s'
  ∧ current_param_idx s' = wrap64 (current_param_idx s - walked_par [op])
  ∧ (length (tp_it s') ≤ length (tp_it s))%nat.
Proof.
  intros [Hmu HH HHl Hjl Htpn Hcpi]. unfold sweep_step, walked_par. simpl.
  destruct (applyOperationsAdj_inv dev op _ HH) as [HH1 HHl1].
  case_bool_decide as Hmany; [done |].
  destruct (is_state_prep (op_name op)); simpl.
  { intros [= <-]. rewrite Z.sub_0_r, wrap64_small by done.
    split; [by split | split; [done | lia]]. }
  destruct (tp_it s) as [|tp tp_rest] eqn:Etp; [done |].
  destruct (hasParams op); simpl.
  - destruct (current_param_idx s =? Z.of_N tp).
    + destruct (applyGenerator _ _ _ _) as [[mu2 c]|e] eqn:Egen; [| done].
      destruct (updateJacobian_all _ _ _ _ _ _ _) as [jac' [e|]] eqn:Eupd; [done |].
      intros [= <-].
      assert (Hmu2 : getDevTag mu2 = dev).
      { unfold applyGenerator in Egen.
        destruct (generator_map !! op_name op) as [g|]; [| done].
        destruct (call_generator g _ _ _) as [mu3|] eqn:Ecall; [| done].
        simpl in Egen. destruct (scaling_factors !! op_name op); [| done].
        injection Egen as <- _. by rewrite (call_generator_DevTag _ _ _ _ _ Ecall). }
      apply updateJacobian_all_length in Eupd.
      split; [split; simpl | simpl; split; [done | lia]].
      * done.
      * done.
      * congruence.
      * congruence.
      * rewrite Htpn, wrap64_sub_idemp. simpl length. f_equal. lia.
      * apply wrap64_range.
    + intros [= <-].
      split; [split; simpl | simpl; split; [done | lia]].
      * done.
      * done.
      * congruence.
      * done.
      * done.
      * apply wrap64_range.
  - intros [= <-]. rewrite Z.sub_0_r, wrap64_small by done.
    split; [split; simpl | simpl; split; [done | lia]].
    + done.
    + done.
    + congruence.
    + done.
    + done.
    + done.
Qed.

Lemma walked_par_cons (op : OpData) (walk : list OpData) :
  walked_par (op :: walk) = walked_par [op] + walked_par walk.
Proof.
  unfold walked_par. simpl.
  destruct (negb (is_state_prep (op_name op)) && hasParams op); simpl; lia.
Qed.

Lemma sweep_reach_inv (dev : DevTag) (n_obs n_jac : nat) (tp_size : Z)
    (walk : list OpData) :
  ∀ s s' : Sweep B,
    sweep_inv dev n_obs n_jac s →
    sweep_reach tp_size walk s = Some s' →
    sweep_inv dev n_obs n_jac s'
    ∧ current_param_idx s' = wrap64 (current_param_idx s - walked_par walk)
    ∧ (length (tp_it s') ≤ length (tp_it s))%nat.
Proof.
  induction walk as [|op walk IH]; intros s s' Hinv; simpl.
  - intros [= <-]. split; [done |]. split; [| done].
    unfold walked_par. simpl. rewrite Z.sub_0_r, wrap64_small; [done |].
    by destruct Hinv.
  - destruct (sweep_step tp_size op s) as [s1| |s1 e] eqn:Estep; [| done..].
    intros Hreach.
    destruct (sweep_step_inv _ _ _ _ _ _ _ Hinv Estep) as (Hinv1 & Hc1 & Hl1).
    destruct (IH _ _ Hinv1 Hreach) as (Hinv' & Hc' & Hl').
    split; [done |]. split; [| lia].
    rewrite Hc', Hc1, wrap64_sub_idemp, (walked_par_cons op walk). f_equal. lia.
Qed.

Lemma sweep_init_inv (ref_data : Amp B) (jac0 : list float)
    (obs : list ObservableGPU) (ops : OpsData) (tps : list N)
    (apply_operations : bool) (dev : DevTag) :
  sweep_inv dev (length obs) (length jac0)
    (sweep_init ref_data jac0 obs ops tps apply_operations dev).
Proof.
  split; simpl; try done.
  - unfold applyObservables. apply Forall_forall. intros h Hh.
    apply list_elem_of_fmap in Hh as (ob & -> & _).
    by rewrite applyInPlace_DevTag.
  - unfold applyObservables. by rewrite length_map.
  - by rewrite length_rev.
  - apply wrap64_range.
Qed.

Lemma sweep_loop_reach (tp_size : Z) (walk rest : list OpData) :
  ∀ s s' : Sweep B,
    sweep_reach tp_size walk s = Some s' →
    sweep_loop tp_size (walk ++ rest) s = sweep_loop tp_size rest s'.
Proof.
  induction walk as [|op walk IH]; intros s s'; simpl.
  - by intros [= ->].
  - destruct (sweep_step tp_size op s); [apply IH | done..].
Qed.

Lemma getNumParOps_app (l1 l2 : OpsData) :
  getNumParOps (l1 ++ l2) = getNumParOps l1 + getNumParOps l2.
Proof. unfold getNumParOps. rewrite List.filter_app, length_app. lia. Qed.

Lemma getNumParOps_bound (l : OpsData) : 0 ≤ getNumParOps l ≤ Z.of_nat (length l).
Proof.
  unfold getNumParOps. pose proof (List.filter_length_le hasParams l). lia.
Qed.

Lemma walked_par_rev (post : OpsData) :
  Forall (λ o, is_state_prep (op_name o) = true → op_params o = []) post →
  walked_par (rev post) = getNumParOps post.
Proof.
  intros Hpost. unfold walked_par, getNumParOps.
  rewrite List.filter_rev, length_rev. f_equal. f_equal.
  apply List.filter_ext_in. intros o Ho.
  rewrite Forall_forall in Hpost. specialize (Hpost o).
  destruct (is_state_prep (op_name o)); simpl; [| done].
  unfold hasParams. rewrite Hpost; [done | by apply list_elem_of_In | done].
Qed.

(** The parametric counter is the position of the operation the loop is
    about to visit, among the parametric operations in tape order. *)
Lemma current_param_idx_position (ref_data : Amp B) (jac0 : list float)
    (obs : list ObservableGPU) (pre post : OpsData) (op : OpData) (tps : list N)
    (apply_operations : bool) (dev : DevTag) (tp_size : Z) (s : Sweep B) :
  sweep_reach tp_size (rev post)
    (sweep_init ref_data jac0 obs (pre ++ op :: post) tps apply_operations dev)
  = Some s →
  Forall (λ o, is_state_prep (op_name o) = true → op_params o = []) post →
  length (op_params op) = 1%nat →
  Z.of_nat (length (pre ++ op :: post)) < 2 ^ 64 →
  sweep_inv dev (length obs) (length jac0) s
  ∧ current_param_idx s = getNumParOps pre
  ∧ (length (tp_it s) ≤ length tps)%nat.
Proof.
  intros Hreach Hpost Hpar Hlen.
  destruct (sweep_reach_inv dev (length obs) (length jac0) tp_size (rev post) _ _
              (sweep_init_inv _ _ _ _ _ _ _) Hreach) as (Hinv & Hc & Hl).
  split; [done |]. split.
  - rewrite Hc. simpl. rewrite wrap64_sub_idemp, walked_par_rev by done.
    rewrite getNumParOps_app.
    change (op :: post) with ([op] ++ post). rewrite getNumParOps_app.
    replace (getNumParOps [op]) with 1
      by (unfold getNumParOps; simpl; by rewrite hasParams_one).
    pose proof (getNumParOps_bound pre). rewrite length_app in Hlen.
    match goal with |- wrap64 ?e = _ => replace e with (getNumParOps pre) by lia end.
    apply wrap64_small. lia.
  - simpl in Hl. by rewrite length_rev in Hl.
Qed.
End Invariant.

Lemma rev_tape_split (pre post : OpsData) (op : OpData) :
  rev (pre ++ op :: post) = rev post ++ op :: rev pre.
Proof. rewrite rev_app_distr. simpl. by rewrite <- app_assoc. Qed.


(** * The iterations of the sweep *)

(** An iteration on a one-parameter operation whose counter equals the
    head of the cursor: the generator is applied to a copy of [lambda], the
    column [trainableParamNumber] of every row is written, and the cursor
    and the counters move on. *)
Lemma sweep_step_match {B : Backend} (tp_size : Z) (op : OpData) (s : Sweep B)
    (tp : N) (tp_rest : list N) (g : GeneratorFunc) (c : float)
    (mu' : StateVectorCudaManaged B) :
  length (op_params op) = 1%nat →
  is_state_prep (op_name op) = false →
  tp_it s = tp :: tp_rest →
  current_param_idx s = Z.of_N tp →
  generator_map !! op_name op = Some g →
  scaling_factors !! op_name op = Some c →
  call_generator g (updateData (mu s) (lambda s)) (op_wires op) (negb (op_inverse op))
  = Ok mu' →
  Forall (λ h, getDeviceID (getDevTag h) = getDeviceID (getDevTag (mu s)))
    (H_lambda s) →
  0 ≤ trainableParamNumber s < tp_size →
  Z.of_nat (length (H_lambda s)) * tp_size ≤ Z.of_nat (length (jac s)) →
  Z.of_nat (length (jac s)) < 2 ^ 64 →
  ∃ s',
    sweep_step tp_size op s = Continue s'
    ∧ mu s' = mu'
    ∧ (∀ (i : nat) h, H_lambda s !! i = Some h →
         jac s' !! Z.to_nat (Z.of_nat i * tp_size + trainableParamNumber s)
         = Some (-2 * (c * (if op_inverse op then -1 else 1))
                 * innerProdC_CUDA_y B (getData h) (getData mu'))%float)
    ∧ (∀ j : nat,
         (∀ i : nat, (i < length (H_lambda s))%nat →
                     j ≠ Z.to_nat (Z.of_nat i * tp_size + trainableParamNumber s)) →
         jac s' !! j = jac s !! j)
    ∧ length (jac s') = length (jac s)
    ∧ tp_it s' = tp_rest
    ∧ trainableParamNumber s' = wrap64 (trainableParamNumber s - 1)
    ∧ current_param_idx s' = wrap64 (current_param_idx s - 1)
    ∧ lambda s' = applyOperationAdj (lambda s) op
    ∧ H_lambda s' = applyOperationsAdj (H_lambda s) op.
Proof.
  intros Hpar Hprep Htp Hcur Hg Hc Hgen Hdev Hcol Hsz Hlen.
  destruct (updateJacobian_all_spec (H_lambda s) 0 (jac s) mu'
              (c * (if op_inverse op then -1 else 1))%float
              (trainableParamNumber s) tp_size)
    as (jac' & Hrun & Hl & Hnew & Hold); [| done | done | lia | done |].
  { by rewrite (call_generator_DevTag _ _ _ _ _ Hgen). }
  unfold sweep_step.
  rewrite bool_decide_eq_false_2 by lia.
  rewrite Hprep, Htp, hasParams_one by done.
  rewrite Hcur, Z.eqb_refl.
  unfold applyGenerator. rewrite Hg, Hgen. simpl. rewrite Hc, Hrun.
  eexists. split; [done |]. simpl. split; [done |].
  split; [| split; [| by rewrite ?Hcur]].
  - intros i h Hi. specialize (Hnew i h Hi). rewrite Z.add_0_l in Hnew. exact Hnew.
  - intros j Hj. apply Hold. intros i Hi. rewrite Z.add_0_l. by apply Hj.
Qed.

(** An iteration on a one-parameter operation whose counter differs from
    the head of the cursor. *)
Lemma sweep_step_mismatch {B : Backend} (tp_size : Z) (op : OpData) (s : Sweep B)
    (tp : N) (tp_rest : list N) :
  length (op_params op) = 1%nat →
  is_state_prep (op_name op) = false →
  tp_it s = tp :: tp_rest →
  current_param_idx s ≠ Z.of_N tp →
  sweep_step tp_size op s
  = Continue
      (mkSweep (applyOperationAdj (lambda s) op)
         (applyOperationsAdj (H_lambda s) op)
         (updateData (mu s) (lambda s))
         (jac s) (trainableParamNumber s)
         (wrap64 (current_param_idx s - 1)) (tp_it s)).
Proof.
  intros Hpar Hprep Htp Hcur. unfold sweep_step.
  rewrite bool_decide_eq_false_2 by lia.
  rewrite Hprep, Htp, hasParams_one by done.
  by rewrite (proj2 (Z.eqb_neq _ _) Hcur).
Qed.

(** C2. Let the reverse sweep of [adjointJacobian] have reached the
    operation [op] of the tape [pre ++ op :: post], on a buffer of
    [num_observables * tp_size] entries. If [op] has a parameter and its
    position among the parametric operations in tape order (the number of
    parametric operations in [pre], which is what the parametric counter
    holds) equals the next pending trainable index, then the iteration
    applies the generator of [op] to the scratch state [mu] (a copy of
    [lambda]) with the negated inverse flag of [op], and for every
    observable [i] it writes [-2 * c * Im <H_lambda[i] | mu>] at
    [i * tp_size + col] of the row-major buffer, where [col] is the
    descending trainable-column counter (the number of trainable indices
    still pending after this one) and [c] is the registered scaling
    coefficient, multiplied by -1 when [op] is inverted; the bra is the
    first argument of the inner product. No other entry changes, the
    cursor advances, and the loop goes on with the operations of [pre]. *)
Theorem sweep_writes_trainable_column {B : Backend} (ref_data : Amp B)
    (jac0 : list float) (obs : list ObservableGPU) (pre post : OpsData)
    (op : OpData) (tps : list N) (apply_operations : bool) (dev : DevTag)
    (s : Sweep B) (tp : N) (tp_rest : list N) (g : GeneratorFunc) (c : float)
    (mu' : StateVectorCudaManaged B) :
  Z.of_nat (length (pre ++ op :: post)) < 2 ^ 31 →
  Z.of_nat (length tps) < 2 ^ 64 →
  Z.of_nat (length jac0) < 2 ^ 64 →
  length jac0 = (length obs * length tps)%nat →
  Forall (λ o, is_state_prep (op_name o) = true → op_params o = []) post →
  sweep_reach (Z.of_nat (length tps)) (rev post)
    (sweep_init ref_data jac0 obs (pre ++ op :: post) tps apply_operations dev)
  = Some s →
  length (op_params op) = 1%nat →
  is_state_prep (op_name op) = false →
  tp_it s = tp :: tp_rest →
  getNumParOps pre = Z.of_N tp →
  generator_map !! op_name op = Some g →
  scaling_factors !! op_name op = Some c →
  call_generator g (updateData (mu s) (lambda s)) (op_wires op) (negb (op_inverse op))
  = Ok mu' →
  ∃ s',
    sweep_step (Z.of_nat (length tps)) op s = Continue s'
    ∧ mu s' = mu'
    ∧ current_param_idx s = getNumParOps pre
    ∧ trainableParamNumber s = Z.of_nat (length tp_rest)
    ∧ (∀ (i : nat) h, H_lambda s !! i = Some h →
         jac s' !! (i * length tps + length tp_rest)%nat
         = Some (-2 * (c * (if op_inverse op then -1 else 1))
                 * innerProdC_CUDA_y B (getData h) (getData mu'))%float)
    ∧ (∀ j : nat,
         (∀ i : nat, (i < length obs)%nat →
                     j ≠ (i * length tps + length tp_rest)%nat) →
         jac s' !! j = jac s !! j)
    ∧ tp_it s' = tp_rest
    ∧ sweep_loop (Z.of_nat (length tps)) (walk_order (pre ++ op :: post))
        (sweep_init ref_data jac0 obs (pre ++ op :: post) tps apply_operations dev)
      = sweep_loop (Z.of_nat (length tps)) (rev pre) s'.
Proof.
  intros Hlen Htps Hjac Hsz Hpost Hreach Hpar Hprep Htp Hpos Hg Hc Hgen.
  destruct (current_param_idx_position _ _ _ _ _ _ _ _ _ _ _ Hreach Hpost Hpar)
    as ([Hmu HH HHl Hjl Htpn Hcpi] & Hcur & Hl); [lia |].
  rewrite Htp in Htpn, Hl. simpl length in Htpn, Hl.
  rewrite wrap64_small in Htpn by lia.
  destruct (sweep_step_match (Z.of_nat (length tps)) op s tp tp_rest g c mu')
    as (s' & Hstep & Hmu' & Hnew & Hold & _ & Htp' & _); try done.
  { congruence. }
  { eapply Forall_impl; [exact HH |]. simpl. intros h ->. by rewrite Hmu. }
  { lia. }
  { rewrite HHl, Hjl, Hsz. lia. }
  { by rewrite Hjl. }
  exists s'. split; [done |]. split; [done |]. split; [done |].
  split; [lia |]. split; [| split; [| split; [done |]]].
  - intros i h Hi. rewrite <- (Hnew i h Hi). f_equal. rewrite Htpn. lia.
  - intros j Hj. apply Hold. intros i Hi. rewrite Htpn, HHl in *.
    specialize (Hj i Hi). lia.
  - rewrite walk_order_small, rev_tape_split by done.
    rewrite (sweep_loop_reach _ _ _ _ _ Hreach). simpl. by rewrite Hstep.
Qed.

Lemma sweep_writes_trainable_column_witness :
  ∃ s', sweep_step 2 (Examples.RX 0 0.5) Examples.s1 = Continue s'
        ∧ mu s' = Examples.mu2
        ∧ jac s' = [22; 44; 29; 45]%float
        ∧ tp_it s' = [].
Proof.
  destruct (sweep_writes_trainable_column (B := Recording.backend)
              Examples.ref_state [0; 0; 0; 0]%float Examples.obs2
              [] [Examples.RY 1 0.25] (Examples.RX 0 0.5) [0; 1]%N false
              Examples.dev0 Examples.s1 0%N [] applyGeneratorRX_GPU (-0.5)%float
              Examples.mu2)
    as (s' & Hstep & Hmu & _ & _ & _ & _ & Htp & _);
    [vm_compute; reflexivity | vm_compute; reflexivity | vm_compute; reflexivity
    | reflexivity | repeat constructor; discriminate | reflexivity | reflexivity
    | reflexivity | reflexivity | reflexivity
    | vm_compute; reflexivity | vm_compute; reflexivity | reflexivity |].
  exists s'. split; [exact Hstep |]. split; [exact Hmu |]. split; [| exact Htp].
  vm_compute in Hstep. injection Hstep as <-. reflexivity.
Defined.


(** C3. With an empty list of trainable parameters, [adjointJacobian]
    fails with the exception of its first [PL_ABORT_IF] and the caller's
    buffer is unchanged. *)
Theorem adjointJacobian_no_trainable {B : Backend} (ref_data : Amp B)
    (jac0 : list float) (obs : list ObservableGPU) (ops : OpsData)
    (apply_operations : bool) (dev_tag : DevTag) :
  adjointJacobian ref_data jac0 obs ops [] apply_operations dev_tag
  = (jac0, Some (LightningException no_trainable_msg)).
Proof. reflexivity. Qed.

(** With the cursor exhausted, the loop ends without failure on a walk
    none of whose operations has more than one parameter. *)
Lemma sweep_loop_finished {B : Backend} (tp_size : Z) (walk : list OpData)
    (s : Sweep B) :
  tp_it s = [] → Forall (λ o, (length (op_params o) ≤ 1)%nat) walk →
  sweep_loop tp_size walk s = (s, None).
Proof.
  intros Hs. induction 1 as [|op walk Hop _ IH]; simpl; [done |].
  unfold sweep_step. rewrite bool_decide_eq_false_2 by lia.
  destruct (is_state_prep (op_name op)); [done |]. by rewrite Hs.
Qed.

(** With the cursor exhausted, the loop goes past the state-preparation
    sentinels and leaves at the first other operation: what comes after it
    is not visited. *)
Lemma sweep_loop_stops {B : Backend} (tp_size : Z) (sentinels rest : list OpData)
    (op : OpData) (s : Sweep B) :
  tp_it s = [] →
  Forall (λ o, is_state_prep (op_name o) = true ∧ (length (op_params o) ≤ 1)%nat)
    sentinels →
  is_state_prep (op_name op) = false → (length (op_params op) ≤ 1)%nat →
  sweep_loop tp_size (sentinels ++ op :: rest) s = (s, None).
Proof.
  intros Hs Hsent Hprep Hpar.
  induction Hsent as [|o sentinels [Ho1 Ho2] _ IH]; simpl.
  - unfold sweep_step. rewrite bool_decide_eq_false_2 by lia. by rewrite Hprep, Hs.
  - unfold sweep_step. rewrite bool_decide_eq_false_2 by lia. by rewrite Ho1.
Qed.

(** With the cursor exhausted, an operation with more than one parameter
    that only sentinels separate from the point of exhaustion is still
    rejected: the check of the parameter count comes first in the body of
    the loop. *)
Lemma sweep_loop_raises_after {B : Backend} (tp_size : Z)
    (sentinels rest : list OpData) (op : OpData) (s : Sweep B) :
  Forall (λ o, is_state_prep (op_name o) = true ∧ (length (op_params o) ≤ 1)%nat)
    sentinels →
  (1 < length (op_params op))%nat →
  sweep_loop tp_size (sentinels ++ op :: rest) s
  = (s, Some (LightningException not_supported_msg)).
Proof.
  intros Hsent Hpar.
  induction Hsent as [|o sentinels [Ho1 Ho2] _ IH]; simpl.
  - unfold sweep_step. by rewrite bool_decide_eq_true_2.
  - unfold sweep_step. rewrite bool_decide_eq_false_2 by lia. by rewrite Ho1.
Qed.

Lemma sweep_loop_exhausted_outcome {B : Backend} (tp_size : Z) (walk : list OpData)
    (s : Sweep B) :
  tp_it s = [] →
  (sweep_loop tp_size walk s).2 = None
  ∨ (sweep_loop tp_size walk s).2 = Some (LightningException not_supported_msg).
Proof.
  intros Hs. induction walk as [|op walk IH]; simpl; [by left |].
  unfold sweep_step. case_bool_decide; [by right |].
  destruct (is_state_prep (op_name op)); [done |]. rewrite Hs. by left.
Qed.

Lemma sweep_loop_app_finished {B : Backend} (tp_size : Z)
    (walk1 walk2 : list OpData) (s s1 : Sweep B) :
  sweep_loop tp_size walk1 s = (s1, None) → tp_it s1 = [] →
  Forall (λ o, (length (op_params o) ≤ 1)%nat) walk2 →
  sweep_loop tp_size (walk1 ++ walk2) s = (s1, None).
Proof.
  revert s. induction walk1 as [|op walk1 IH]; intros s; simpl.
  - intros [= ->] Hs1 H2. by apply sweep_loop_finished.
  - destruct (sweep_step tp_size op s) as [s'| |s' e] eqn:E; [apply IH | done..].
Qed.

(** C4. Let the reverse sweep have reached the operation [op] of the tape
    [pre ++ op :: post]. If [op] has a parameter and its position among the
    parametric operations differs from the next pending trainable index,
    the iteration decrements the parametric counter, leaves in [mu] a plain
    copy of [lambda] (no generator is applied), and leaves the Jacobian,
    the column counter and the cursor unchanged. Once the trainable cursor
    is exhausted the walk stops: whatever remains of the tape, [lambda],
    the bra states and the Jacobian stay as they are, and the loop ends
    without failure when no remaining operation has more than one
    parameter. The loop goes past state-preparation sentinels and leaves at
    the first operation that is not one, so that nothing after that
    operation is visited, not even an operation with more than one
    parameter. The one failure left is the check of the parameter count,
    which comes first in the body of the loop: an operation with more than
    one parameter that only sentinels separate from the point of
    exhaustion is rejected, the state unchanged. *)
Theorem sweep_skips_untrained_and_stops {B : Backend} (tp_size : Z) :
  (∀ (ref_data : Amp B) (jac0 : list float) (obs : list ObservableGPU)
     (pre post : OpsData) (op : OpData) (tps : list N) (apply_operations : bool)
     (dev : DevTag) (s : Sweep B) (tp : N) (tp_rest : list N),
     Z.of_nat (length (pre ++ op :: post)) < 2 ^ 31 →
     Forall (λ o, is_state_prep (op_name o) = true → op_params o = []) post →
     sweep_reach tp_size (rev post)
       (sweep_init ref_data jac0 obs (pre ++ op :: post) tps apply_operations dev)
     = Some s →
     length (op_params op) = 1%nat →
     is_state_prep (op_name op) = false →
     tp_it s = tp :: tp_rest →
     getNumParOps pre ≠ Z.of_N tp →
     current_param_idx s = getNumParOps pre
     ∧ sweep_step tp_size op s
       = Continue
           (mkSweep (applyOperationAdj (lambda s) op)
              (applyOperationsAdj (H_lambda s) op)
              (updateData (mu s) (lambda s))
              (jac s) (trainableParamNumber s)
              (wrap64 (getNumParOps pre - 1)) (tp_it s)))
  ∧ (∀ (walk : list OpData) (s : Sweep B),
       tp_it s = [] →
       (sweep_loop tp_size walk s).1 = s
       ∧ ((sweep_loop tp_size walk s).2 = None
          ∨ (sweep_loop tp_size walk s).2
            = Some (LightningException not_supported_msg))
       ∧ (Forall (λ o, (length (op_params o) ≤ 1)%nat) walk →
          sweep_loop tp_size walk s = (s, None)))
  ∧ (∀ (sentinels rest : list OpData) (op : OpData) (s : Sweep B),
       tp_it s = [] →
       Forall (λ o, is_state_prep (op_name o) = true
                    ∧ (length (op_params o) ≤ 1)%nat) sentinels →
       (is_state_prep (op_name op) = false → (length (op_params op) ≤ 1)%nat →
        sweep_loop tp_size (sentinels ++ op :: rest) s = (s, None))
       ∧ ((1 < length (op_params op))%nat →
          sweep_loop tp_size (sentinels ++ op :: rest) s
          = (s, Some (LightningException not_supported_msg))))
  ∧ (∀ (walk1 walk2 : list OpData) (s s1 : Sweep B),
       sweep_loop tp_size walk1 s = (s1, None) → tp_it s1 = [] →
       (sweep_loop tp_size (walk1 ++ walk2) s).1 = s1
       ∧ (Forall (λ o, (length (op_params o) ≤ 1)%nat) walk2 →
          sweep_loop tp_size (walk1 ++ walk2) s = (s1, None))).
Proof.
  split; [| split; [| split]].
  - intros ref_data jac0 obs pre post op tps apply_operations dev s tp tp_rest
      Hlen Hpost Hreach Hpar Hprep Htp Hpos.
    destruct (current_param_idx_position _ _ _ _ _ _ _ _ _ _ _ Hreach Hpost Hpar)
      as (_ & Hcur & _); [lia |].
    split; [done |]. rewrite <- Hcur.
    apply (sweep_step_mismatch tp_size op s tp tp_rest); try done. congruence.
  - intros walk s Hs. split; [by apply sweep_loop_exhausted |].
    split; [by apply sweep_loop_exhausted_outcome |].
    by apply sweep_loop_finished.
  - intros sentinels rest op s Hs Hsent. split.
    + intros. by apply sweep_loop_stops.
    + intros. by apply sweep_loop_raises_after.
  - intros walk1 walk2 s s1 Hrun Hs1. split.
    + by eapply sweep_loop_app_exhausted.
    + intros. by apply (sweep_loop_app_finished tp_size walk1 walk2 s s1).
Qed.

Lemma sweep_skips_untrained_and_stops_witness :
  (∃ s', sweep_step 1 (Examples.RY 1 0.25) Examples.s0_sparse = Continue s'
         ∧ jac s' = jac Examples.s0_sparse
         ∧ current_param_idx s' = 0
         ∧ tp_it s' = [0%N])
  ∧ sweep_loop 1 ([] ++ Examples.PauliX_op 0 :: [Examples.Rot 0 0.5 0.25 0.125])
      (sweep_loop 1 [Examples.RY 1 0.25; Examples.RX 0 0.5] Examples.s0_sparse).1
    = ((sweep_loop 1 [Examples.RY 1 0.25; Examples.RX 0 0.5] Examples.s0_sparse).1,
       None).
Proof.
  split.
  - eexists. split.
    + apply (proj1 (sweep_skips_untrained_and_stops (B := Recording.backend) 1)
               Examples.ref_state [0; 0]%float Examples.obs2
               [Examples.RX 0 0.5] [] (Examples.RY 1 0.25) [0%N] false Examples.dev0
               Examples.s0_sparse 0%N []);
        [vm_compute; reflexivity | constructor | reflexivity | reflexivity
        | reflexivity | reflexivity | vm_compute; discriminate].
    + split; [reflexivity |]. split; reflexivity.
  - apply (proj1 (proj2 (proj2 (sweep_skips_untrained_and_stops
                                  (B := Recording.backend) 1)))
             [] [Examples.Rot 0 0.5 0.25 0.125] (Examples.PauliX_op 0)
             (sweep_loop 1 [Examples.RY 1 0.25; Examples.RX 0 0.5]
                Examples.s0_sparse).1
             ltac:(vm_compute; reflexivity) ltac:(constructor));
      [reflexivity | simpl; lia].
Defined.

(** * Failures of the sweep *)

(** C5, as amended. When the tape is shorter than [2^31], the list of
    trainable parameters is not empty, and every operation after an
    operation with more than one parameter is parameterless (so that the
    reverse walk reaches that operation before it matched any trainable
    parameter), [adjointJacobian] fails with the exception of the
    [PL_ABORT_IF] of its loop and the caller's buffer is unchanged. *)
Theorem multi_param_op_reached {B : Backend} (ref_data : Amp B)
    (jac0 : list float) (obs : list ObservableGPU) (pre post : list OpData)
    (bad : OpData) (trainableParams : list N) (apply_operations : bool)
    (dev_tag : DevTag) :
  (1 < length (op_params bad))%nat →
  Forall (λ op, op_params op = []) post →
  trainableParams ≠ [] →
  Z.of_nat (length (pre ++ bad :: post)) < 2 ^ 31 →
  adjointJacobian ref_data jac0 obs (pre ++ bad :: post) trainableParams
    apply_operations dev_tag
  = (jac0, Some (LightningException not_supported_msg)).
Proof.
  intros Hbad Hpost Htp Hlen.
  destruct trainableParams as [|t tps] eqn:Etp; [done |]. rewrite <- Etp.
  unfold adjointJacobian. rewrite Etp at 1. rewrite walk_order_small by done.
  rewrite rev_app_distr. simpl. rewrite <- app_assoc. simpl.
  match goal with |- context [sweep_loop ?n (rev post ++ ?r) ?s0] =>
    destruct (sweep_loop_parameterless n (rev post) r s0) as (s' & Hrun & Hj & Ht)
  end.
  { by apply List.Forall_rev. }
  { simpl. rewrite Etp. intros H%(f_equal length). rewrite length_rev in H. done. }
  rewrite Hrun. simpl. unfold sweep_step. rewrite bool_decide_eq_true_2 by done.
  by rewrite Hj.
Qed.

Lemma multi_param_op_reached_witness :
  adjointJacobian Examples.ref_state [0; 0]%float Examples.obs2 Examples.tape_rot_mid
    [0]%N true Examples.dev0
  = ([0; 0]%float, Some (LightningException not_supported_msg)).
Proof.
  apply (multi_param_op_reached (B := Recording.backend) Examples.ref_state
           [0; 0]%float Examples.obs2 [Examples.RX 0 0.5] [Examples.PauliX_op 0]
           (Examples.Rot 0 0.5 0.25 0.125) [0%N] true Examples.dev0);
    [vm_compute; lia | repeat constructor | discriminate | vm_compute; reflexivity].
Defined.

(** C5, as stated, fails. On [tape_rot_far] the walk stops before it
    reaches the operation with three parameters: the computation succeeds
    and fills the buffer. On [tape_rot_near] the failure is raised, but
    only after the column of the rotation behind it was written. *)
Lemma multi_param_op_not_rejected_up_front :
  Exists (λ op, (1 < length (op_params op))%nat) Examples.tape_rot_far
  ∧ adjointJacobian Examples.ref_state [0]%float [Examples.PauliZ_obs 0]
      Examples.tape_rot_far [1]%N false Examples.dev0
    = ([41]%float, None)
  ∧ Exists (λ op, (1 < length (op_params op))%nat) Examples.tape_rot_near
  ∧ adjointJacobian Examples.ref_state [0]%float [Examples.PauliZ_obs 0]
      Examples.tape_rot_near [1]%N false Examples.dev0
    = ([41]%float, Some (LightningException not_supported_msg)).
Proof.
  split; [left; vm_compute; lia |]. split; [vm_compute; reflexivity |].
  split; [left; vm_compute; lia |]. vm_compute; reflexivity.
Qed.

(** C9. For a gate name that is not a key of the generator registry,
    [applyGenerator] fails with the [std::out_of_range] of the lookup; so
    does the iteration of the sweep that reaches a trainable operation of
    that name, before anything is written to the Jacobian. *)
Theorem applyGenerator_unregistered {B : Backend} (name : string) :
  generator_map !! name = None →
  (∀ (sv : StateVectorCudaManaged B) (wires : list N) (adj : bool),
     applyGenerator sv name wires adj = Err OutOfRange)
  ∧ (∀ (tp_size : Z) (op : OpData) (s : Sweep B) (tp : N) (tp_rest : list N),
       op_name op = name →
       length (op_params op) = 1%nat →
       is_state_prep name = false →
       tp_it s = tp :: tp_rest →
       current_param_idx s = Z.of_N tp →
       ∃ s', sweep_step tp_size op s = Abort s' OutOfRange ∧ jac s' = jac s).
Proof.
  intros Hname. split.
  - intros sv wires adj. unfold applyGenerator. by rewrite Hname.
  - intros tp_size op s tp tp_rest Hop Hpar Hprep Htp Hcur. unfold sweep_step.
    rewrite bool_decide_eq_false_2 by lia.
    rewrite Hop, Hprep, Htp, hasParams_one by done.
    rewrite Hcur, Z.eqb_refl. unfold applyGenerator. rewrite Hname.
    by eexists.
Qed.

Lemma applyGenerator_unregistered_witness :
  applyGenerator (B := Recording.backend) Examples.mu1 "U1" [0%N] false
  = Err OutOfRange.
Proof.
  apply (proj1 (applyGenerator_unregistered (B := Recording.backend) "U1"
                  ltac:(vm_compute; reflexivity))).
Defined.

(** * The multi-device batcher *)

(** C6, at the failing inputs. A shard worker that took the device [id]
    from the pool and whose sweep raises (for instance because the list of
    trainable parameters is empty) ends with the exception leaving the
    thread function, and [id] is not back in the pool. *)
Theorem adj_lambda_failure_keeps_device {B : Backend} (dp : DevicePool) (id : Z)
    (rest : list Z) (first last : Z) (ref_data : Amp B)
    (obs shard : list ObservableGPU) (ops : OpsData) (trainableParams : list N)
    (apply_operations : bool) (jac_local : list float) (e : failure) :
  available dp = id :: rest →
  id ∉ rest →
  obs_range first last obs = Ok shard →
  adjointJacobian ref_data
    (replicate
       (Z.to_nat (wrap64 (wrap64 (last - first + 1)
                          * Z.of_nat (length trainableParams))))
       0%float)
    shard ops trainableParams apply_operations (mkDevTag id 0)
  = (jac_local, Some e) →
  ∃ dp',
    adj_lambda dp first last ref_data obs ops trainableParams apply_operations
    = (dp', Escaped e)
    ∧ id ∉ available dp'.
Proof.
  intros Hdp Hid Hshard Hrun. eexists. split.
  - by rewrite (adj_lambda_end dp id rest first last ref_data obs shard), Hrun.
  - done.
Qed.

Lemma adj_lambda_failure_keeps_device_witness :
  adj_lambda (DevicePool_new 2) 0 0 Examples.ref_state Examples.obs2 Examples.tape2
    [] false
  = (mkPool 2 [1], Escaped (LightningException no_trainable_msg)).
Proof.
  destruct (adj_lambda_failure_keeps_device (B := Recording.backend)
              (DevicePool_new 2) 0 [1] 0 0 Examples.ref_state Examples.obs2
              [Examples.PauliZ_obs 0] Examples.tape2 [] false []
              (LightningException no_trainable_msg))
    as (dp' & Hrun & _);
    [reflexivity | apply (bool_decide_unpack _); vm_compute; exact I | reflexivity
    | reflexivity |].
  reflexivity.
Defined.

(** The same failure seen from [batchAdjointJacobian]: the process is
    terminated and the pool has lost the device of the first shard. *)
Lemma batch_failure_loses_device :
  run_workers all_in_time 2 0 2 (DevicePool_new 2) Examples.ref_state Examples.obs2
    Examples.tape2 [] false
  = (mkPool 2 [1], inl (ProcessTerminated (LightningException no_trainable_msg)))
  ∧ batchAdjointJacobian all_in_time 2 Examples.ref_state [0; 0; 0; 0]%float
      Examples.obs2 Examples.tape2 [] false
    = ProcessTerminated (LightningException no_trainable_msg).
Proof. split; vm_compute; reflexivity. Qed.

(** On the path without failure the worker does give the device back. *)
Lemma adj_lambda_success_releases {B : Backend} (dp : DevicePool) (id : Z)
    (rest : list Z) (first last : Z) (ref_data : Amp B)
    (obs shard : list ObservableGPU) (ops : OpsData) (trainableParams : list N)
    (apply_operations : bool) (jac_local : list float) :
  available dp = id :: rest →
  obs_range first last obs = Ok shard →
  adjointJacobian ref_data
    (replicate
       (Z.to_nat (wrap64 (wrap64 (last - first + 1)
                          * Z.of_nat (length trainableParams))))
       0%float)
    shard ops trainableParams apply_operations (mkDevTag id 0)
  = (jac_local, None) →
  adj_lambda dp first last ref_data obs ops trainableParams apply_operations
  = (releaseDevice id (mkPool (getTotalDevices dp) rest), Fulfilled jac_local).
Proof.
  intros Hdp Hshard Hrun.
  by rewrite (adj_lambda_end dp id rest first last ref_data obs shard), Hrun.
Qed.

(** A schedule either lets every thread read its bounds in time, and
    then the call ends as under [all_in_time], or it makes some thread read
    them late. *)
Lemma run_workers_schedule {B : Backend} (sched : Schedule) (fuel : nat) :
  ∀ (i num_chunks : Z) (dp : DevicePool) (ref_data : Amp B)
    (obs : list ObservableGPU) (ops : OpsData) (trainableParams : list N)
    (apply_operations : bool),
    run_workers sched fuel i num_chunks dp ref_data obs ops trainableParams
      apply_operations
    = run_workers all_in_time fuel i num_chunks dp ref_data obs ops trainableParams
        apply_operations
    ∨ ∃ dp',
        run_workers sched fuel i num_chunks dp ref_data obs ops trainableParams
          apply_operations
        = (dp', inl (Undefined "first and last read after their lifetime ended")).
Proof.
  induction fuel as [|fuel IH]; intros i num_chunks dp ref_data obs ops tps ao;
    [by left |].
  simpl.
  destruct (shard_first _ _ _) as [first|]; [| by left].
  destruct (shard_last _ _ _) as [last|]; [| by left].
  destruct (sched i); [| right; by eexists].
  destruct (adj_lambda dp first last ref_data obs ops tps ao) as [dp1 [rows|e|]];
    [| by left..].
  destruct (IH (i + 1) num_chunks dp1 ref_data obs ops tps ao) as [-> | [dp' ->]];
    [by left | right; by eexists].
Qed.

Lemma batchAdjointJacobian_schedule {B : Backend} (sched : Schedule) (num_gpus : N)
    (ref_data : Amp B) (jac0 : list float) (obs : list ObservableGPU)
    (ops : OpsData) (trainableParams : list N) (apply_operations : bool) :
  batchAdjointJacobian sched num_gpus ref_data jac0 obs ops trainableParams
    apply_operations
  = batchAdjointJacobian all_in_time num_gpus ref_data jac0 obs ops trainableParams
      apply_operations
  ∨ batchAdjointJacobian sched num_gpus ref_data jac0 obs ops trainableParams
      apply_operations
    = Undefined "first and last read after their lifetime ended".
Proof.
  unfold batchAdjointJacobian.
  destruct (run_workers_schedule sched (N.to_nat num_gpus) 0
              (getTotalDevices (DevicePool_new num_gpus)) (DevicePool_new num_gpus)
              ref_data obs ops trainableParams apply_operations) as [-> | [dp' ->]];
    [by left | by right].
Qed.

(** C1, at the failing input. With two devices, the two observables of
    [obs2], the two rotations of [tape2], both trainable, and any backend,
    reference state and initial content of the buffer: the single-device
    sweep fills the four entries [a b c d] of the 2 x 2 Jacobian, while the
    batched entrypoint, when both threads read the bounds of their shards
    in time, returns with [a c d] followed by the last initial entry in the
    buffer. The second block is written from offset 1, the index of its
    first observable, and not from offset 2, the index of its first entry.
    Under any other schedule a thread reads [first] and [last] after their
    lifetime ended, and the behaviour is undefined. *)
Theorem batch_merge_misplaces_rows {B : Backend} (ref_data : Amp B)
    (j0 j1 j2 j3 : float) :
  ∃ a b c d : float,
    adjointJacobian ref_data [j0; j1; j2; j3] Examples.obs2 Examples.tape2
      [0; 1]%N false Examples.dev0
    = ([a; b; c; d], None)
    ∧ batchAdjointJacobian all_in_time 2 ref_data [j0; j1; j2; j3] Examples.obs2
        Examples.tape2 [0; 1]%N false
      = Returned [a; c; d; j3]
    ∧ ∀ sched : Schedule,
        batchAdjointJacobian sched 2 ref_data [j0; j1; j2; j3] Examples.obs2
          Examples.tape2 [0; 1]%N false
        = Returned [a; c; d; j3]
        ∨ batchAdjointJacobian sched 2 ref_data [j0; j1; j2; j3] Examples.obs2
            Examples.tape2 [0; 1]%N false
          = Undefined "first and last read after their lifetime ended".
Proof.
  do 4 eexists. split; [vm_compute; reflexivity |].
  split; [vm_compute; reflexivity |].
  intros sched.
  destruct (batchAdjointJacobian_schedule sched 2 ref_data [j0; j1; j2; j3]
              Examples.obs2 Examples.tape2 [0; 1]%N false) as [-> | ->];
    [left; vm_compute; reflexivity | by right].
Qed.

(** With the recording backend the two results differ. *)
Lemma batch_differs_from_single :
  adjointJacobian Examples.ref_state [0; 0; 0; 0]%float Examples.obs2 Examples.tape2
    [0; 1]%N false Examples.dev0
  = ([22; 44; 29; 45]%float, None)
  ∧ batchAdjointJacobian all_in_time 2 Examples.ref_state [0; 0; 0; 0]%float
      Examples.obs2 Examples.tape2 [0; 1]%N false
    = Returned [22; 29; 45; 0]%float.
Proof. split; vm_compute; reflexivity. Qed.


(** * Further properties: the gate cache *)

Section unordered_map_equivalence.
Context {K V : Type} (keq : K → K → bool) (dflt : V).
Hypothesis keq_sym : ∀ a b, keq a b = keq b a.
Hypothesis keq_trans : ∀ a b c, keq a b = true → keq b c = true → keq a c = true.

(** With a symmetric and transitive key equality, and a key that equals
    itself, a subscript behaves as on a map: it changes what a lookup of an
    equal key finds and nothing else. *)
Lemma umap_find_modify_other (k k2 : K) (f : V → V) (m : list (K * V)) :
  keq k k = true →
  umap_find keq k2 (umap_modify keq dflt k f m)
  = if keq k k2 then Some (f (default dflt (umap_find keq k m)))
    else umap_find keq k2 m.
Proof.
  intros Hk. induction m as [|[k' v] m IH]; simpl.
  - by destruct (keq k k2).
  - destruct (keq k' k) eqn:E1; simpl.
    + destruct (keq k k2) eqn:E2.
      * by rewrite (keq_trans k' k k2).
      * destruct (keq k' k2) eqn:E3; [| done].
        rewrite (keq_trans k k' k2) in E2; [done | by rewrite keq_sym | done].
    + destruct (keq k' k2) eqn:E3; simpl.
      * destruct (keq k k2) eqn:E2; [| done].
        rewrite (keq_trans k' k2 k) in E1; [done | done | by rewrite keq_sym].
      * apply IH.
Qed.

(** A subscript on a key that is found does not add an entry. *)
Lemma umap_modify_length (k : K) (f : V → V) (m : list (K * V)) :
  is_Some (umap_find keq k m) → length (umap_modify keq dflt k f m) = length m.
Proof.
  induction m as [|[k' v] m IH]; simpl; [by intros [? ?] |].
  destruct (keq k' k); simpl; [done |]. intros H. by rewrite IH.
Qed.

Lemma umap_modify_length_None (k : K) (f : V → V) (m : list (K * V)) :
  umap_find keq k m = None → length (umap_modify keq dflt k f m) = S (length m).
Proof.
  induction m as [|[k' v] m IH]; simpl; [done |].
  destruct (keq k' k); simpl; [done |]. intros H. by rewrite IH.
Qed.
End unordered_map_equivalence.

Lemma gate_id_eqb_sym (a b : GateCache.gate_id) :
  GateCache.gate_id_eqb a b = GateCache.gate_id_eqb b a.
Proof.
  unfold GateCache.gate_id_eqb. by rewrite String.eqb_sym, float_eqb_sym.
Qed.

Lemma gate_id_eqb_trans (a b c : GateCache.gate_id) :
  GateCache.gate_id_eqb a b = true → GateCache.gate_id_eqb b c = true →
  GateCache.gate_id_eqb a c = true.
Proof.
  unfold GateCache.gate_id_eqb. rewrite !andb_true_iff, !String.eqb_eq.
  intros [-> H1] [-> H2]. split; [done | by eapply float_eqb_trans].
Qed.

(** What a lookup finds after [add_gate]. *)
Lemma add_gate_find (c : GateCache.t) (name : string) (param : float)
    (matrix : list GateCache.CFP_t) (k2 : GateCache.gate_id) :
  PrimFloat.eqb param param = true →
  umap_find GateCache.gate_id_eqb k2
    (GateCache.host_gates_ (GateCache.add_gate name param matrix c))
  = (if GateCache.gate_id_eqb (name, param) k2 then Some matrix
     else umap_find GateCache.gate_id_eqb k2 (GateCache.host_gates_ c))
  ∧ umap_find GateCache.gate_id_eqb k2
      (GateCache.device_gates_ (GateCache.add_gate name param matrix c))
    = (if GateCache.gate_id_eqb (name, param) k2
       then Some (GateCache.mkDataBuffer (GateCache.vsize matrix)
                    (GateCache.device_tag_ c) (Some matrix))
       else umap_find GateCache.gate_id_eqb k2 (GateCache.device_gates_ c)).
Proof.
  intros Hp. pose proof (gate_id_eqb_refl name _ Hp) as Hk.
  unfold GateCache.add_gate, umap_subscript, umap_assign. simpl.
  rewrite !(umap_find_modify_other _ _ gate_id_eqb_sym gate_id_eqb_trans) by done.
  rewrite ?Hk. simpl.
  destruct (GateCache.gate_id_eqb (name, param) k2); done.
Qed.

Section unordered_map_unique.
Context {K V : Type} (keq : K → K → bool) (dflt : V).
Hypothesis keq_sym : ∀ a b, keq a b = keq b a.
Hypothesis keq_trans : ∀ a b c, keq a b = true → keq b c = true → keq a c = true.

Lemma umap_find_nonself (k : K) (m : list (K * V)) :
  keq k k = false → umap_find keq k m = None.
Proof.
  intros Hk. induction m as [|[k' v] m IH]; simpl; [done |].
  destruct (keq k' k) eqn:E; [| done].
  rewrite (keq_trans k k' k) in Hk; [done | by rewrite keq_sym | done].
Qed.

Lemma umap_find_modify_nonself (k : K) (f : V → V) (m : list (K * V)) :
  keq k k = false → umap_find keq k (umap_modify keq dflt k f m) = None.
Proof.
  intros Hk. induction m as [|[k' v] m IH]; simpl; [by rewrite Hk |].
  destruct (keq k' k) eqn:E; simpl; rewrite E; [| done].
  rewrite (keq_trans k k' k) in Hk; [done | by rewrite keq_sym | done].
Qed.

Lemma umap_wf_modify (k : K) (f : V → V) (m : list (K * V)) :
  keq k k = true → umap_wf keq m → umap_wf keq (umap_modify keq dflt k f m).
Proof.
  intros Hk. induction m as [|[k' v] m IH]; simpl; [done |].
  intros (Hk' & Hfresh & Hwf). destruct (keq k' k) eqn:E; simpl.
  - done.
  - split; [done |]. split; [| by apply IH].
    rewrite (umap_find_modify_other keq dflt keq_sym keq_trans) by done.
    by rewrite keq_sym, E.
Qed.
End unordered_map_unique.

(** What [get_gate_host] returns is what a lookup finds, or an empty
    vector. *)
Lemma get_gate_host_value (c : GateCache.t) (name : string) (param : float) :
  (GateCache.get_gate_host name param c).2
  = default [] (umap_find GateCache.gate_id_eqb (name, param) (GateCache.host_gates_ c)).
Proof.
  unfold GateCache.get_gate_host, umap_subscript. simpl.
  destruct (GateCache.gate_id_eqb (name, param) (name, param)) eqn:Hk.
  - by rewrite umap_find_modify.
  - rewrite (umap_find_modify_nonself _ _ gate_id_eqb_sym gate_id_eqb_trans) by done.
    by rewrite (umap_find_nonself _ gate_id_eqb_sym gate_id_eqb_trans) by done.
Qed.

(** X1. For a parameter other than NaN, [add_gate(name, param, matrix)]
    changes the cache at the key [(name, param)] only. Afterwards
    [gateExists] holds of a key exactly when the key equals [(name, param)]
    (equal strings and parameters that compare equal as floating-point
    numbers, so that 0.0 and -0.0 are one key) or it held before; and
    [get_gate_host] returns [matrix] at that key and, at every other key,
    what it returned before. *)
Theorem add_gate_changes_one_key (c : GateCache.t) (name : string) (param : float)
    (matrix : list GateCache.CFP_t) (name2 : string) (param2 : float) :
  PrimFloat.eqb param param = true →
  GateCache.gateExists name2 param2 (GateCache.add_gate name param matrix c)
  = (GateCache.gate_id_eqb (name, param) (name2, param2)
     || GateCache.gateExists name2 param2 c)
  ∧ (GateCache.get_gate_host name2 param2 (GateCache.add_gate name param matrix c)).2
    = (if GateCache.gate_id_eqb (name, param) (name2, param2) then matrix
       else (GateCache.get_gate_host name2 param2 c).2).
Proof.
  intros Hp.
  destruct (add_gate_find c name param matrix (name2, param2) Hp) as [Hh Hd].
  split.
  - unfold GateCache.gateExists. rewrite Hh, Hd.
    by destruct (GateCache.gate_id_eqb (name, param) (name2, param2)).
  - rewrite !get_gate_host_value, Hh.
    by destruct (GateCache.gate_id_eqb (name, param) (name2, param2)).
Qed.

Lemma add_gate_changes_one_key_witness :
  GateCache.gateExists "RX" (-0)
    (GateCache.add_gate "RX" 0 [(1, 0)%float]
       (GateCache.add_gate "RX" 0 [(0, 1)%float] (GateCache.empty Examples.dev0)))
  = true
  ∧ (GateCache.get_gate_host "RX" 0
       (GateCache.add_gate "RX" 0 [(1, 0)%float]
          (GateCache.add_gate "RX" 0 [(0, 1)%float] (GateCache.empty Examples.dev0)))).2
    = [(1, 0)%float].
Proof.
  split.
  - rewrite (proj1 (add_gate_changes_one_key _ "RX" 0 [(1, 0)%float] "RX" (-0) eq_refl)).
    reflexivity.
  - rewrite (proj2 (add_gate_changes_one_key _ "RX" 0 [(1, 0)%float] "RX" 0 eq_refl)).
    reflexivity.
Defined.

(** X2. For a parameter other than NaN, [add_gate] adds one entry to the
    host map and one to the device map when the key is new, and none when
    the key is present. In both cases it adds
    [sizeof(CFP_t) * matrix.size()], 16 bytes per element in double
    precision, to [total_alloc_bytes_], modulo 2^64: a gate that is
    overwritten is counted again. *)
Theorem add_gate_entries_and_bytes (c : GateCache.t) (name : string) (param : float)
    (matrix : list GateCache.CFP_t) :
  PrimFloat.eqb param param = true →
  length (GateCache.host_gates_ (GateCache.add_gate name param matrix c))
  = match umap_find GateCache.gate_id_eqb (name, param) (GateCache.host_gates_ c) with
    | Some _ => length (GateCache.host_gates_ c)
    | None => S (length (GateCache.host_gates_ c))
    end
  ∧ length (GateCache.device_gates_ (GateCache.add_gate name param matrix c))
    = match umap_find GateCache.gate_id_eqb (name, param) (GateCache.device_gates_ c) with
      | Some _ => length (GateCache.device_gates_ c)
      | None => S (length (GateCache.device_gates_ c))
      end
  ∧ GateCache.total_alloc_bytes_ (GateCache.add_gate name param matrix c)
    = wrap64 (GateCache.total_alloc_bytes_ c
              + wrap64 (16 * Z.of_nat (length matrix))).
Proof.
  intros Hp. pose proof (gate_id_eqb_refl name _ Hp) as Hk.
  unfold GateCache.add_gate, umap_subscript, umap_assign. simpl.
  rewrite !umap_find_modify by done. simpl.
  split; [| split; [| done]].
  - rewrite umap_modify_length by (rewrite umap_find_modify by done; by eexists).
    destruct (umap_find _ _ (GateCache.host_gates_ c)) eqn:E.
    + apply umap_modify_length. rewrite E. by eexists.
    + by apply umap_modify_length_None.
  - rewrite umap_modify_length by (rewrite umap_find_modify by done; by eexists).
    destruct (umap_find _ _ (GateCache.device_gates_ c)) eqn:E.
    + apply umap_modify_length. rewrite E. by eexists.
    + by apply umap_modify_length_None.
Qed.

Lemma add_gate_entries_and_bytes_witness :
  length (GateCache.host_gates_
            (GateCache.add_gate "RX" 0.5 [(1, 0)%float]
               (GateCache.add_gate "RX" 0.5 [(0, 1); (1, 0)]%float
                  (GateCache.empty Examples.dev0))))
  = 1%nat
  ∧ GateCache.total_alloc_bytes_
      (GateCache.add_gate "RX" 0.5 [(1, 0)%float]
         (GateCache.add_gate "RX" 0.5 [(0, 1); (1, 0)]%float
            (GateCache.empty Examples.dev0)))
    = 48.
Proof.
  destruct (add_gate_entries_and_bytes
              (GateCache.add_gate "RX" 0.5 [(0, 1); (1, 0)]%float
                 (GateCache.empty Examples.dev0))
              "RX" 0.5 [(1, 0)%float] eq_refl) as (Hh & _ & Hb).
  split; [rewrite Hh | rewrite Hb]; reflexivity.
Defined.

(** X3. The getters index the maps with [operator[]]. For a key (with a
    parameter other than NaN) that neither map holds, [get_gate_host]
    returns an empty vector and leaves it in the host map, after which
    [gateExists] is still false; [get_gate_device_ptr] then returns the
    data of a default-constructed buffer and leaves that buffer in the
    device map, after which [gateExists] holds of a gate that was never
    added. *)
Theorem reading_a_missing_gate_creates_it (c : GateCache.t) (name : string)
    (param : float) :
  PrimFloat.eqb param param = true →
  umap_find GateCache.gate_id_eqb (name, param) (GateCache.host_gates_ c) = None →
  umap_find GateCache.gate_id_eqb (name, param) (GateCache.device_gates_ c) = None →
  (GateCache.get_gate_host name param c).2 = []
  ∧ GateCache.gateExists name param (GateCache.get_gate_host name param c).1 = false
  ∧ (GateCache.get_gate_device_ptr name param (GateCache.get_gate_host name param c).1).2
    = GateCache.DataBuffer_default
  ∧ GateCache.gateExists name param
      (GateCache.get_gate_device_ptr name param
         (GateCache.get_gate_host name param c).1).1
    = true.
Proof.
  intros Hp Hh Hd. pose proof (gate_id_eqb_refl name _ Hp) as Hk.
  split; [by rewrite get_gate_host_value, Hh |].
  unfold GateCache.gateExists, GateCache.get_gate_device_ptr, GateCache.get_gate_host,
    umap_subscript. simpl.
  rewrite !umap_find_modify by done. rewrite Hh, Hd. simpl. done.
Qed.

Lemma reading_a_missing_gate_creates_it_witness :
  GateCache.gateExists "RX" 0.5 (GateCache.empty Examples.dev0) = false
  ∧ GateCache.gateExists "RX" 0.5
      (GateCache.get_gate_device_ptr "RX" 0.5
         (GateCache.get_gate_host "RX" 0.5 (GateCache.empty Examples.dev0)).1).1
    = true.
Proof.
  split; [reflexivity |].
  exact (proj2 (proj2 (proj2 (reading_a_missing_gate_creates_it
           (GateCache.empty Examples.dev0) "RX" 0.5 eq_refl eq_refl eq_refl)))).
Defined.


Section unordered_map_equal_keys.
Context {K V : Type} (keq : K → K → bool).
Hypothesis keq_sym : ∀ a b, keq a b = keq b a.
Hypothesis keq_trans : ∀ a b c, keq a b = true → keq b c = true → keq a c = true.

(** Equal keys find the same entry. *)
Lemma umap_find_equal_keys (k k2 : K) (m : list (K * V)) :
  keq k k2 = true → umap_find keq k m = umap_find keq k2 m.
Proof.
  intros Hk. induction m as [|[k' v] m IH]; simpl; [done |].
  destruct (keq k' k) eqn:E1, (keq k' k2) eqn:E2; try done.
  - by rewrite (keq_trans k' k k2) in E2.
  - rewrite (keq_trans k' k2 k) in E1; [done | done | by rewrite keq_sym].
Qed.
End unordered_map_equal_keys.

(** The buffer that mirrors a host vector on the device [dev]. *)
Lemma populate_device_spec (dev : DevTag)
    (entries : list (GateCache.gate_id * list GateCache.CFP_t)) :
  ∀ (device : list (GateCache.gate_id * GateCache.DataBuffer)) (total : Z),
    umap_wf GateCache.gate_id_eqb entries →
    (∀ k2,
       umap_find GateCache.gate_id_eqb k2
         (GateCache.populate_device dev entries device total).1
       = match umap_find GateCache.gate_id_eqb k2 entries with
         | Some v => Some (GateCache.mkDataBuffer (GateCache.vsize v) dev (Some v))
         | None => umap_find GateCache.gate_id_eqb k2 device
         end)
    ∧ (umap_wf GateCache.gate_id_eqb device →
       umap_wf GateCache.gate_id_eqb
         (GateCache.populate_device dev entries device total).1).
Proof.
  induction entries as [|[k v] rest IH]; intros device total; simpl; [done |].
  intros (Hk & Hfresh & Hwf).
  destruct (IH (umap_modify GateCache.gate_id_eqb GateCache.DataBuffer_default k
                  (GateCache.CopyHostDataToGpu v)
                  (umap_assign GateCache.gate_id_eqb GateCache.DataBuffer_default k
                     (GateCache.mkDataBuffer (GateCache.vsize v) dev None) device))
              (wrap64 (total + wrap64 (GateCache.sizeof_CFP_t * GateCache.vsize v)))
              Hwf) as [Hfind Hwf'].
  split.
  - intros k2. rewrite Hfind. unfold umap_assign.
    rewrite (umap_find_modify_other _ _ gate_id_eqb_sym gate_id_eqb_trans) by done.
    rewrite umap_find_modify by done.
    rewrite (umap_find_modify_other _ _ gate_id_eqb_sym gate_id_eqb_trans) by done.
    destruct (GateCache.gate_id_eqb k k2) eqn:E.
    + rewrite <- (umap_find_equal_keys _ gate_id_eqb_sym gate_id_eqb_trans k k2) by done.
      by rewrite Hfresh.
    + done.
  - intros Hd. apply Hwf'. unfold umap_assign.
    apply (umap_wf_modify _ _ gate_id_eqb_sym gate_id_eqb_trans); [done |].
    by apply (umap_wf_modify _ _ gate_id_eqb_sym gate_id_eqb_trans).
Qed.

Lemma default_host_SWAP (u : GateCache.cuUtil)
    (host : list (GateCache.gate_id * list GateCache.CFP_t)) :
  umap_find GateCache.gate_id_eqb ("SWAP"%string, 0%float) (default_host u host)
  = Some [GateCache.ONE u; GateCache.ZERO u; GateCache.ZERO u; GateCache.ZERO u;
          GateCache.ZERO u; GateCache.ZERO u; GateCache.ONE u; GateCache.ZERO u;
          GateCache.ZERO u; GateCache.ONE u; GateCache.ZERO u; GateCache.ZERO u;
          GateCache.ZERO u; GateCache.ZERO u; GateCache.ZERO u; GateCache.ONE u].
Proof.
  unfold default_host, umap_assign. simpl.
  by rewrite !(umap_find_modify_other _ _ gate_id_eqb_sym gate_id_eqb_trans) by done.
Qed.

Lemma default_host_wf (u : GateCache.cuUtil)
    (host : list (GateCache.gate_id * list GateCache.CFP_t)) :
  umap_wf GateCache.gate_id_eqb host →
  umap_wf GateCache.gate_id_eqb (default_host u host).
Proof.
  intros Hwf. unfold default_host, umap_assign. simpl.
  repeat (apply (umap_wf_modify _ _ gate_id_eqb_sym gate_id_eqb_trans); [done |]).
  done.
Qed.

(** What a lookup finds in the host map once [defaultPopulateCache] has
    made its assignments, including the one of [CSWAP]. *)
Lemma default_host_present (u : GateCache.cuUtil)
    (host : list (GateCache.gate_id * list GateCache.CFP_t)) (swap : list GateCache.CFP_t)
    (n : string) (p : float) :
  is_Some (umap_find GateCache.gate_id_eqb (n, p)
             (umap_assign GateCache.gate_id_eqb [] ("CSWAP"%string, 0%float) swap
                (default_host u host)))
  ↔ (n ∈ GateCache.default_gate_names ∧ PrimFloat.eqb 0 p = true)
    ∨ is_Some (umap_find GateCache.gate_id_eqb (n, p) host).
Proof.
  unfold default_host, umap_assign. simpl.
  rewrite !(umap_find_modify_other _ _ gate_id_eqb_sym gate_id_eqb_trans) by done.
  unfold GateCache.gate_id_eqb, GateCache.default_gate_names. cbn [fst snd].
  destruct (PrimFloat.eqb 0 p) eqn:Ep.
  - rewrite ?andb_true_r.
    repeat match goal with
           | |- context [String.eqb ?s n] =>
               destruct (String.eqb_spec s n) as [<- | ?];
               [split; [intros _; left; split; [set_solver | done]
                       | intros _; vm_compute; by eexists] |]
           end.
    split; [by right |]. intros [[Hn _] | H]; [| done].
    repeat (apply elem_of_cons in Hn as [-> | Hn]; [done |]).
    by apply elem_of_nil in Hn.
  - rewrite ?andb_false_r. split; [by right |]. by intros [[_ ?] | H].
Qed.

Lemma defaultPopulateCache_ok (u : GateCache.cuUtil) (c : GateCache.t) :
  GateCache.keys_unique c →
  ∃ c', GateCache.defaultPopulateCache u c = Ok c'
        ∧ GateCache.keys_unique c' ∧ GateCache.mirrored c'.
Proof.
  intros [Hh Hd]. unfold GateCache.defaultPopulateCache.
  fold (default_host u (GateCache.host_gates_ c)).
  rewrite default_host_SWAP.
  match goal with
  | |- context [GateCache.populate_device ?dev ?entries ?device ?total] =>
      destruct (populate_device_spec dev entries device total) as [Hfind Hwf];
      [| destruct (GateCache.populate_device dev entries device total)
           as [device' total'] eqn:Epop]
  end.
  { apply (umap_wf_modify _ _ gate_id_eqb_sym gate_id_eqb_trans); [done |].
    by apply default_host_wf. }
  eexists. split; [done |]. simpl in Hfind, Hwf. split.
  - split; simpl; [| by apply Hwf].
    apply (umap_wf_modify _ _ gate_id_eqb_sym gate_id_eqb_trans); [done |].
    by apply default_host_wf.
  - intros k2 v. simpl. intros Hv. by rewrite Hfind, Hv.
Qed.

(** X4. The invariant of the cache: no key occurs twice in a map, and
    every host entry has a device entry that holds a copy of the same
    values, in a buffer of the same size on the device of the cache. The
    cache that the constructor builds without population satisfies it,
    [add_gate] with a parameter other than NaN preserves it, and
    [defaultPopulateCache], on a cache without repeated keys, returns
    normally (its [at] finds the SWAP matrix stored just before) and
    establishes it. *)
Theorem GateCache_invariant (u : GateCache.cuUtil) :
  (∀ dev, GateCache.keys_unique (GateCache.empty dev)
          ∧ GateCache.mirrored (GateCache.empty dev))
  ∧ (∀ c name param matrix,
       PrimFloat.eqb param param = true →
       GateCache.keys_unique c → GateCache.mirrored c →
       GateCache.keys_unique (GateCache.add_gate name param matrix c)
       ∧ GateCache.mirrored (GateCache.add_gate name param matrix c))
  ∧ (∀ c,
       GateCache.keys_unique c →
       ∃ c', GateCache.defaultPopulateCache u c = Ok c'
             ∧ GateCache.keys_unique c' ∧ GateCache.mirrored c').
Proof.
  split; [| split].
  - intros dev. by repeat split.
  - intros c name param matrix Hp [Hh Hd] Hm.
    pose proof (gate_id_eqb_refl name _ Hp) as Hk. split.
    + unfold GateCache.keys_unique, GateCache.add_gate, umap_subscript, umap_assign.
      simpl.
      split; (apply (umap_wf_modify _ _ gate_id_eqb_sym gate_id_eqb_trans); [done |]);
        by apply (umap_wf_modify _ _ gate_id_eqb_sym gate_id_eqb_trans).
    + intros k2 v.
      destruct (add_gate_find c name param matrix k2 Hp) as [-> ->].
      replace (GateCache.device_tag_ (GateCache.add_gate name param matrix c))
        with (GateCache.device_tag_ c) by done.
      destruct (GateCache.gate_id_eqb (name, param) k2); [by intros [= ->] | apply Hm].
  - apply defaultPopulateCache_ok.
Qed.

Lemma GateCache_invariant_witness :
  GateCache.mirrored
    (GateCache.add_gate "RX" 0.5 [(1, 0)%float] (GateCache.empty Examples.dev0)).
Proof.
  apply (proj1 (proj2 (GateCache_invariant
                         cuUtil_double))
           (GateCache.empty Examples.dev0) "RX"%string 0.5%float [(1, 0)%float] eq_refl).
  - by repeat split.
  - by intros k v.
Defined.

(** X5. After [defaultPopulateCache], [gateExists(n, p)] holds exactly
    when [n] is one of the twelve default names and [p] compares equal to
    0.0, or the host map held the key before the call. The constructor with
    [populate = true] builds a cache of twelve host and twelve device
    entries that account for 1152 bytes, in which CSWAP holds the 4x4 matrix
    of SWAP and CNOT holds the 2x2 matrix of PauliX. *)
Theorem defaultPopulateCache_gates (u : GateCache.cuUtil) :
  (∀ c c' n p,
     GateCache.keys_unique c →
     GateCache.defaultPopulateCache u c = Ok c' →
     (GateCache.gateExists n p c' = true
      ↔ (n ∈ GateCache.default_gate_names ∧ PrimFloat.eqb 0 p = true)
        ∨ is_Some (umap_find GateCache.gate_id_eqb (n, p) (GateCache.host_gates_ c))))
  ∧ (∀ dev,
       ∃ c, GateCache.GateCache_new u true dev = Ok c
            ∧ length (GateCache.host_gates_ c) = 12%nat
            ∧ length (GateCache.device_gates_ c) = 12%nat
            ∧ GateCache.total_alloc_bytes_ c = 1152
            ∧ (GateCache.get_gate_host "CSWAP" 0 c).2
              = (GateCache.get_gate_host "SWAP" 0 c).2
            ∧ (GateCache.get_gate_host "CNOT" 0 c).2
              = (GateCache.get_gate_host "PauliX" 0 c).2).
Proof.
  split.
  - intros c c' n p Hu Hrun.
    destruct (defaultPopulateCache_ok u c Hu) as (c2 & Hrun2 & _ & Hm).
    rewrite Hrun in Hrun2. injection Hrun2 as <-.
    unfold GateCache.gateExists. rewrite andb_true_iff, !bool_decide_eq_true.
    assert (Hhost : GateCache.host_gates_ c'
                    = umap_assign GateCache.gate_id_eqb [] ("CSWAP"%string, 0%float)
                        [GateCache.ONE u; GateCache.ZERO u; GateCache.ZERO u;
                         GateCache.ZERO u; GateCache.ZERO u; GateCache.ZERO u;
                         GateCache.ONE u; GateCache.ZERO u; GateCache.ZERO u;
                         GateCache.ONE u; GateCache.ZERO u; GateCache.ZERO u;
                         GateCache.ZERO u; GateCache.ZERO u; GateCache.ZERO u;
                         GateCache.ONE u]
                        (default_host u (GateCache.host_gates_ c))).
    { unfold GateCache.defaultPopulateCache in Hrun.
      fold (default_host u (GateCache.host_gates_ c)) in Hrun.
      rewrite default_host_SWAP in Hrun.
      destruct (GateCache.populate_device _ _ _ _). by injection Hrun as <-. }
    rewrite <- default_host_present, <- Hhost. split; [tauto |].
    intros [v Hv]. split; [by eexists |]. rewrite (Hm _ _ Hv). by eexists.
  - intros dev. eexists. split; [vm_compute; reflexivity |].
    repeat split; vm_compute; reflexivity.
Qed.

Lemma defaultPopulateCache_gates_witness :
  ∃ c, GateCache.GateCache_new cuUtil_double true Examples.dev0 = Ok c
       ∧ GateCache.gateExists "Toffoli" (-0) c = true
       ∧ GateCache.gateExists "RX" 0 c = false.
Proof.
  assert (Hwf : GateCache.keys_unique (GateCache.empty Examples.dev0))
    by (by repeat split).
  destruct (defaultPopulateCache_ok cuUtil_double _ Hwf) as (c & Hrun & _).
  exists c. split; [exact Hrun |].
  pose proof (proj1 (defaultPopulateCache_gates cuUtil_double)
                (GateCache.empty Examples.dev0) c) as Hiff.
  split.
  - apply (Hiff "Toffoli"%string (-0)%float Hwf Hrun).
    left. split; [| reflexivity].
    unfold GateCache.default_gate_names. set_solver.
  - destruct (GateCache.gateExists "RX" 0 c) eqn:E; [| done].
    apply (Hiff "RX"%string 0%float Hwf Hrun) in E.
    destruct E as [[Hin _] | [v Hv]]; [| done].
    unfold GateCache.default_gate_names in Hin.
    repeat (apply elem_of_cons in Hin as [Hin | Hin]; [done |]).
    by apply elem_of_nil in Hin.
Defined.


(** * Further properties: the observables *)

Lemma operator_eq_TensorProd (o1 o2 : list ObservableGPU) (w1 w2 : list N) :
  operator_eq (TensorProdObsGPU o1 w1) (TensorProdObsGPU o2 w2)
  = if negb (length o1 =? length o2)%nat then false
    else isEqual_loop operator_eq o1 o2.
Proof.
  simpl. destruct (negb _); [done |].
  revert o2. induction o1 as [|x o1 IH]; intros [|y o2]; simpl; try done.
  destruct (negb (operator_eq x y)); [done | apply IH].
Qed.

Lemma operator_eq_Hamiltonian (c1 c2 : list float) (o1 o2 : list ObservableGPU) :
  operator_eq (HamiltonianGPU c1 o1) (HamiltonianGPU c2 o2)
  = if negb (vec_eqb PrimFloat.eqb c1 c2) then false
    else isEqual_loop operator_eq o1 o2.
Proof.
  simpl. destruct (negb _); [done |].
  revert o2. induction o1 as [|x o1 IH]; intros [|y o2]; simpl; try done.
  destruct (negb (operator_eq x y)); [done | apply IH].
Qed.

Lemma constructed_TensorProd (obs : list ObservableGPU) (aw : list N) :
  constructed (TensorProdObsGPU obs aw)
  ↔ TensorProdObsGPU_new obs = Ok (TensorProdObsGPU obs aw) ∧ Forall constructed obs.
Proof.
  simpl. apply and_iff_compat_l.
  induction obs as [|x obs IH]; [by split |].
  rewrite Forall_cons. by rewrite IH.
Qed.

Lemma constructed_Hamiltonian (cs : list float) (obs : list ObservableGPU) :
  constructed (HamiltonianGPU cs obs)
  ↔ length cs = length obs ∧ Forall constructed obs.
Proof.
  simpl. apply and_iff_compat_l.
  induction obs as [|x obs IH]; [by split |].
  rewrite Forall_cons. by rewrite IH.
Qed.

Lemma nan_free_TensorProd (obs : list ObservableGPU) (aw : list N) :
  nan_free (TensorProdObsGPU obs aw) ↔ Forall nan_free obs.
Proof.
  simpl. induction obs as [|x obs IH]; [by split |].
  rewrite Forall_cons. by rewrite IH.
Qed.

Lemma nan_free_Hamiltonian (cs : list float) (obs : list ObservableGPU) :
  nan_free (HamiltonianGPU cs obs)
  ↔ Forall (λ x, PrimFloat.eqb x x = true) cs ∧ Forall nan_free obs.
Proof.
  simpl. apply and_iff_compat_l.
  induction obs as [|x obs IH]; [by split |].
  rewrite Forall_cons. by rewrite IH.
Qed.

Lemma vec_eqb_diag {A : Type} (eqb : A → A → bool) (l : list A) :
  vec_eqb eqb l l = true ↔ Forall (λ x, eqb x x = true) l.
Proof.
  induction l as [|x l IH]; simpl; [by split |].
  by rewrite andb_true_iff, Forall_cons, IH.
Qed.

Lemma vec_eqb_sym {A : Type} (eqb : A → A → bool) (l1 l2 : list A) :
  (∀ x y, eqb x y = eqb y x) → vec_eqb eqb l1 l2 = vec_eqb eqb l2 l1.
Proof.
  intros Hs. revert l2. induction l1 as [|x l1 IH]; intros [|y l2]; simpl; try done.
  by rewrite Hs, IH.
Qed.

Lemma vec_eqb_length {A : Type} (eqb : A → A → bool) (l1 l2 : list A) :
  vec_eqb eqb l1 l2 = true → length l1 = length l2.
Proof.
  revert l2. induction l1 as [|x l1 IH]; intros [|y l2]; simpl; try done.
  intros [_ H]%andb_true_iff. f_equal. by apply IH.
Qed.

Lemma isEqual_loop_diag (l : list ObservableGPU) :
  Forall (λ x, operator_eq x x = true ↔ nan_free x) l →
  isEqual_loop operator_eq l l = true ↔ Forall nan_free l.
Proof.
  induction 1 as [|x l Hx _ IH]; simpl; [by split |].
  rewrite Forall_cons, <- Hx, <- IH.
  destruct (operator_eq x x); simpl; naive_solver.
Qed.

(** X6. An observable compares equal to itself exactly when no NaN occurs
    in it: in the parameters of a named observable, in the matrix of a
    Hermitian observable or in the coefficients of a Hamiltonian, at any
    depth of nesting. *)
Theorem operator_eq_self (o : ObservableGPU) :
  operator_eq o o = true ↔ nan_free o.
Proof.
  induction o as [n w p|m w|obs aw IH|cs obs IH] using ObservableGPU_nested_ind.
  - simpl. rewrite !andb_true_iff, String.eqb_eq, vec_eqb_N, vec_eqb_diag. naive_solver.
  - simpl. rewrite !andb_true_iff, vec_eqb_N, vec_eqb_diag. naive_solver.
  - rewrite operator_eq_TensorProd, nan_free_TensorProd, Nat.eqb_refl. simpl.
    by apply isEqual_loop_diag.
  - rewrite operator_eq_Hamiltonian, nan_free_Hamiltonian.
    rewrite <- (isEqual_loop_diag obs IH), <- vec_eqb_diag.
    destruct (vec_eqb PrimFloat.eqb cs cs); simpl; naive_solver.
Qed.

Lemma complex_eqb_sym (a b : complex) : complex_eqb a b = complex_eqb b a.
Proof. unfold complex_eqb. by rewrite (float_eqb_sym a.1), (float_eqb_sym a.2). Qed.

Lemma isEqual_loop_sym (l1 l2 : list ObservableGPU) :
  length l1 = length l2 →
  Forall (λ x, constructed x → ∀ y, constructed y → operator_eq x y = operator_eq y x) l1 →
  Forall constructed l1 → Forall constructed l2 →
  isEqual_loop operator_eq l1 l2 = isEqual_loop operator_eq l2 l1.
Proof.
  intros Hlen Hall. revert l2 Hlen.
  induction Hall as [|x l1 Hx _ IH]; intros [|y l2] Hlen H1 H2; simpl in *; try done.
  apply Forall_cons in H1 as [Hcx H1]. apply Forall_cons in H2 as [Hcy H2].
  rewrite (Hx Hcx y Hcy). destruct (negb (operator_eq y x)); [done |].
  apply IH; [lia | done | done].
Qed.

Lemma isEqual_loop_trans (l1 l2 l3 : list ObservableGPU) :
  length l1 = length l2 → length l2 = length l3 →
  Forall (λ x, ∀ y z, operator_eq x y = true → operator_eq y z = true →
                      operator_eq x z = true) l1 →
  isEqual_loop operator_eq l1 l2 = true → isEqual_loop operator_eq l2 l3 = true →
  isEqual_loop operator_eq l1 l3 = true.
Proof.
  intros H12 H23 Hall. revert l2 l3 H12 H23.
  induction Hall as [|x l1 Hx _ IH]; intros [|y l2] [|z l3] H12 H23; simpl in *;
    try done.
  destruct (operator_eq x y) eqn:Exy; simpl; [| done].
  destruct (operator_eq y z) eqn:Eyz; simpl; [| done].
  rewrite (Hx y z Exy Eyz). simpl. apply IH; lia.
Qed.

Lemma vec_eqb_trans {A : Type} (eqb : A → A → bool) (l1 l2 l3 : list A) :
  (∀ x y z, eqb x y = true → eqb y z = true → eqb x z = true) →
  vec_eqb eqb l1 l2 = true → vec_eqb eqb l2 l3 = true → vec_eqb eqb l1 l3 = true.
Proof.
  intros Ht. revert l2 l3.
  induction l1 as [|x l1 IH]; intros [|y l2] [|z l3]; simpl; try done.
  rewrite !andb_true_iff. intros [Hxy H12] [Hyz H23]. split; [by eapply Ht | by eapply IH].
Qed.

Lemma complex_eqb_trans (a b c : complex) :
  complex_eqb a b = true → complex_eqb b c = true → complex_eqb a c = true.
Proof.
  unfold complex_eqb. rewrite !andb_true_iff. intros [H1 H2] [H3 H4].
  split; by eapply float_eqb_trans.
Qed.

Lemma operator_eq_trans (a : ObservableGPU) :
  ∀ b c, constructed a → constructed b → constructed c →
         operator_eq a b = true → operator_eq b c = true → operator_eq a c = true.
Proof.
  induction a as [n w p|m w|obs aw IH|cs obs IH] using ObservableGPU_nested_ind;
    intros [n2 w2 p2|m2 w2|obs2 aw2|cs2 obs2] [n3 w3 p3|m3 w3|obs3 aw3|cs3 obs3];
    try done; intros Ha Hb Hc.
  - simpl. rewrite !andb_true_iff, !String.eqb_eq, !vec_eqb_N.
    intros [[-> ->] H1] [[-> ->] H2]. split; [done |].
    eapply vec_eqb_trans; [apply float_eqb_trans | done..].
  - simpl. rewrite !andb_true_iff, !vec_eqb_N.
    intros [H1 ->] [H2 ->]. split; [| done].
    eapply vec_eqb_trans; [apply complex_eqb_trans | done..].
  - rewrite !operator_eq_TensorProd.
    destruct (length obs =? length obs2)%nat eqn:E12; simpl; [| done].
    destruct (length obs2 =? length obs3)%nat eqn:E23; simpl; [| done].
    apply Nat.eqb_eq in E12, E23.
    rewrite (proj2 (Nat.eqb_eq _ _) (eq_trans E12 E23)). simpl.
    apply constructed_TensorProd in Ha as [_ Ha], Hb as [_ Hb], Hc as [_ Hc].
    revert obs2 obs3 E12 E23 Hb Hc.
    induction IH as [|x obs Hx _ IHl]; intros [|y l2] [|z l3] E12 E23 Hb Hc;
      simpl in *; try done.
    apply Forall_cons in Ha as [Hcx Ha], Hb as [Hcy Hb], Hc as [Hcz Hc].
    destruct (operator_eq x y) eqn:Exy; simpl; [| done].
    destruct (operator_eq y z) eqn:Eyz; simpl; [| done].
    rewrite (Hx y z Hcx Hcy Hcz Exy Eyz). simpl. apply IHl; [done | lia | lia | done..].
  - rewrite !operator_eq_Hamiltonian.
    destruct (vec_eqb PrimFloat.eqb cs cs2) eqn:E12; simpl; [| done].
    destruct (vec_eqb PrimFloat.eqb cs2 cs3) eqn:E23; simpl; [| done].
    rewrite (vec_eqb_trans _ _ _ _ float_eqb_trans E12 E23). simpl.
    apply vec_eqb_length in E12, E23.
    apply constructed_Hamiltonian in Ha as [La Ha], Hb as [Lb Hb], Hc as [Lc Hc].
    assert (L12 : length obs = length obs2) by congruence.
    assert (L23 : length obs2 = length obs3) by congruence.
    clear La Lb Lc E12 E23.
    revert obs2 obs3 L12 L23 Hb Hc.
    induction IH as [|x obs Hx _ IHl]; intros [|y l2] [|z l3] E12 E23 Hb Hc;
      simpl in *; try done.
    apply Forall_cons in Ha as [Hcx Ha], Hb as [Hcy Hb], Hc as [Hcz Hc].
    destruct (operator_eq x y) eqn:Exy; simpl; [| done].
    destruct (operator_eq y z) eqn:Eyz; simpl; [| done].
    rewrite (Hx y z Hcx Hcy Hcz Exy Eyz). simpl. apply IHl; [done | lia | lia | done..].
Qed.

Lemma operator_eq_sym (a : ObservableGPU) :
  constructed a → ∀ b, constructed b → operator_eq a b = operator_eq b a.
Proof.
  induction a as [n w p|m w|obs aw IH|cs obs IH] using ObservableGPU_nested_ind;
    intros Ha [n2 w2 p2|m2 w2|obs2 aw2|cs2 obs2] Hb; try done.
  - simpl. by rewrite String.eqb_sym, (vec_eqb_sym N.eqb w w2 N.eqb_sym),
      (vec_eqb_sym PrimFloat.eqb p p2 float_eqb_sym).
  - simpl. by rewrite (vec_eqb_sym N.eqb w w2 N.eqb_sym),
      (vec_eqb_sym complex_eqb m m2 complex_eqb_sym).
  - rewrite !operator_eq_TensorProd, (Nat.eqb_sym (length obs2)).
    destruct (length obs =? length obs2)%nat eqn:E; simpl; [| done].
    apply Nat.eqb_eq in E.
    apply constructed_TensorProd in Ha as [_ Ha], Hb as [_ Hb].
    by apply isEqual_loop_sym.
  - rewrite !operator_eq_Hamiltonian,
      (vec_eqb_sym PrimFloat.eqb cs2 cs float_eqb_sym).
    destruct (vec_eqb PrimFloat.eqb cs cs2) eqn:E; simpl; [| done].
    apply vec_eqb_length in E.
    apply constructed_Hamiltonian in Ha as [La Ha], Hb as [Lb Hb].
    apply isEqual_loop_sym; [congruence | done..].
Qed.

(** X7. On observables built by the constructors (tensor products with
    disjoint wires, Hamiltonians with as many coefficients as terms)
    [operator==] is symmetric and transitive, and an observable that
    compares equal to some observable compares equal to itself. *)
Theorem operator_eq_partial_equivalence (a b c : ObservableGPU) :
  constructed a → constructed b → constructed c →
  operator_eq a b = operator_eq b a
  ∧ (operator_eq a b = true → operator_eq b c = true → operator_eq a c = true)
  ∧ (operator_eq a b = true → operator_eq a a = true ∧ operator_eq b b = true).
Proof.
  intros Ha Hb Hc. split; [by apply operator_eq_sym |].
  split; [by apply operator_eq_trans |].
  intros Hab. assert (Hba : operator_eq b a = true) by by rewrite <- operator_eq_sym.
  split; [by apply (operator_eq_trans a b a) | by apply (operator_eq_trans b a b)].
Qed.

Lemma operator_eq_partial_equivalence_witness :
  operator_eq (HamiltonianGPU [0.5%float] [Examples.PauliZ_obs 0])
              (HamiltonianGPU [0.5%float] [Examples.PauliZ_obs 0]) = true.
Proof.
  refine (proj1 (proj2 (proj2 (operator_eq_partial_equivalence
            (HamiltonianGPU [0.5%float] [Examples.PauliZ_obs 0])
            (HamiltonianGPU [0.5%float] [Examples.PauliZ_obs 0])
            (HamiltonianGPU [0.5%float] [Examples.PauliZ_obs 0]) _ _ _)) _));
    try (by repeat split); reflexivity.
Defined.


Lemma isEqual_loop_wires (l1 l2 : list ObservableGPU) :
  length l1 = length l2 →
  Forall (λ x, constructed x → ∀ y, constructed y → operator_eq x y = true →
               getWires x = getWires y) l1 →
  Forall constructed l1 → Forall constructed l2 →
  isEqual_loop operator_eq l1 l2 = true →
  map getWires l1 = map getWires l2.
Proof.
  intros Hlen Hall. revert l2 Hlen.
  induction Hall as [|x l1 Hx _ IH]; intros [|y l2] Hlen H1 H2; simpl in *; try done.
  apply Forall_cons in H1 as [Hcx H1]. apply Forall_cons in H2 as [Hcy H2].
  destruct (operator_eq x y) eqn:Exy; simpl; [| done].
  intros Hloop. f_equal; [by apply Hx | apply IH; [lia | done..]].
Qed.

Lemma TensorProdObsGPU_new_wires (obs1 obs2 : list ObservableGPU) (aw1 aw2 : list N) :
  map getWires obs1 = map getWires obs2 →
  TensorProdObsGPU_new obs1 = Ok (TensorProdObsGPU obs1 aw1) →
  TensorProdObsGPU_new obs2 = Ok (TensorProdObsGPU obs2 aw2) →
  aw1 = aw2.
Proof.
  unfold TensorProdObsGPU_new. rewrite !check_obs_wires_concat. intros ->.
  destruct (check_ob_wires _ _); simpl; [| done]. by intros [= <-] [= <-].
Qed.

(** X8. Observables built by the constructors that compare equal with
    [operator==] return the same vector from [getWires()]. *)
Theorem equal_observables_same_wires (a : ObservableGPU) :
  ∀ b, constructed a → constructed b → operator_eq a b = true →
       getWires a = getWires b.
Proof.
  induction a as [n w p|m w|obs aw IH|cs obs IH] using ObservableGPU_nested_ind;
    intros [n2 w2 p2|m2 w2|obs2 aw2|cs2 obs2]; try done; intros Ha Hb.
  - simpl. rewrite !andb_true_iff, vec_eqb_N. naive_solver.
  - simpl. rewrite !andb_true_iff, vec_eqb_N. naive_solver.
  - rewrite operator_eq_TensorProd.
    destruct (length obs =? length obs2)%nat eqn:E; simpl; [| done].
    apply Nat.eqb_eq in E. intros Hloop.
    apply constructed_TensorProd in Ha as [Hnew1 Ha], Hb as [Hnew2 Hb].
    simpl. eapply TensorProdObsGPU_new_wires; [| done..].
    apply isEqual_loop_wires; [done | | done..].
    eapply Forall_impl; [exact IH |]. simpl. intros x Hx Hcx y Hcy. by apply Hx.
  - rewrite operator_eq_Hamiltonian.
    destruct (vec_eqb PrimFloat.eqb cs cs2) eqn:E; simpl; [| done].
    apply vec_eqb_length in E. intros Hloop.
    apply constructed_Hamiltonian in Ha as [La Ha], Hb as [Lb Hb].
    f_equal. f_equal. f_equal.
    apply isEqual_loop_wires; [congruence | | done..].
    eapply Forall_impl; [exact IH |]. simpl. intros x Hx Hcx y Hcy. by apply Hx.
Qed.

Lemma equal_observables_same_wires_witness :
  getWires (HamiltonianGPU [0.5%float] [Examples.PauliZ_obs 0])
  = getWires (HamiltonianGPU [0.5%float] [NamedObsGPU "PauliZ" [0%N] []]).
Proof.
  apply (equal_observables_same_wires
           (HamiltonianGPU [0.5%float] [Examples.PauliZ_obs 0])
           (HamiltonianGPU [0.5%float] [NamedObsGPU "PauliZ" [0%N] []]));
    try (by repeat split); reflexivity.
Defined.

Lemma elem_of_union_wires (w : N) (ls : list (list N)) (s : gset N) :
  w ∈ foldl (λ acc ob_wires, acc ∪ list_to_set ob_wires) s ls
  ↔ w ∈ s ∨ ∃ l, l ∈ ls ∧ w ∈ l.
Proof.
  revert s. induction ls as [|l ls IH]; intros s; simpl.
  - split; [by left | intros [H | (l & Hl & _)]; [done | by apply elem_of_nil in Hl]].
  - rewrite IH, elem_of_union, elem_of_list_to_set. split.
    + intros [[H | H] | (l' & Hl' & Hw)]; [by left | right; exists l | right; exists l'];
        (split; [| done]); [by left | by right].
    + intros [H | (l' & Hl' & Hw)]; [by left; left |].
      apply elem_of_cons in Hl' as [-> | Hl']; [by left; right | right; by exists l'].
Qed.

(** X9. The constructor of the Hamiltonian succeeds exactly when there are
    as many coefficients as terms, and fails by the assertion otherwise.
    [getWires()] of a Hamiltonian is strictly ascending and holds exactly
    the wires of its terms; unlike the tensor product, terms may share
    wires. *)
Theorem Hamiltonian_construction (coeffs : list float) (obs : list ObservableGPU) :
  (HamiltonianGPU_new coeffs obs = Ok (HamiltonianGPU coeffs obs)
   ↔ length coeffs = length obs)
  ∧ (is_Err (HamiltonianGPU_new coeffs obs) ↔ length coeffs ≠ length obs)
  ∧ StronglySorted N.lt (getWires (HamiltonianGPU coeffs obs))
  ∧ (∀ w, w ∈ getWires (HamiltonianGPU coeffs obs)
          ↔ ∃ ob, ob ∈ obs ∧ w ∈ getWires ob).
Proof.
  unfold HamiltonianGPU_new, is_Err. split; [| split; [| split; [| split]]].
  - case_bool_decide; naive_solver.
  - case_bool_decide; [| by split; [| eexists]].
    split; [by intros [e He] | done].
  - simpl. apply sort_wires_sorted, NoDup_elements.
  - simpl. rewrite elem_of_sort_wires, elem_of_elements, elem_of_union_wires.
    intros [H | (l & Hl & Hw)]; [set_solver |].
    apply list_elem_of_fmap in Hl as (ob & -> & Hob). by exists ob.
  - simpl. rewrite elem_of_sort_wires, elem_of_elements, elem_of_union_wires.
    intros (ob & Hob & Hw). right. exists (getWires ob). split; [| done].
    apply list_elem_of_fmap. by exists ob.
Qed.


(** X10. [applyInPlace] never changes the device of the state vector. A
    tensor product applies its members one after the other to the same
    state, so that the product over [l1 ++ l2] acts as the product over
    [l1] followed by the product over [l2], and a product of one member acts
    as that member; the vector of wires plays no part. A Hamiltonian
    applies every term to a fresh copy of the input state and accumulates
    the results: without terms the result is the zero-filled state, and a
    further term [c, ob] adds [c] times [ob] applied to the input state to
    what the other terms gave. *)
Theorem applyInPlace_structure {B : Backend} (sv : StateVectorCudaManaged B) :
  (∀ o, getDevTag (applyInPlace o sv) = getDevTag sv)
  ∧ (∀ l1 l2 w w1 w2,
       applyInPlace (TensorProdObsGPU (l1 ++ l2) w) sv
       = applyInPlace (TensorProdObsGPU l2 w2) (applyInPlace (TensorProdObsGPU l1 w1) sv))
  ∧ (∀ ob w, applyInPlace (TensorProdObsGPU [ob] w) sv = applyInPlace ob sv)
  ∧ getData (applyInPlace (HamiltonianGPU [] []) sv) = amp_zeros B (getLength sv)
  ∧ (∀ cs obs c ob,
       length cs = length obs →
       getData (applyInPlace (HamiltonianGPU (cs ++ [c]) (obs ++ [ob])) sv)
       = scaleAndAddC_CUDA B (c, 0%float) (getData (applyInPlace ob sv))
           (getData (applyInPlace (HamiltonianGPU cs obs) sv))).
Proof.
  split; [| split; [| split; [| split]]].
  - intros o. apply applyInPlace_DevTag.
  - intros l1 l2 w w1 w2. simpl. clear w w1 w2. revert sv.
    induction l1 as [|x l1 IH]; intros sv; simpl; [done | apply IH].
  - done.
  - done.
  - intros cs obs c ob Hlen. simpl. generalize (amp_zeros B (getLength sv)).
    revert obs Hlen. induction cs as [|c1 cs IH]; intros [|o1 obs] Hlen d;
      simpl in *; try done.
    apply IH. lia.
Qed.

Lemma applyInPlace_structure_witness :
  getData (applyInPlace
             (HamiltonianGPU [0.5; 0.25]%float [Examples.PauliZ_obs 0; Examples.PauliZ_obs 1])
             (lambda Examples.s0))
  = scaleAndAddC_CUDA Recording.backend (0.25, 0)%float
      (getData (applyInPlace (Examples.PauliZ_obs 1) (lambda Examples.s0)))
      (getData (applyInPlace (HamiltonianGPU [0.5%float] [Examples.PauliZ_obs 0])
                  (lambda Examples.s0))).
Proof.
  apply (proj2 (proj2 (proj2 (proj2 (applyInPlace_structure (lambda Examples.s0)))))
           [0.5%float] [Examples.PauliZ_obs 0] 0.25%float (Examples.PauliZ_obs 1)).
  reflexivity.
Defined.

(** * Further properties: the generator registry *)

Lemma generator_map_elem (name : string) (g : GeneratorFunc) :
  generator_map !! name = Some g →
  (name, g) ∈
    [ ("RX", applyGeneratorRX_GPU);
      ("RY", applyGeneratorRY_GPU);
      ("RZ", applyGeneratorRZ_GPU);
      ("IsingXX", applyGeneratorIsingXX_GPU);
      ("IsingYY", applyGeneratorIsingYY_GPU);
      ("IsingZZ", applyGeneratorIsingZZ_GPU);
      ("CRX", applyGeneratorCRX_GPU);
      ("CRY", applyGeneratorCRY_GPU);
      ("CRZ", applyGeneratorCRZ_GPU);
      ("PhaseShift", applyGeneratorPhaseShift_GPU);
      ("ControlledPhaseShift", applyGeneratorControlledPhaseShift_GPU);
      ("SingleExcitation", applyGeneratorSingleExcitation_GPU);
      ("SingleExcitationMinus", applyGeneratorSingleExcitationMinus_GPU);
      ("SingleExcitationPlus", applyGeneratorSingleExcitationPlus_GPU);
      ("DoubleExcitation", applyGeneratorDoubleExcitation_GPU);
      ("DoubleExcitationMinus", applyGeneratorDoubleExcitationMinus_GPU);
      ("DoubleExcitationPlus", applyGeneratorDoubleExcitationPlus_GPU);
      ("MultiRZ", applyGeneratorMultiRZ_GPU) ]%string.
Proof. apply elem_of_list_to_map_2. Qed.

Lemma registries_same_names :
  dom generator_map = dom scaling_factors.
Proof. unfold generator_map, scaling_factors. by rewrite !dom_list_to_map_L. Qed.

Ltac eval_registry :=
  repeat match goal with
  | |- context [generator_map !! ?name] =>
      let r := eval vm_compute in (generator_map !! name) in
      change (generator_map !! name) with r
  | |- context [scaling_factors !! ?name] =>
      let r := eval vm_compute in (scaling_factors !! name) in
      change (scaling_factors !! name) with r
  end; cbv beta iota.

Lemma applyGenerator_cases {B : Backend} (sv : StateVectorCudaManaged B)
    (name : string) (wires : list N) (adj : bool) :
  is_Some (generator_map !! name) →
  (∃ sv' c,
     applyGenerator sv name wires adj = Ok (sv', c)
     ∧ getDevTag sv' = getDevTag sv
     ∧ scaling_factors !! name = Some c
     ∧ (c = (-0.5)%float ∨ c = 1%float))
  ∨ (name ∈ controlled_generators ∧ wires = []
     ∧ applyGenerator sv name wires adj
       = Err (UndefinedBehaviour "back() of an empty vector")).
Proof.
  intros [g Hg]. apply generator_map_elem in Hg.
  repeat (apply elem_of_cons in Hg as [[= -> ->] | Hg]);
    try (by apply elem_of_nil in Hg);
    try (left; eexists _, _; split; [reflexivity |];
         split; [reflexivity |]; split; [reflexivity |]; by (left + right)).
  all: destruct wires as [|w0 ws];
    [ right; split; [unfold controlled_generators; set_solver |];
      split; reflexivity
    | left; unfold applyGenerator; eval_registry; unfold call_generator, wires_back;
      destruct (last (w0 :: ws)) as [wl|] eqn:El; [| by apply last_None in El];
      eexists _, _; split; [reflexivity |]; split; [reflexivity |];
      split; [reflexivity |]; by (left + right) ].
Qed.

(** X11. The two registries have the same names. For a registered name
    [applyGenerator] returns the state on the device it was given together
    with the coefficient that [scaling_factors] holds for the name, which is
    -0.5 or 1; the only failure is that of the four controlled generators
    on an empty vector of wires, where [wires.back()] is undefined. *)
Theorem applyGenerator_registered {B : Backend} (sv : StateVectorCudaManaged B)
    (name : string) (wires : list N) (adj : bool) :
  (is_Some (generator_map !! name) ↔ is_Some (scaling_factors !! name))
  ∧ (is_Some (generator_map !! name) →
     (∃ sv' c,
        applyGenerator sv name wires adj = Ok (sv', c)
        ∧ getDevTag sv' = getDevTag sv
        ∧ scaling_factors !! name = Some c
        ∧ (c = (-0.5)%float ∨ c = 1%float))
     ∨ (name ∈ controlled_generators ∧ wires = []
        ∧ applyGenerator sv name wires adj
          = Err (UndefinedBehaviour "back() of an empty vector"))).
Proof.
  split; [| apply applyGenerator_cases].
  by rewrite <- !elem_of_dom, registries_same_names.
Qed.

Lemma applyGenerator_registered_witness :
  ∃ sv' c,
    applyGenerator (lambda Examples.s0) "CRZ" [0; 1]%N true = Ok (sv', c)
    ∧ getDevTag sv' = Examples.dev0.
Proof.
  destruct (proj2 (applyGenerator_registered (lambda Examples.s0) "CRZ" [0; 1]%N true))
    as [(sv' & c & Hrun & Hdev & _) | (_ & Hw & _)]; [by eexists | | done].
  by exists sv', c.
Defined.

(** X12. The generator of a controlled operation ignores the control
    wires: CRX, CRY, CRZ and ControlledPhaseShift on the wires
    [controls ++ [target]] change the state and return the coefficient as
    RX, RY, RZ and PhaseShift do on the wire [target] alone. *)
Theorem controlled_generator_targets_last_wire {B : Backend}
    (sv : StateVectorCudaManaged B) (controls : list N) (target : N) (adj : bool) :
  applyGenerator sv "CRX" (controls ++ [target]) adj = applyGenerator sv "RX" [target] adj
  ∧ applyGenerator sv "CRY" (controls ++ [target]) adj
    = applyGenerator sv "RY" [target] adj
  ∧ applyGenerator sv "CRZ" (controls ++ [target]) adj
    = applyGenerator sv "RZ" [target] adj
  ∧ applyGenerator sv "ControlledPhaseShift" (controls ++ [target]) adj
    = applyGenerator sv "PhaseShift" [target] adj.
Proof.
  unfold applyGenerator. eval_registry. unfold call_generator, wires_back.
  rewrite last_snoc. by repeat split.
Qed.


(** * Further properties: the engine *)

(** X13. For a Jacobian of [n_obs] rows and [tp_size] columns that fits in
    a [size_t], [getJacIndex] is the row-major position
    [obs_index * tp_size + tp_index], without wrap-around, and it is a
    bijection from the pairs of a row and a column onto the positions below
    [n_obs * tp_size]. *)
Theorem getJacIndex_layout (n_obs tp_size : Z) :
  0 < tp_size → 0 ≤ n_obs → n_obs * tp_size < 2 ^ 64 →
  (∀ i p, 0 ≤ i < n_obs → 0 ≤ p < tp_size →
          getJacIndex i p tp_size = i * tp_size + p
          ∧ 0 ≤ getJacIndex i p tp_size < n_obs * tp_size)
  ∧ (∀ i p i' p',
       0 ≤ i < n_obs → 0 ≤ p < tp_size → 0 ≤ i' < n_obs → 0 ≤ p' < tp_size →
       getJacIndex i p tp_size = getJacIndex i' p' tp_size → i = i' ∧ p = p')
  ∧ (∀ k, 0 ≤ k < n_obs * tp_size →
          getJacIndex (k / tp_size) (k mod tp_size) tp_size = k
          ∧ 0 ≤ k / tp_size < n_obs).
Proof.
  intros Htp Hn Hfit.
  assert (Hidx : ∀ i p, 0 ≤ i < n_obs → 0 ≤ p < tp_size →
                        getJacIndex i p tp_size = i * tp_size + p
                        ∧ 0 ≤ i * tp_size + p < n_obs * tp_size).
  { intros i p Hi Hp. unfold getJacIndex.
    assert (0 ≤ i * tp_size) by nia.
    assert (i * tp_size + p < n_obs * tp_size) by nia.
    rewrite (wrap64_small (i * tp_size)) by lia.
    rewrite wrap64_small by lia. lia. }
  split; [| split].
  - intros i p Hi Hp. destruct (Hidx i p Hi Hp) as [-> ?]. by split.
  - intros i p i' p' Hi Hp Hi' Hp'.
    destruct (Hidx i p Hi Hp) as [-> _]. destruct (Hidx i' p' Hi' Hp') as [-> _].
    intros Heq. assert (i = i') by nia. split; [done | nia].
  - intros k Hk.
    pose proof (Z.mod_pos_bound k tp_size Htp) as Hm.
    pose proof (Z.div_mod k tp_size ltac:(lia)) as Hd.
    assert (Hq : 0 ≤ k / tp_size < n_obs).
    { split; [apply Z.div_pos; lia |]. apply Z.div_lt_upper_bound; lia. }
    destruct (Hidx (k / tp_size) (k mod tp_size) Hq Hm) as [-> _]. split; [lia | done].
Qed.

Lemma getJacIndex_layout_witness :
  getJacIndex 1 0 2 = 2 ∧ getJacIndex (3 / 2) (3 mod 2) 2 = 3.
Proof.
  destruct (getJacIndex_layout 2 2 ltac:(lia) ltac:(lia) ltac:(lia)) as (H1 & _ & H3).
  split; [apply (H1 1 0); lia | apply (H3 3); lia].
Defined.

Section Engine.
Context {B : Backend}.

Lemma SV_eta (sv : StateVectorCudaManaged B) : mkSV (getDevTag sv) (getData sv) = sv.
Proof. by destruct sv. Qed.

Lemma applyOperations_app (sv : StateVectorCudaManaged B) (ops1 ops2 : OpsData)
    (adj : bool) :
  applyOperations sv (ops1 ++ ops2) adj
  = applyOperations (applyOperations sv ops1 adj) ops2 adj.
Proof. unfold applyOperations. apply foldl_app. Qed.

Lemma applyOperationAdj_single (sv : StateVectorCudaManaged B) (op : OpData) :
  applyOperationAdj sv op = applyOperations sv [op] true.
Proof. unfold applyOperationAdj, applyOperations. simpl. by rewrite xorb_true_r. Qed.

(** X14. Calling [adjointJacobian] with [apply_operations = true] is
    calling it with [apply_operations = false] on the amplitudes that the
    operations of the tape, applied in order to the reference state,
    produce. *)
Theorem apply_operations_flag (ref_data : Amp B) (jac0 : list float)
    (obs : list ObservableGPU) (ops : OpsData) (trainableParams : list N)
    (dev : DevTag) :
  adjointJacobian ref_data jac0 obs ops trainableParams true dev
  = adjointJacobian (getData (applyOperations (mkSV dev ref_data) ops false)) jac0
      obs ops trainableParams false dev.
Proof.
  unfold adjointJacobian, sweep_init.
  replace (mkSV dev (getData (applyOperations (mkSV dev ref_data) ops false)))
    with (applyOperations (mkSV dev ref_data) ops false); [done |].
  rewrite <- (SV_eta (applyOperations _ _ _)) at 1.
  by rewrite applyOperations_DevTag.
Qed.

Lemma sweep_step_undo (tp_size : Z) (op : OpData) (s s' : Sweep B) :
  sweep_step tp_size op s = Continue s' →
  lambda s' = applyOperations (lambda s) (List.filter not_state_prep [op]) true
  ∧ H_lambda s'
    = map (λ h, applyOperations h (List.filter not_state_prep [op]) true) (H_lambda s).
Proof.
  unfold sweep_step, not_state_prep. simpl.
  case_bool_decide; [done |].
  destruct (is_state_prep (op_name op)); simpl.
  { intros [= <-]. split; [done |]. by rewrite map_id. }
  assert (Hmap : applyOperationsAdj (H_lambda s) op
                 = map (λ h, applyOperations h [op] true) (H_lambda s)).
  { unfold applyOperationsAdj. apply map_ext. intros h. apply applyOperationAdj_single. }
  destruct (tp_it s) as [|tp tp_rest]; [done |].
  destruct (hasParams op).
  - destruct (current_param_idx s =? Z.of_N tp).
    + destruct (applyGenerator _ _ _ _) as [[mu2 c]|e]; [| done].
      destruct (updateJacobian_all _ _ _ _ _ _ _) as [jac' [e|]]; [done |].
      intros [= <-]. simpl. by rewrite Hmap, applyOperationAdj_single.
    + intros [= <-]. simpl. by rewrite Hmap, applyOperationAdj_single.
  - intros [= <-]. simpl. by rewrite Hmap, applyOperationAdj_single.
Qed.

Lemma sweep_reach_undo (tp_size : Z) (walk : list OpData) :
  ∀ s s' : Sweep B,
    sweep_reach tp_size walk s = Some s' →
    lambda s' = applyOperations (lambda s) (List.filter not_state_prep walk) true
    ∧ H_lambda s'
      = map (λ h, applyOperations h (List.filter not_state_prep walk) true) (H_lambda s).
Proof.
  induction walk as [|op walk IH]; intros s s'.
  - intros [= <-]. simpl. split; [done |]. by rewrite map_id.
  - simpl sweep_reach.
    destruct (sweep_step tp_size op s) as [s1| |s1 e] eqn:Estep; [| done..].
    intros Hreach. destruct (sweep_step_undo _ _ _ _ Estep) as [Hl HH].
    destruct (IH _ _ Hreach) as [Hl' HH'].
    change (op :: walk) with ([op] ++ walk). rewrite List.filter_app.
    split.
    + by rewrite applyOperations_app, <- Hl.
    + rewrite HH', HH, map_map. apply map_ext. intros h.
      by rewrite applyOperations_app.
Qed.

(** X15. When the reverse loop has gone through the operations [walk1]
    without leaving, [lambda] and every bra state of [H_lambda] are the
    states they were with the adjoints of the operations of [walk1] applied
    in the order visited, the state-preparation sentinels left out.
    [applyOperations] over [walk1 ++ walk2] is [applyOperations] over
    [walk1] followed by [applyOperations] over [walk2], and
    [applyOperationAdj] is [applyOperations] with [adj = true] on the one
    operation. *)
Theorem sweep_undoes_operations (tp_size : Z) (walk1 walk2 : list OpData)
    (s s' : Sweep B) (sv : StateVectorCudaManaged B) (op : OpData) :
  (sweep_reach tp_size walk1 s = Some s' →
   lambda s' = applyOperations (lambda s) (List.filter not_state_prep walk1) true
   ∧ H_lambda s'
     = map (λ h, applyOperations h (List.filter not_state_prep walk1) true)
         (H_lambda s))
  ∧ applyOperations sv (walk1 ++ walk2) true
    = applyOperations (applyOperations sv walk1 true) walk2 true
  ∧ applyOperationAdj sv op = applyOperations sv [op] true.
Proof.
  split; [apply sweep_reach_undo |].
  split; [apply applyOperations_app | apply applyOperationAdj_single].
Qed.
End Engine.

Lemma sweep_undoes_operations_witness :
  lambda Examples.s1
  = applyOperations (lambda Examples.s0) [Examples.RY 1 0.25] true.
Proof.
  apply (proj1 (sweep_undoes_operations 2 [Examples.RY 1 0.25] [] Examples.s0
                  Examples.s1 (lambda Examples.s0) (Examples.RY 1 0.25))).
  vm_compute. reflexivity.
Defined.


Section Outcome.
Context {B : Backend}.

Lemma updateJacobian_all_failure (states : list (StateVectorCudaManaged B)) :
  ∀ k mu jac c p tp_size jac' e,
    Forall (λ h, getDeviceID (getDevTag h) = getDeviceID (getDevTag mu)) states →
    updateJacobian_all states k mu jac c p tp_size = (jac', Some e) →
    e = write_past_jac.
Proof.
  induction states as [|h rest IH]; intros k mu jac c p tp_size jac' e Hdev; simpl;
    [done |].
  apply Forall_cons in Hdev as [Hh Hdev]. unfold updateJacobian.
  rewrite Hh, Z.eqb_refl. simpl.
  destruct (_ <? _); [by apply IH | by intros [= _ <-]].
Qed.

Lemma applyGenerator_failure (sv : StateVectorCudaManaged B) (name : string)
    (wires : list N) (adj : bool) (e : failure) :
  applyGenerator sv name wires adj = Err e → e = OutOfRange ∨ e = back_of_empty.
Proof.
  unfold applyGenerator.
  destruct (generator_map !! name) as [g|]; [| intros [= <-]; by left].
  destruct (call_generator g sv wires adj) as [sv'|e'] eqn:Ecall; simpl.
  - destruct (scaling_factors !! name); [done | intros [= <-]; by left].
  - intros [= <-]. right.
    destruct g; simpl in Ecall; try done; unfold wires_back in Ecall;
      destruct (last wires); simpl in Ecall; try done; by injection Ecall as <-.
Qed.

Lemma applyGenerator_DevTag (sv sv' : StateVectorCudaManaged B) (name : string)
    (wires : list N) (adj : bool) (c : float) :
  applyGenerator sv name wires adj = Ok (sv', c) → getDevTag sv' = getDevTag sv.
Proof.
  unfold applyGenerator.
  destruct (generator_map !! name) as [g|]; [| done].
  destruct (call_generator g sv wires adj) as [sv1|] eqn:Ecall; [| done]. simpl.
  destruct (scaling_factors !! name); [| done].
  intros [= <- _]. by apply (call_generator_DevTag _ _ _ _ _ Ecall).
Qed.

(** The exits of one iteration by an exception. *)
Lemma sweep_step_abort (dev : DevTag) (n_obs n_jac : nat) (tp_size : Z)
    (op : OpData) (s s' : Sweep B) (e : failure) :
  sweep_inv dev n_obs n_jac s →
  sweep_step tp_size op s = Abort s' e →
  length (jac s') = n_jac
  ∧ (e = LightningException not_supported_msg ∨ e = OutOfRange ∨ e = back_of_empty
     ∨ (e = write_past_jac
        ∧ ¬ (Z.of_nat (length (tp_it s)) ≤ tp_size
             ∧ Z.of_nat n_obs * tp_size ≤ Z.of_nat n_jac < 2 ^ 64))).
Proof.
  intros [Hmu HH HHl Hjl Htpn Hcpi]. unfold sweep_step.
  case_bool_decide; [intros [= <- <-]; split; [done | by left] |].
  destruct (is_state_prep (op_name op)); [done |].
  destruct (tp_it s) as [|tp tp_rest] eqn:Etp; [done |].
  destruct (hasParams op); [| done].
  destruct (current_param_idx s =? Z.of_N tp); [| done].
  destruct (applyGenerator _ _ _ _) as [[mu2 c]|e'] eqn:Egen.
  - apply applyGenerator_DevTag in Egen. simpl in Egen.
    assert (Hdev : Forall (λ h, getDeviceID (getDevTag h) = getDeviceID (getDevTag mu2))
                     (H_lambda s)).
    { eapply Forall_impl; [exact HH |]. simpl. intros h ->. by rewrite Egen, Hmu. }
    destruct (updateJacobian_all _ _ _ _ _ _ _) as [jac' [e'|]] eqn:Eupd; [| done].
    intros [= <- <-]. simpl.
    split; [by rewrite (updateJacobian_all_length _ _ _ _ _ _ _ _ _ Eupd) |].
    right; right; right.
    split; [by apply (updateJacobian_all_failure _ _ _ _ _ _ _ _ _ Hdev Eupd) |].
    intros [Htp [Hfit Hlen]].
    destruct (updateJacobian_all_spec (H_lambda s) 0 (jac s) mu2
                (c * (if op_inverse op then -1 else 1))%float
                (trainableParamNumber s) tp_size) as (jac2 & Hrun & _);
      [done | done | | lia | lia | congruence].
    assert (Hn : (0 < n_obs)%nat).
    { destruct (H_lambda s); [done | simpl in HHl; lia]. }
    assert (tp_size < 2 ^ 64) by nia.
    rewrite Htpn. simpl length in *. rewrite wrap64_small; lia.
  - intros [= <- <-]. simpl. split; [done |].
    destruct (applyGenerator_failure _ _ _ _ _ Egen) as [-> | ->]; auto.
Qed.

Lemma sweep_loop_outcome (dev : DevTag) (n_obs n_jac : nat) (tp_size : Z)
    (walk : list OpData) :
  ∀ (s s' : Sweep B) (r : option failure),
    sweep_inv dev n_obs n_jac s →
    sweep_loop tp_size walk s = (s', r) →
    length (jac s') = n_jac
    ∧ ∀ e, r = Some e →
           e = LightningException not_supported_msg ∨ e = OutOfRange
           ∨ e = back_of_empty
           ∨ (e = write_past_jac
              ∧ ¬ (Z.of_nat (length (tp_it s)) ≤ tp_size
                   ∧ Z.of_nat n_obs * tp_size ≤ Z.of_nat n_jac < 2 ^ 64)).
Proof.
  induction walk as [|op walk IH]; intros s s' r Hinv; simpl.
  - intros [= <- <-]. split; [by destruct Hinv | done].
  - destruct (sweep_step tp_size op s) as [s1| |s1 e1] eqn:Estep.
    + destruct (sweep_step_inv _ _ _ _ _ _ _ Hinv Estep) as (Hinv1 & _ & Hl1).
      intros Hrun. destruct (IH _ _ _ Hinv1 Hrun) as [Hlen He].
      split; [done |]. intros e Hr.
      destruct (He e Hr) as [? | [? | [? | [? Hno]]]]; auto.
      right; right; right. split; [done |]. intros [Htp Hfit]. apply Hno.
      split; [lia | done].
    + intros [= <- <-]. split; [by destruct Hinv | done].
    + intros [= <- <-].
      destruct (sweep_step_abort _ _ _ _ _ _ _ _ Hinv Estep) as [Hlen He].
      split; [done |]. by intros e [= <-].
Qed.

(** X16. [adjointJacobian] never changes the size of the buffer it is
    given, and it never fails with the different-devices error of
    [updateJacobian]: every state of the sweep lives on the device of the
    call. When it fails, the failure is the missing trainable parameters,
    the operation with more than one parameter, [at()] on an unregistered
    name, [back()] on an empty vector of wires, or a write past the end of
    the buffer; the last one only if the buffer holds fewer than
    [observables * trainable parameters] entries (or its size does not fit
    in a [size_t]). *)
Theorem adjointJacobian_outcome (ref_data : Amp B) (jac0 : list float)
    (obs : list ObservableGPU) (ops : OpsData) (trainableParams : list N)
    (apply_operations : bool) (dev : DevTag) :
  let out := adjointJacobian ref_data jac0 obs ops trainableParams apply_operations dev in
  length out.1 = length jac0
  ∧ out.2 ≠ Some (LightningException different_gpus_msg)
  ∧ ∀ e, out.2 = Some e →
         e = LightningException no_trainable_msg
         ∨ e = LightningException not_supported_msg
         ∨ e = OutOfRange
         ∨ e = back_of_empty
         ∨ (e = write_past_jac
            ∧ ¬ (Z.of_nat (length obs) * Z.of_nat (length trainableParams)
                 ≤ Z.of_nat (length jac0) < 2 ^ 64)).
Proof.
  assert (Hmain :
    let out := adjointJacobian ref_data jac0 obs ops trainableParams apply_operations dev in
    length out.1 = length jac0
    ∧ ∀ e, out.2 = Some e →
           e = LightningException no_trainable_msg
           ∨ e = LightningException not_supported_msg
           ∨ e = OutOfRange
           ∨ e = back_of_empty
           ∨ (e = write_past_jac
              ∧ ¬ (Z.of_nat (length obs) * Z.of_nat (length trainableParams)
                   ≤ Z.of_nat (length jac0) < 2 ^ 64))).
  { unfold adjointJacobian.
    destruct trainableParams as [|tp tps] eqn:Etps.
    { simpl. split; [done |]. intros e [= <-]. by left. }
    rewrite <- Etps.
    destruct (sweep_loop _ _ _) as [s r] eqn:Erun. simpl.
    destruct (sweep_loop_outcome dev (length obs) (length jac0) _ _ _ _ _
                (sweep_init_inv ref_data jac0 obs ops trainableParams
                   apply_operations dev) Erun) as [Hlen He].
    split; [done |]. intros e Hr.
    destruct (He e Hr) as [? | [? | [? | [? Hno]]]]; auto.
    right; right; right; right. split; [done |]. intros Hfit. apply Hno.
    split; [| done]. simpl. rewrite length_rev. lia. }
  destruct Hmain as [Hlen He]. split; [done |]. split; [| done].
  intros Hr. destruct (He _ Hr) as [? | [? | [? | [? | [? _]]]]]; done.
Qed.

Lemma sweep_loop_no_observables (tp_size : Z) (walk : list OpData) :
  ∀ s : Sweep B, H_lambda s = [] → jac (sweep_loop tp_size walk s).1 = jac s.
Proof.
  induction walk as [|op walk IH]; intros s HH; simpl; [done |].
  unfold sweep_step. case_bool_decide; [done |].
  destruct (is_state_prep (op_name op)); [by apply IH |].
  destruct (tp_it s) as [|tp tp_rest]; [done |]. rewrite HH. simpl.
  destruct (hasParams op).
  - destruct (current_param_idx s =? Z.of_N tp).
    + destruct (applyGenerator _ _ _ _) as [[mu2 c]|e]; [| done].
      by rewrite IH.
    + by rewrite IH.
  - by rewrite IH.
Qed.

(** X17. Without observables [adjointJacobian] returns the buffer as it
    was given, however the call ends. On a tape none of whose operations has
    a parameter, and with a non-empty list of trainable parameters, the call
    succeeds and returns the buffer as it was given. *)
Theorem adjointJacobian_writes_nothing (ref_data : Amp B) (jac0 : list float)
    (obs : list ObservableGPU) (ops : OpsData) (trainableParams : list N)
    (apply_operations : bool) (dev : DevTag) :
  (obs = [] →
   (adjointJacobian ref_data jac0 obs ops trainableParams apply_operations dev).1 = jac0)
  ∧ (trainableParams ≠ [] → Forall (λ op, op_params op = []) ops →
     adjointJacobian ref_data jac0 obs ops trainableParams apply_operations dev
     = (jac0, None)).
Proof.
  split.
  - intros ->. unfold adjointJacobian.
    destruct trainableParams as [|tp tps] eqn:Etps; [done |]. rewrite <- Etps.
    destruct (sweep_loop _ _ _) as [s r] eqn:Erun. simpl.
    change s with (s, r).1. rewrite <- Erun.
    by rewrite sweep_loop_no_observables.
  - intros Htps Hops. unfold adjointJacobian.
    destruct trainableParams as [|tp tps] eqn:Etps; [done |]. rewrite <- Etps.
    assert (Hwalk : Forall (λ op, op_params op = []) (walk_order ops)).
    { unfold walk_order. by apply List.Forall_rev, Forall_take. }
    destruct (sweep_loop_parameterless (Z.of_nat (length trainableParams))
                (walk_order ops) []
                (sweep_init ref_data jac0 obs ops trainableParams apply_operations dev)
                Hwalk) as (s' & Hrun & Hjac & _).
    { simpl. rewrite Etps. simpl. by destruct (rev tps). }
    rewrite app_nil_r in Hrun. rewrite Hrun. simpl. by rewrite Hjac.
Qed.
End Outcome.

Lemma adjointJacobian_outcome_witness :
  LightningException not_supported_msg = LightningException no_trainable_msg
  ∨ LightningException not_supported_msg = LightningException not_supported_msg
  ∨ LightningException not_supported_msg = OutOfRange
  ∨ LightningException not_supported_msg = back_of_empty
  ∨ (LightningException not_supported_msg = write_past_jac
     ∧ ¬ (Z.of_nat (length Examples.obs2) * Z.of_nat (length [0; 1]%N)
          ≤ Z.of_nat (length [0; 0; 0; 0]%float) < 2 ^ 64)).
Proof.
  apply (proj2 (proj2 (adjointJacobian_outcome Examples.ref_state [0; 0; 0; 0]%float
                         Examples.obs2 Examples.tape_rot_near [0; 1]%N false
                         Examples.dev0))
           (LightningException not_supported_msg)).
  vm_compute. reflexivity.
Defined.

Lemma adjointJacobian_writes_nothing_witness :
  adjointJacobian Examples.ref_state [0.5; 0.25]%float Examples.obs2
    [Examples.PauliX_op 0; Examples.PauliX_op 1] [0]%N true Examples.dev0
  = ([0.5; 0.25]%float, None).
Proof.
  apply (proj2 (adjointJacobian_writes_nothing Examples.ref_state [0.5; 0.25]%float
                  Examples.obs2 [Examples.PauliX_op 0; Examples.PauliX_op 1] [0]%N
                  true Examples.dev0)); [done |].
  by repeat constructor.
Defined.


(** * Further properties: batching *)

Lemma size_t_of_ceil_small (z : Z) : 0 ≤ z < 2 ^ 53 → size_t_of_ceil z = Some z.
Proof.
  intros Hz. unfold size_t_of_ceil, double_of_size_t.
  rewrite (proj2 (Z.ltb_lt z (2 ^ 53))) by lia.
  by rewrite (proj2 (Z.ltb_lt z (2 ^ 64))) by lia.
Qed.

Lemma shard_first_small (n i k : Z) :
  0 < k → 0 ≤ i ≤ k → 0 ≤ n → n * k < 2 ^ 53 →
  shard_first n i k = Some (n * i / k).
Proof.
  intros Hk Hi Hn Hfit. unfold shard_first.
  assert (0 ≤ n * i ≤ n * k) by nia.
  rewrite wrap64_small by lia.
  apply size_t_of_ceil_small. split; [apply Z.div_pos; lia |].
  apply Z.div_lt_upper_bound; nia.
Qed.

Lemma shard_last_small (n i k : Z) :
  0 < k < 2 ^ 64 → 0 ≤ i < k → 0 ≤ n → n * k < 2 ^ 53 →
  shard_last n i k
  = if n * (i + 1) / k =? 0 then None else Some (n * (i + 1) / k - 1).
Proof.
  intros Hk Hi Hn Hfit. unfold shard_last.
  assert (0 ≤ n * (i + 1) ≤ n * k) by nia.
  rewrite (wrap64_small (i + 1)) by lia.
  rewrite (wrap64_small (n * (i + 1))) by lia.
  assert (Hq : 0 ≤ n * (i + 1) / k < 2 ^ 53).
  { split; [apply Z.div_pos; lia |]. apply Z.div_lt_upper_bound; nia. }
  destruct (Z.eqb_spec (n * (i + 1) / k) 0) as [-> | Hne]; [done |].
  rewrite wrap64_small by lia. apply size_t_of_ceil_small. lia.
Qed.

(** X20. The shard bounds of [batchAdjointJacobian], for [k] devices and
    [n >= k] observables with [n * k] below 2^53: the first shard starts at
    0, the last one ends at [n - 1], every shard is non-empty and within
    the observables, and each shard starts right after the previous one
    ends. The shards tile the observables. *)
Theorem shard_boundaries (n k : Z) :
  0 < k → k ≤ n → n * k < 2 ^ 53 →
  shard_first n 0 k = Some 0
  ∧ shard_last n (k - 1) k = Some (n - 1)
  ∧ ∀ i, 0 ≤ i < k →
         ∃ first last,
           shard_first n i k = Some first ∧ shard_last n i k = Some last
           ∧ 0 ≤ first ≤ last ∧ last < n
           ∧ shard_first n (i + 1) k = Some (last + 1).
Proof.
  intros Hk Hn Hfit.
  assert (Hk64 : k < 2 ^ 64) by nia.
  assert (Hlast : ∀ i, 0 ≤ i < k →
            shard_last n i k = Some (n * (i + 1) / k - 1) ∧ 1 ≤ n * (i + 1) / k).
  { intros i Hi. rewrite shard_last_small by lia.
    assert (1 ≤ n * (i + 1) / k) by (apply Z.div_le_lower_bound; nia).
    destruct (Z.eqb_spec (n * (i + 1) / k) 0); [lia | done]. }
  split; [| split].
  - rewrite shard_first_small by lia. by rewrite Z.mul_0_r.
  - destruct (Hlast (k - 1)) as [-> _]; [lia |].
    replace (k - 1 + 1) with k by lia. by rewrite Z.div_mul by lia.
  - intros i Hi. destruct (Hlast i Hi) as [Hl Hq].
    exists (n * i / k), (n * (i + 1) / k - 1).
    rewrite !shard_first_small by lia. rewrite Hl.
    split; [done |]. split; [done |].
    assert (0 ≤ n * i / k) by (apply Z.div_pos; nia).
    assert (n * i / k < n * (i + 1) / k).
    { assert (Hstep : n * (i + 1) = n * i + n) by lia.
      assert (n * i / k + 1 ≤ (n * i + k) / k).
      { rewrite <- (Z.mul_1_l k) at 2. rewrite Z.div_add by lia. lia. }
      assert ((n * i + k) / k ≤ (n * i + n) / k) by (apply Z.div_le_mono; lia).
      rewrite Hstep. lia. }
    assert (n * (i + 1) / k ≤ n).
    { apply Z.div_le_upper_bound; nia. }
    split; [lia |]. split; [lia |]. f_equal. lia.
Qed.

Lemma shard_boundaries_witness :
  shard_first 5 0 2 = Some 0 ∧ shard_last 5 (2 - 1) 2 = Some (5 - 1).
Proof.
  destruct (shard_boundaries 5 2 ltac:(lia) ltac:(lia) ltac:(lia)) as (H1 & H2 & _).
  by split.
Defined.

Section BatchFacts.
Context {B : Backend}.

(** X21. With fewer observables than devices the first shard has the
    upper bound [0 - 1] in [size_t] arithmetic, that is 2^64 - 1; as a
    [double] this is 2^64, and its conversion back to [size_t] has no
    defined result. The first iteration of [batchAdjointJacobian] makes
    this conversion before it starts a thread: on every schedule the
    behaviour of the call is undefined, and nothing follows about what it
    returns, about the buffer or about the pool. *)
Theorem batch_fewer_observables_than_devices (sched : Schedule) (num_gpus : N)
    (ref_data : Amp B) (jac0 : list float) (obs : list ObservableGPU)
    (ops : OpsData) (trainableParams : list N) (apply_operations : bool) :
  (Z.of_nat (length obs) < Z.of_N num_gpus < 2 ^ 53) →
  shard_last (Z.of_nat (length obs)) 0 (Z.of_N num_gpus) = None
  ∧ batchAdjointJacobian sched num_gpus ref_data jac0 obs ops trainableParams
      apply_operations
    = Undefined "conversion of a double out of range".
Proof.
  intros Hn.
  assert (Hlast : shard_last (Z.of_nat (length obs)) 0 (Z.of_N num_gpus) = None).
  { unfold shard_last. change (wrap64 (0 + 1)) with 1.
    rewrite Z.mul_1_r, (wrap64_small (Z.of_nat (length obs))) by lia.
    rewrite Z.div_small by lia. reflexivity. }
  split; [done |].
  unfold batchAdjointJacobian.
  destruct (N.to_nat num_gpus) as [|fuel] eqn:Efuel; [lia |].
  simpl. rewrite Hlast.
  by destruct (shard_first _ _ _).
Qed.

Lemma merge_rows_fits (rows : list float) :
  ∀ (first j : Z) (jac : list float),
    0 ≤ first → 0 ≤ j →
    first + j + Z.of_nat (length rows) ≤ Z.of_nat (length jac) →
    Z.of_nat (length jac) < 2 ^ 64 →
    merge_rows first j rows jac
    = (take (Z.to_nat (first + j)) jac ++ rows
       ++ drop (Z.to_nat (first + j) + length rows) jac, None).
Proof.
  induction rows as [|x rows IH]; intros first j jac Hf Hj Hfit Hlen; simpl.
  - by rewrite Nat.add_0_r, take_drop.
  - simpl in Hfit. rewrite wrap64_small by lia.
    rewrite (proj2 (Z.ltb_lt _ _)) by lia.
    rewrite IH by (rewrite ?length_insert; lia).
    f_equal.
    replace (Z.to_nat (first + (j + 1))) with (S (Z.to_nat (first + j))) by lia.
    rewrite drop_insert_lt by lia.
    rewrite (take_S_r _ _ x) by (apply list_lookup_insert_eq; lia).
    rewrite take_insert_ge by lia.
    rewrite <- app_assoc. simpl.
    by replace (S (Z.to_nat (first + j) + length rows))
      with (Z.to_nat (first + j) + S (length rows))%nat by lia.
Qed.

Lemma merge_rows_short (rows : list float) :
  ∀ (first j : Z) (jac : list float),
    0 ≤ first → 0 ≤ j → first + j ≤ Z.of_nat (length jac) →
    Z.of_nat (length jac) < first + j + Z.of_nat (length rows) < 2 ^ 64 →
    ∃ jac', merge_rows first j rows jac = (jac', Some OutOfRange)
            ∧ length jac' = length jac.
Proof.
  induction rows as [|x rows IH]; intros first j jac Hf Hj Hle Hfit; simpl in *; [lia |].
  rewrite wrap64_small by lia.
  destruct (Z.ltb_spec (first + j) (Z.of_nat (length jac))); [| by eexists].
  destruct (IH first (j + 1) (<[Z.to_nat (first + j):=x]> jac)) as (jac' & -> & Hl);
    [lia | lia | rewrite length_insert; lia | rewrite length_insert; lia |].
  exists jac'. split; [done |]. by rewrite Hl, length_insert.
Qed.

Lemma adjointJacobian_length (ref_data : Amp B) (jac0 : list float)
    (obs : list ObservableGPU) (ops : OpsData) (trainableParams : list N)
    (apply_operations : bool) (dev : DevTag) :
  length (adjointJacobian ref_data jac0 obs ops trainableParams apply_operations dev).1
  = length jac0.
Proof.
  unfold adjointJacobian.
  destruct trainableParams as [|tp tps] eqn:Etps; [done |]. rewrite <- Etps.
  destruct (sweep_loop _ _ _) as [s r] eqn:Erun. simpl.
  by destruct (sweep_loop_outcome dev (length obs) (length jac0) _ _ _ _ _
                 (sweep_init_inv ref_data jac0 obs ops trainableParams
                    apply_operations dev) Erun) as [Hlen _].
Qed.

(** X22. On a machine with one device, in a run in which the thread reads
    the bounds of its shard while the iteration that created it is still
    running, [batchAdjointJacobian] runs the sweep over all observables on a
    zero-filled buffer of [observables * trainable parameters] entries. If
    the sweep ends with an exception, the exception leaves the function of
    the thread and the process is terminated. If the sweep succeeds and the
    caller's buffer is large enough, the call returns and the buffer holds
    the result of the sweep followed by what it held beyond. If the buffer
    is too small, [jac.at] throws in the merge loop, which runs before the
    thread is joined, and the process is terminated. *)
Theorem batch_on_one_device (sched : Schedule) (ref_data : Amp B)
    (jac0 : list float) (obs : list ObservableGPU) (ops : OpsData)
    (trainableParams : list N) (apply_operations : bool) :
  sched 0 = true →
  obs ≠ [] → Z.of_nat (length obs) < 2 ^ 53 →
  Z.of_nat (length obs) * Z.of_nat (length trainableParams) < 2 ^ 64 →
  Z.of_nat (length jac0) < 2 ^ 64 →
  let single :=
    adjointJacobian ref_data
      (replicate (length obs * length trainableParams) 0%float)
      obs ops trainableParams apply_operations (mkDevTag 0 0) in
  let batch :=
    batchAdjointJacobian sched 1 ref_data jac0 obs ops trainableParams
      apply_operations in
  (∀ e, single.2 = Some e → batch = ended_by e)
  ∧ (single.2 = None →
     (length obs * length trainableParams ≤ length jac0)%nat →
     batch = Returned (single.1 ++ drop (length obs * length trainableParams) jac0))
  ∧ (single.2 = None →
     (length jac0 < length obs * length trainableParams)%nat →
     batch = ProcessTerminated OutOfRange).
Proof.
  intros Hsched Hobs Hn Hsz Hjac single batch.
  assert (Hfirst : ∀ i, 0 ≤ i ≤ 1 →
            shard_first (Z.of_nat (length obs)) i 1 = Some (Z.of_nat (length obs) * i)).
  { intros i Hi. rewrite shard_first_small by lia. by rewrite Z.div_1_r. }
  assert (Hpos : (0 < length obs)%nat) by (destruct obs; [done | simpl; lia]).
  assert (Hlast : shard_last (Z.of_nat (length obs)) 0 1
                  = Some (Z.of_nat (length obs) - 1)).
  { rewrite shard_last_small by lia. change (0 + 1) with 1. rewrite Z.mul_1_r, Z.div_1_r.
    destruct (Z.eqb_spec (Z.of_nat (length obs)) 0); [lia | done]. }
  assert (Hrange : obs_range 0 (Z.of_nat (length obs) - 1) obs = Ok obs).
  { unfold obs_range. rewrite wrap64_small by lia.
    replace (Z.of_nat (length obs) - 1 + 1) with (Z.of_nat (length obs)) by lia.
    rewrite (proj2 (Z.leb_le 0 _)) by lia. rewrite Z.leb_refl. simpl.
    rewrite Z.sub_0_r, Nat2Z.id. by rewrite take_ge by done. }
  assert (Hbuf : Z.to_nat (wrap64 (wrap64 (Z.of_nat (length obs) - 1 - 0 + 1)
                                   * Z.of_nat (length trainableParams)))
                 = (length obs * length trainableParams)%nat).
  { replace (Z.of_nat (length obs) - 1 - 0 + 1) with (Z.of_nat (length obs)) by lia.
    rewrite (wrap64_small (Z.of_nat (length obs))) by lia.
    rewrite wrap64_small by nia. lia. }
  assert (Hbatch : batch
    = match single with
      | (_, Some e) => ended_by e
      | (rows, None) =>
          match merge_rows 0 0 rows jac0 with
          | (jac', None) => Returned jac'
          | (_, Some e) => ended_by e
          end
      end).
  { unfold batch, batchAdjointJacobian. simpl.
    rewrite (Hfirst 0) by lia. rewrite Hlast, Z.mul_0_r, Hsched.
    rewrite (adj_lambda_end _ 0 [] 0 _ _ obs obs) by done.
    rewrite Hbuf. fold single. destruct single as [rows [e|]]; [done |].
    simpl. rewrite (Hfirst 0) by lia. rewrite Z.mul_0_r.
    by destruct (merge_rows 0 0 rows jac0) as [jac' [e|]]. }
  assert (Hlen : length single.1 = (length obs * length trainableParams)%nat).
  { unfold single. by rewrite adjointJacobian_length, length_replicate. }
  rewrite Hbatch. destruct single as [rows r]. simpl in *.
  split; [by intros e -> | split].
  - intros -> Hfit. rewrite merge_rows_fits by lia. simpl. by rewrite Hlen.
  - intros -> Hshort.
    destruct (merge_rows_short rows 0 0 jac0) as (jac' & -> & Hl);
      [lia | lia | lia | nia |].
    done.
Qed.
End BatchFacts.

Lemma batch_fewer_observables_than_devices_witness :
  shard_last 1 0 2 = None
  ∧ batchAdjointJacobian all_in_time 2 Examples.ref_state [0; 0]%float
      [Examples.PauliZ_obs 0] Examples.tape2 [0; 1]%N false
    = Undefined "conversion of a double out of range".
Proof.
  apply (batch_fewer_observables_than_devices all_in_time 2 Examples.ref_state
           [0; 0]%float [Examples.PauliZ_obs 0] Examples.tape2 [0; 1]%N false).
  simpl. lia.
Defined.

Lemma batch_on_one_device_witness :
  batchAdjointJacobian all_in_time 1 Examples.ref_state [0; 0; 0; 0; 0.5]%float
    Examples.obs2 Examples.tape2 [0; 1]%N false
  = Returned
      ((adjointJacobian Examples.ref_state [0; 0; 0; 0]%float Examples.obs2
          Examples.tape2 [0; 1]%N false Examples.dev0).1 ++ [0.5%float]).
Proof.
  apply (proj1 (proj2 (batch_on_one_device all_in_time Examples.ref_state
                         [0; 0; 0; 0; 0.5]%float Examples.obs2 Examples.tape2
                         [0; 1]%N false eq_refl
                         ltac:(done) ltac:(simpl; lia) ltac:(simpl; lia)
                         ltac:(simpl; lia)))).
  - vm_compute. reflexivity.
  - simpl. lia.
Defined.


(** * Further properties: the rows of the Jacobian *)

Section RowsFacts.
Context {B : Backend}.

Lemma updateJacobian_all_app (H1 H2 : list (StateVectorCudaManaged B)) :
  ∀ k mu jac c p tp_size,
    updateJacobian_all (H1 ++ H2) k mu jac c p tp_size
    = match updateJacobian_all H1 k mu jac c p tp_size with
      | (jac', None) =>
          updateJacobian_all H2 (k + Z.of_nat (length H1)) mu jac' c p tp_size
      | (jac', Some e) => (jac', Some e)
      end.
Proof.
  induction H1 as [|h H1 IH]; intros k mu jac c p tp_size; simpl.
  - by rewrite Z.add_0_r.
  - destruct (updateJacobian h mu jac c k p tp_size) as [jac1|e]; [| done].
    rewrite IH. by replace (k + 1 + Z.of_nat (length H1))
                  with (k + Z.pos (Pos.of_succ_nat (length H1))) by lia.
Qed.

Lemma updateJacobian_all_prefix (H1 : list (StateVectorCudaManaged B)) :
  ∀ k mu jac1 jac2 c p tp_size,
    Forall (λ h, getDeviceID (getDevTag h) = getDeviceID (getDevTag mu)) H1 →
    0 ≤ k → 0 ≤ p < tp_size →
    (k + Z.of_nat (length H1)) * tp_size ≤ Z.of_nat (length jac1) →
    Z.of_nat (length (jac1 ++ jac2)) < 2 ^ 64 →
    updateJacobian_all H1 k mu (jac1 ++ jac2) c p tp_size
    = ((updateJacobian_all H1 k mu jac1 c p tp_size).1 ++ jac2, None)
    ∧ (updateJacobian_all H1 k mu jac1 c p tp_size).2 = None.
Proof.
  induction H1 as [|h H1 IH]; intros k mu jac1 jac2 c p tp_size Hdev Hk Hp Hfit Hlen;
    simpl; [done |].
  apply Forall_cons in Hdev as [Hh Hdev]. simpl in Hfit.
  rewrite length_app in Hlen.
  assert (0 ≤ k * tp_size) by nia.
  assert (0 ≤ Z.of_nat (length H1) * tp_size) by nia.
  rewrite !updateJacobian_in_range by (rewrite ?length_app; lia).
  rewrite insert_app_l by lia.
  apply IH; [done | lia | done | rewrite length_insert; lia |].
  rewrite length_app, length_insert. lia.
Qed.

Lemma updateJacobian_all_suffix (H2 : list (StateVectorCudaManaged B)) :
  ∀ k n1 mu jac1 jac2 c p tp_size,
    Forall (λ h, getDeviceID (getDevTag h) = getDeviceID (getDevTag mu)) H2 →
    0 ≤ k → 0 ≤ n1 → 0 ≤ p < tp_size →
    Z.of_nat (length jac1) = n1 * tp_size →
    (k + Z.of_nat (length H2)) * tp_size ≤ Z.of_nat (length jac2) →
    Z.of_nat (length (jac1 ++ jac2)) < 2 ^ 64 →
    updateJacobian_all H2 (n1 + k) mu (jac1 ++ jac2) c p tp_size
    = (jac1 ++ (updateJacobian_all H2 k mu jac2 c p tp_size).1, None)
    ∧ (updateJacobian_all H2 k mu jac2 c p tp_size).2 = None.
Proof.
  induction H2 as [|h H2 IH];
    intros k n1 mu jac1 jac2 c p tp_size Hdev Hk Hn1 Hp Hl1 Hfit Hlen; simpl; [done |].
  apply Forall_cons in Hdev as [Hh Hdev]. simpl in Hfit.
  rewrite length_app in Hlen.
  assert (0 ≤ k * tp_size) by nia.
  assert (0 ≤ Z.of_nat (length H2) * tp_size) by nia.
  assert (0 ≤ n1 * tp_size) by nia.
  rewrite !updateJacobian_in_range by (rewrite ?length_app; nia).
  replace (Z.to_nat ((n1 + k) * tp_size + p))
    with (length jac1 + Z.to_nat (k * tp_size + p))%nat by nia.
  rewrite insert_app_r.
  replace (n1 + k + 1) with (n1 + (k + 1)) by lia.
  apply IH; [done | lia | done | done | done | rewrite length_insert; lia |].
  rewrite length_app, length_insert. lia.
Qed.

Lemma updateJacobian_all_rows (H1 H2 : list (StateVectorCudaManaged B))
    (mu : StateVectorCudaManaged B) (jac1 jac2 : list float) (c : float)
    (p tp_size : Z) :
  Forall (λ h, getDeviceID (getDevTag h) = getDeviceID (getDevTag mu)) H1 →
  Forall (λ h, getDeviceID (getDevTag h) = getDeviceID (getDevTag mu)) H2 →
  0 ≤ p < tp_size →
  Z.of_nat (length jac1) = Z.of_nat (length H1) * tp_size →
  Z.of_nat (length jac2) = Z.of_nat (length H2) * tp_size →
  Z.of_nat (length (jac1 ++ jac2)) < 2 ^ 64 →
  ∃ jac1' jac2',
    updateJacobian_all H1 0 mu jac1 c p tp_size = (jac1', None)
    ∧ updateJacobian_all H2 0 mu jac2 c p tp_size = (jac2', None)
    ∧ updateJacobian_all (H1 ++ H2) 0 mu (jac1 ++ jac2) c p tp_size
      = (jac1' ++ jac2', None).
Proof.
  intros Hd1 Hd2 Hp Hl1 Hl2 Hlen.
  destruct (updateJacobian_all_prefix H1 0 mu jac1 jac2 c p tp_size)
    as [Hpre Hr1]; [done | done | done | lia | done |].
  destruct (updateJacobian_all H1 0 mu jac1 c p tp_size) as [jac1' r1] eqn:E1.
  simpl in Hpre, Hr1. subst r1.
  assert (Hl1' : length jac1' = length jac1)
    by apply (updateJacobian_all_length _ _ _ _ _ _ _ _ _ E1).
  destruct (updateJacobian_all_suffix H2 0 (Z.of_nat (length H1)) mu jac1' jac2 c p
              tp_size) as [Hsuf Hr2];
    [done | done | lia | done | lia | lia | rewrite length_app in *; lia |].
  destruct (updateJacobian_all H2 0 mu jac2 c p tp_size) as [jac2' r2] eqn:E2.
  simpl in Hsuf, Hr2. subst r2.
  exists jac1', jac2'. split; [done |]. split; [done |].
  rewrite updateJacobian_all_app, Hpre. simpl.
  by rewrite Z.add_0_r in Hsuf.
Qed.

Lemma sweep_step_rows (dev : DevTag) (tp_size : Z) (op : OpData)
    (l m : StateVectorCudaManaged B) (H1 H2 : list (StateVectorCudaManaged B))
    (j1 j2 : list float) (tpn cpi : Z) (tp : list N) :
  getDevTag m = dev →
  Forall (λ h, getDevTag h = dev) H1 → Forall (λ h, getDevTag h = dev) H2 →
  Z.of_nat (length j1) = Z.of_nat (length H1) * tp_size →
  Z.of_nat (length j2) = Z.of_nat (length H2) * tp_size →
  Z.of_nat (length (j1 ++ j2)) < 2 ^ 64 →
  tpn = wrap64 (Z.of_nat (length tp) - 1) →
  Z.of_nat (length tp) ≤ tp_size → tp_size < 2 ^ 64 →
  steps_related
    (sweep_step tp_size op (mkSweep l (H1 ++ H2) m (j1 ++ j2) tpn cpi tp))
    (sweep_step tp_size op (mkSweep l H1 m j1 tpn cpi tp))
    (sweep_step tp_size op (mkSweep l H2 m j2 tpn cpi tp)).
Proof.
  intros Hm Hd1 Hd2 Hl1 Hl2 Hlen Htpn Htp Htp64. unfold sweep_step. simpl.
  case_bool_decide; [done |].
  destruct (is_state_prep (op_name op)); [by repeat split |].
  destruct tp as [|t tp_rest]; [done |].
  destruct (hasParams op).
  - destruct (cpi =? Z.of_N t).
    + destruct (applyGenerator _ _ _ _) as [[mu2 c]|e] eqn:Egen; [| done].
      apply applyGenerator_DevTag in Egen. simpl in Egen.
      destruct (updateJacobian_all_rows H1 H2 mu2 j1 j2
                  (c * (if op_inverse op then -1 else 1))%float tpn tp_size)
        as (j1' & j2' & -> & -> & ->); try done.
      * eapply Forall_impl; [exact Hd1 |]. simpl. intros h ->. by rewrite Egen, Hm.
      * eapply Forall_impl; [exact Hd2 |]. simpl. intros h ->. by rewrite Egen, Hm.
      * rewrite Htpn. simpl length in *. rewrite wrap64_small; lia.
      * simpl. repeat split; try done. unfold applyOperationsAdj. by rewrite map_app.
    + simpl. repeat split; try done. unfold applyOperationsAdj. by rewrite map_app.
  - simpl. repeat split; try done. unfold applyOperationsAdj. by rewrite map_app.
Qed.

Lemma sweep_loop_rows (dev : DevTag) (tp_size : Z) (walk : list OpData) :
  tp_size < 2 ^ 64 →
  ∀ s s1 s2 : Sweep B,
    rows_related s s1 s2 →
    sweep_inv dev (length (H_lambda s1)) (length (jac s1)) s1 →
    sweep_inv dev (length (H_lambda s2)) (length (jac s2)) s2 →
    Z.of_nat (length (jac s1)) = Z.of_nat (length (H_lambda s1)) * tp_size →
    Z.of_nat (length (jac s2)) = Z.of_nat (length (H_lambda s2)) * tp_size →
    Z.of_nat (length (jac s)) < 2 ^ 64 →
    Z.of_nat (length (tp_it s)) ≤ tp_size →
    jac (sweep_loop tp_size walk s).1
    = jac (sweep_loop tp_size walk s1).1 ++ jac (sweep_loop tp_size walk s2).1
    ∧ (sweep_loop tp_size walk s).2 = (sweep_loop tp_size walk s1).2
    ∧ (sweep_loop tp_size walk s).2 = (sweep_loop tp_size walk s2).2.
Proof.
  intros Htp64. induction walk as [|op walk IH];
    intros s s1 s2 HR Hinv1 Hinv2 Hl1 Hl2 Hlen Htp.
  - simpl. by destruct HR as (_ & _ & _ & _ & _ & ? & _).
  - simpl.
    pose proof HR as (Hla1 & Hla2 & Hmu1 & Hmu2 & HH & Hj & Ht1 & Ht2 & Hc1 & Hc2
                      & Hi1 & Hi2).
    pose proof (sweep_step_rows dev tp_size op (lambda s) (mu s) (H_lambda s1)
                  (H_lambda s2) (jac s1) (jac s2) (trainableParamNumber s)
                  (current_param_idx s) (tp_it s)) as Hstep.
    replace (mkSweep (lambda s) (H_lambda s1 ++ H_lambda s2) (mu s) (jac s1 ++ jac s2)
               (trainableParamNumber s) (current_param_idx s) (tp_it s))
      with s in Hstep by (destruct s; simpl in *; congruence).
    replace (mkSweep (lambda s) (H_lambda s1) (mu s) (jac s1)
               (trainableParamNumber s) (current_param_idx s) (tp_it s))
      with s1 in Hstep by (destruct s1; simpl in *; congruence).
    replace (mkSweep (lambda s) (H_lambda s2) (mu s) (jac s2)
               (trainableParamNumber s) (current_param_idx s) (tp_it s))
      with s2 in Hstep by (destruct s2; simpl in *; congruence).
    assert (Hrel : steps_related (sweep_step tp_size op s) (sweep_step tp_size op s1)
                     (sweep_step tp_size op s2)).
    { apply Hstep.
      - rewrite Hmu1. by destruct Hinv1.
      - by destruct Hinv1.
      - by destruct Hinv2.
      - done.
      - done.
      - by rewrite <- Hj.
      - rewrite Ht1, Hi1. by destruct Hinv1.
      - done.
      - done. }
    clear Hstep.
    destruct (sweep_step tp_size op s) as [s'| |s' e] eqn:E;
      destruct (sweep_step tp_size op s1) as [s1'| |s1' e1] eqn:E1;
      destruct (sweep_step tp_size op s2) as [s2'| |s2' e2] eqn:E2;
      simpl in Hrel; try done.
    + destruct (sweep_step_inv _ _ _ _ _ _ _ Hinv1 E1) as (Hinv1' & _ & Hle1).
      destruct (sweep_step_inv _ _ _ _ _ _ _ Hinv2 E2) as (Hinv2' & _ & Hle2).
      pose proof Hrel as (_ & _ & _ & _ & HH' & Hj' & _ & _ & _ & _ & Hi1' & _).
      assert (HlH1 : length (H_lambda s1') = length (H_lambda s1))
        by by destruct Hinv1'.
      assert (HlH2 : length (H_lambda s2') = length (H_lambda s2))
        by by destruct Hinv2'.
      assert (Hlj1 : length (jac s1') = length (jac s1)) by by destruct Hinv1'.
      assert (Hlj2 : length (jac s2') = length (jac s2)) by by destruct Hinv2'.
      apply IH; try done.
      * by rewrite HlH1, Hlj1.
      * by rewrite HlH2, Hlj2.
      * by rewrite Hlj1, HlH1.
      * by rewrite Hlj2, HlH2.
      * rewrite Hj', length_app, Hlj1, Hlj2, <- length_app, <- Hj. done.
      * rewrite Hi1'. rewrite Hi1 in Htp. lia.
    + simpl. by destruct Hrel as (-> & -> & ->).
Qed.

Lemma adjointJacobian_concat (ref_data : Amp B) (jac1 jac2 : list float)
    (obs1 obs2 : list ObservableGPU) (ops : OpsData) (trainableParams : list N)
    (apply_operations : bool) (dev : DevTag) :
  (length jac1 = length obs1 * length trainableParams)%nat →
  (length jac2 = length obs2 * length trainableParams)%nat →
  Z.of_nat (length (jac1 ++ jac2)) < 2 ^ 64 →
  Z.of_nat (length trainableParams) < 2 ^ 64 →
  let part1 :=
    adjointJacobian ref_data jac1 obs1 ops trainableParams apply_operations dev in
  let part2 :=
    adjointJacobian ref_data jac2 obs2 ops trainableParams apply_operations dev in
  adjointJacobian ref_data (jac1 ++ jac2) (obs1 ++ obs2) ops trainableParams
    apply_operations dev
  = (part1.1 ++ part2.1, part1.2)
  ∧ part1.2 = part2.2.
Proof.
  intros Hl1 Hl2 Hlen Htp part1 part2. unfold part1, part2, adjointJacobian.
  destruct trainableParams as [|tp tps] eqn:Etps; [done |]. rewrite <- Etps in *.
  set (s := sweep_init ref_data (jac1 ++ jac2) (obs1 ++ obs2) ops trainableParams
              apply_operations dev).
  set (s1 := sweep_init ref_data jac1 obs1 ops trainableParams apply_operations dev).
  set (s2 := sweep_init ref_data jac2 obs2 ops trainableParams apply_operations dev).
  destruct (sweep_loop_rows dev (Z.of_nat (length trainableParams)) (walk_order ops)
              Htp s s1 s2) as (Hj & Hr1 & Hr2).
  - unfold rows_related, s, s1, s2. simpl. repeat split; try done.
    unfold applyObservables. by rewrite map_app.
  - replace (length (H_lambda s1)) with (length obs1)
      by (unfold s1; simpl; unfold applyObservables; by rewrite length_map).
    apply sweep_init_inv.
  - replace (length (H_lambda s2)) with (length obs2)
      by (unfold s2; simpl; unfold applyObservables; by rewrite length_map).
    apply sweep_init_inv.
  - unfold s1. simpl. unfold applyObservables. rewrite length_map. lia.
  - unfold s2. simpl. unfold applyObservables. rewrite length_map. lia.
  - done.
  - unfold s. simpl. rewrite length_rev. lia.
  - destruct (sweep_loop _ _ s) as [t r], (sweep_loop _ _ s1) as [t1 r1],
      (sweep_loop _ _ s2) as [t2 r2]. simpl in *. split; congruence.
Qed.
(** X18. The rows of the Jacobian do not depend on one another. For
    buffers of the sizes the observables need, the sweep over
    [obs1 ++ obs2] on the buffer [jac1 ++ jac2] leaves in the buffer what
    the sweep over [obs1] leaves in [jac1] followed by what the sweep over
    [obs2] leaves in [jac2], and the three calls end alike, with the same
    failure if any. *)
Theorem adjointJacobian_rows (ref_data : Amp B) (jac1 jac2 : list float)
    (obs1 obs2 : list ObservableGPU) (ops : OpsData) (trainableParams : list N)
    (apply_operations : bool) (dev : DevTag) :
  (length jac1 = length obs1 * length trainableParams)%nat →
  (length jac2 = length obs2 * length trainableParams)%nat →
  Z.of_nat (length (jac1 ++ jac2)) < 2 ^ 64 →
  Z.of_nat (length trainableParams) < 2 ^ 64 →
  let part1 :=
    adjointJacobian ref_data jac1 obs1 ops trainableParams apply_operations dev in
  let part2 :=
    adjointJacobian ref_data jac2 obs2 ops trainableParams apply_operations dev in
  adjointJacobian ref_data (jac1 ++ jac2) (obs1 ++ obs2) ops trainableParams
    apply_operations dev
  = (part1.1 ++ part2.1, part1.2)
  ∧ part1.2 = part2.2.
Proof. apply adjointJacobian_concat. Qed.

End RowsFacts.

Lemma adjointJacobian_rows_witness :
  adjointJacobian Examples.ref_state ([0; 0] ++ [0; 0])%float
    ([Examples.PauliZ_obs 0] ++ [Examples.PauliZ_obs 1]) Examples.tape2 [0; 1]%N
    false Examples.dev0
  = ((adjointJacobian Examples.ref_state [0; 0]%float [Examples.PauliZ_obs 0]
        Examples.tape2 [0; 1]%N false Examples.dev0).1
     ++ (adjointJacobian Examples.ref_state [0; 0]%float [Examples.PauliZ_obs 1]
           Examples.tape2 [0; 1]%N false Examples.dev0).1,
     None).
Proof.
  apply (proj1 (adjointJacobian_rows Examples.ref_state [0; 0]%float [0; 0]%float
                  [Examples.PauliZ_obs 0] [Examples.PauliZ_obs 1] Examples.tape2
                  [0; 1]%N false Examples.dev0
                  ltac:(done) ltac:(done) ltac:(simpl; lia) ltac:(simpl; lia))).
Defined.


(** * Further properties: the entries of the Jacobian *)

Section Entries.
Context {B : Backend}.

Arguments pending : simpl never.

Lemma getNumParOps_snoc (rem : OpsData) (op : OpData) :
  getNumParOps (rem ++ [op]) = getNumParOps rem + (if hasParams op then 1 else 0).
Proof.
  rewrite getNumParOps_app. unfold getNumParOps at 2. simpl.
  by destruct (hasParams op).
Qed.

Lemma trained_supported_prefix (rem post : OpsData) (tps tps' : list N) :
  trained_supported (rem ++ post) tps → (∀ t, t ∈ tps' → t ∈ tps) →
  trained_supported rem tps'.
Proof.
  intros H Hsub pre o post' t Heq Hpar Ht Hpos.
  apply (H pre o (post' ++ post) t); [| done | by apply Hsub | done].
  rewrite Heq, <- app_assoc. done.
Qed.

Lemma filter_all {A : Type} (f : A → bool) (l : list A) :
  Forall (λ x, f x = true) l → List.filter f l = l.
Proof. induction 1 as [|x l Hx _ IH]; simpl; [done |]. by rewrite Hx, IH. Qed.

Lemma filter_none {A : Type} (f : A → bool) (l : list A) :
  Forall (λ x, f x = false) l → List.filter f l = [].
Proof. induction 1 as [|x l Hx _ IH]; simpl; [done |]. by rewrite Hx. Qed.

Lemma col_index_ne (i i' j j' tp_size : Z) :
  0 ≤ i → 0 ≤ i' → 0 ≤ j < tp_size → 0 ≤ j' < tp_size → j ≠ j' →
  Z.to_nat (i * tp_size + j) ≠ Z.to_nat (i' * tp_size + j').
Proof.
  intros Hi Hi' Hj Hj' Hne Heq.
  assert (0 ≤ i * tp_size) by nia. assert (0 ≤ i' * tp_size) by nia.
  assert (Heq' : i * tp_size + j = i' * tp_size + j') by lia.
  destruct (Z.lt_trichotomy i i') as [Hlt | [-> | Hgt]]; [nia | lia | nia].
Qed.

Lemma supported_applyGenerator (op : OpData) (sv : StateVectorCudaManaged B)
    (adj : bool) :
  supported op →
  ∃ sv' c, applyGenerator sv (op_name op) (op_wires op) adj = Ok (sv', c).
Proof.
  intros [Hreg Hw].
  destruct (applyGenerator_cases sv (op_name op) (op_wires op) adj Hreg)
    as [(sv' & c & Hrun & _) | (Hc & Hnil & _)]; [by exists sv', c |].
  by destruct (Hw Hc).
Qed.

(** An iteration on the operation that the next pending trainable
    position designates. *)
Lemma sweep_step_trained (dev : DevTag) (n_obs n_jac : nat) (tp_size : Z)
    (op : OpData) (s : Sweep B) (t : N) (rest : list N)
    (mu2 : StateVectorCudaManaged B) (c : float) :
  sweep_inv dev n_obs n_jac s →
  length (op_params op) = 1%nat → is_state_prep (op_name op) = false →
  tp_it s = t :: rest → current_param_idx s = Z.of_N t →
  applyGenerator (updateData (mu s) (lambda s)) (op_name op) (op_wires op)
    (negb (op_inverse op)) = Ok (mu2, c) →
  Z.of_nat (length (tp_it s)) ≤ tp_size → tp_size < 2 ^ 64 →
  Z.of_nat n_obs * tp_size ≤ Z.of_nat n_jac < 2 ^ 64 →
  ∃ jac',
    sweep_step tp_size op s
    = Continue (mkSweep (applyOperationAdj (lambda s) op)
                  (applyOperationsAdj (H_lambda s) op) mu2 jac'
                  (wrap64 (trainableParamNumber s - 1))
                  (wrap64 (current_param_idx s - 1)) rest)
    ∧ (∀ (i : nat) h, H_lambda s !! i = Some h →
         jac' !! Z.to_nat (Z.of_nat i * tp_size + Z.of_nat (length rest))
         = Some (jac_entry h mu2 (c * (if op_inverse op then -1 else 1))))
    ∧ (∀ j : nat,
         (∀ i : nat, (i < n_obs)%nat →
                     j ≠ Z.to_nat (Z.of_nat i * tp_size + Z.of_nat (length rest))) →
         jac' !! j = jac s !! j).
Proof.
  intros [Hmu HH HHl Hjl Htpn Hcpi] Hpar Hprep Htp Hcur Hgen Hlen Htp64 Hfit.
  rewrite Htp in Htpn, Hlen. simpl length in Htpn, Hlen.
  rewrite wrap64_small in Htpn by lia.
  pose proof (applyGenerator_DevTag _ _ _ _ _ _ Hgen) as Hdev2. simpl in Hdev2.
  destruct (updateJacobian_all_spec (H_lambda s) 0 (jac s) mu2
              (c * (if op_inverse op then -1 else 1))%float
              (trainableParamNumber s) tp_size)
    as (jac' & Hrun & Hl & Hnew & Hold); [| done | lia | lia | lia |].
  { eapply Forall_impl; [exact HH |]. simpl. intros h ->. by rewrite Hdev2, Hmu. }
  exists jac'. unfold sweep_step.
  rewrite bool_decide_eq_false_2 by lia.
  rewrite Hprep, Htp, hasParams_one by done.
  rewrite Hcur, Z.eqb_refl. rewrite <- Hcur, Hgen, Hrun.
  split; [done |]. split.
  - intros i h Hi. specialize (Hnew i h Hi). rewrite Z.add_0_l in Hnew.
    rewrite <- Hnew. do 2 f_equal. lia.
  - intros j Hj. apply Hold. intros i Hi. rewrite Z.add_0_l.
    rewrite HHl in Hi. specialize (Hj i Hi). by replace (trainableParamNumber s)
      with (Z.of_nat (length rest)) by lia.
Qed.

Lemma elem_of_rev {A : Type} (x : A) (l : list A) : x ∈ rev l ↔ x ∈ l.
Proof. rewrite !list_elem_of_In. symmetry. apply in_rev. Qed.

Lemma StronglySorted_rev {A : Type} (R : relation A) (l : list A) :
  StronglySorted R l → StronglySorted (λ a b, R b a) (rev l).
Proof.
  induction 1 as [|x l Hs IH Hx]; simpl; [constructor |].
  apply StronglySorted_app_2.
  - intros x1 x2 H1 H2. apply (proj1 (elem_of_rev x1 l)) in H1.
    apply list_elem_of_singleton in H2. subst x2.
    rewrite Forall_forall in Hx. by apply Hx.
  - exact IH.
  - repeat constructor.
Qed.

Lemma pending_all (rem : OpsData) (tps : list N) :
  Forall (λ t, Z.of_N t ≤ getNumParOps rem - 1) tps → pending rem tps = tps.
Proof.
  intros H. apply filter_all. eapply Forall_impl; [exact H |].
  simpl. intros t Ht. by apply Z.leb_le.
Qed.

Lemma pending_pending (rem post : OpsData) (tps : list N) :
  pending rem (pending (rem ++ post) tps) = pending rem tps.
Proof.
  unfold pending. rewrite getNumParOps_app. pose proof (getNumParOps_bound post).
  induction tps as [|t tps IH]; simpl; [done |].
  destruct (Z.leb_spec (Z.of_N t) (getNumParOps rem + getNumParOps post - 1)); simpl.
  - by rewrite IH.
  - rewrite (proj2 (Z.leb_gt (Z.of_N t) (getNumParOps rem - 1))) by lia. exact IH.
Qed.

Lemma pending_length (rem : OpsData) (tps : list N) :
  (length (pending rem tps) ≤ length tps)%nat.
Proof. apply List.filter_length_le. Qed.

Lemma columns_kept_refl (n_obs : nat) (tp_size : Z) (s : Sweep B) :
  columns_kept n_obs tp_size s s.
Proof. by intros i j _ _. Qed.

Lemma columns_kept_trans (n_obs : nat) (tp_size : Z) (s s1 s2 : Sweep B) :
  (length (tp_it s1) ≤ length (tp_it s))%nat →
  columns_kept n_obs tp_size s s1 → columns_kept n_obs tp_size s1 s2 →
  columns_kept n_obs tp_size s s2.
Proof.
  intros Hle H1 H2 i j Hi Hj. rewrite H2 by lia. by apply H1.
Qed.

Lemma sweep_step_cursor (dev : DevTag) (n_obs n_jac : nat) (tp_size : Z)
    (rem : OpsData) (op : OpData) (s : Sweep B) :
  sweep_inv dev n_obs n_jac s → cursor_inv tp_size (rem ++ [op]) s →
  tp_size < 2 ^ 64 → Z.of_nat n_obs * tp_size ≤ Z.of_nat n_jac < 2 ^ 64 →
  tp_it s ≠ [] →
  ∃ s', sweep_step tp_size op s = Continue s'
        ∧ cursor_inv tp_size rem s'
        ∧ tp_it s' = pending rem (tp_it s)
        ∧ columns_kept n_obs tp_size s s'.
Proof.
  intros Hinv [Hcpi Hb Hs Hl Hsup Htape Hsz] Htp64 Hfit Hne.
  apply Forall_app in Htape as [Htape Hop].
  apply Forall_singleton in Hop as [Hop1 Hop0].
  assert (Hsup' : ∀ tps', (∀ t, t ∈ tps' → t ∈ tp_it s) → trained_supported rem tps')
    by (intros tps'; by apply (trained_supported_prefix rem [op] (tp_it s) tps')).
  rewrite length_app in Hsz. simpl in Hsz.
  pose proof (getNumParOps_bound rem) as Hnum.
  rewrite getNumParOps_snoc in Hcpi, Hb.
  destruct (hasParams op) eqn:Hpar.
  - assert (Hone : length (op_params op) = 1%nat).
    { unfold hasParams in Hpar. destruct (op_params op); [done | simpl in *; lia]. }
    assert (Hprep : is_state_prep (op_name op) = false).
    { destruct (is_state_prep (op_name op)); [| done].
      rewrite Hop0 in Hone; done. }
    replace (getNumParOps rem + 1 - 1) with (getNumParOps rem) in Hcpi, Hb by lia.
    rewrite wrap64_small in Hcpi by lia.
    destruct (tp_it s) as [|t rest] eqn:Etp; [done |].
    apply Forall_cons in Hb as [Ht Hb].
    apply StronglySorted_inv in Hs as [Hs Hlt].
    destruct (Z.eq_dec (Z.of_N t) (getNumParOps rem)) as [Heq | Hneq].
    + assert (Hsupp : supported op).
      { apply (Hsup rem op [] t); [done | done | by left | done]. }
      destruct (supported_applyGenerator op (updateData (mu s) (lambda s))
                  (negb (op_inverse op)) Hsupp) as (mu2 & c & Hgen).
      destruct (sweep_step_trained dev n_obs n_jac tp_size op s t rest mu2 c)
        as (jac' & Hstep & _ & Hold); try done; [congruence | by rewrite Etp |].
      eexists. split; [exact Hstep |]. simpl.
      assert (Hrest : Forall (λ t', Z.of_N t' ≤ getNumParOps rem - 1) rest).
      { eapply Forall_impl; [exact Hlt |]. simpl. intros b Hb'. lia. }
      split; [split; simpl |].
      * by rewrite Hcpi.
      * done.
      * done.
      * simpl in Hl. lia.
      * apply Hsup'. intros t' Ht'. by right.
      * done.
      * lia.
      * split.
        -- unfold pending. simpl.
           rewrite (proj2 (Z.leb_gt _ _)) by lia. symmetry. by apply pending_all.
        -- intros i j Hi Hj. simpl. apply Hold. intros i' Hi'.
           rewrite Etp in Hj. simpl in Hj, Hl.
           apply col_index_ne; lia.
    + rewrite (sweep_step_mismatch tp_size op s t rest) by (done || congruence).
      eexists. split; [done |]. simpl.
      assert (Hall : Forall (λ t', Z.of_N t' ≤ getNumParOps rem - 1) (t :: rest)).
      { constructor; [lia |].
        eapply Forall_impl; [exact Hlt |]. simpl. intros b Hb'. lia. }
      split; [split; simpl; rewrite ?Etp |].
      * by rewrite Hcpi.
      * done.
      * by constructor.
      * done.
      * by apply Hsup'.
      * done.
      * lia.
      * rewrite Etp. split; [symmetry; by apply pending_all | by intros i j _ _].
  - rewrite Z.add_0_r in Hcpi, Hb.
    assert (Hkeep : ∃ s', sweep_step tp_size op s = Continue s'
                          ∧ tp_it s' = tp_it s ∧ jac s' = jac s
                          ∧ current_param_idx s' = current_param_idx s).
    { unfold sweep_step. rewrite bool_decide_eq_false_2 by lia.
      destruct (is_state_prep (op_name op)); [by eexists |].
      destruct (tp_it s) as [|t rest] eqn:Etp; [done |].
      rewrite Hpar. by eexists. }
    destruct Hkeep as (s' & Hstep & Htp' & Hjac' & Hcpi').
    exists s'. split; [done |]. rewrite Htp'.
    split; [split; rewrite ?Htp' |].
    + by rewrite Hcpi'.
    + done.
    + done.
    + done.
    + by apply Hsup'.
    + done.
    + lia.
    + split; [symmetry; by apply pending_all |].
      intros i j _ _. by rewrite Hjac'.
Qed.

Lemma sweep_reach_cursor (dev : DevTag) (n_obs n_jac : nat) (tp_size : Z)
    (post : OpsData) :
  tp_size < 2 ^ 64 → Z.of_nat n_obs * tp_size ≤ Z.of_nat n_jac < 2 ^ 64 →
  ∀ (rem : OpsData) (s : Sweep B),
    sweep_inv dev n_obs n_jac s → cursor_inv tp_size (rem ++ post) s →
    pending rem (tp_it s) ≠ [] →
    ∃ s', sweep_reach tp_size (rev post) s = Some s'
          ∧ sweep_inv dev n_obs n_jac s'
          ∧ cursor_inv tp_size rem s'
          ∧ tp_it s' = pending rem (tp_it s)
          ∧ columns_kept n_obs tp_size s s'.
Proof.
  intros Htp64 Hfit. induction post as [|o post IH] using rev_ind;
    intros rem s Hinv Hcur Hpend.
  - rewrite app_nil_r in Hcur. exists s. simpl.
    split; [done |]. split; [done |]. split; [done |].
    split; [| apply columns_kept_refl].
    symmetry. apply pending_all. by destruct Hcur.
  - rewrite rev_unit. rewrite app_assoc in Hcur.
    assert (Hne : tp_it s ≠ []).
    { intros Hnil. by rewrite Hnil in Hpend. }
    destruct (sweep_step_cursor dev n_obs n_jac tp_size (rem ++ post) o s)
      as (s1 & Hstep & Hcur1 & Htp1 & Hkept1); try done.
    destruct (sweep_step_inv _ _ _ _ _ _ _ Hinv Hstep) as (Hinv1 & _ & Hle1).
    destruct (IH rem s1 Hinv1 Hcur1) as (s' & Hreach & Hinv' & Hcur' & Htp' & Hkept').
    { by rewrite Htp1, pending_pending. }
    exists s'. simpl. rewrite Hstep.
    split; [done |]. split; [done |]. split; [done |]. split.
    + by rewrite Htp', Htp1, pending_pending.
    + by apply (columns_kept_trans n_obs tp_size s s1 s').
Qed.

Lemma sweep_loop_cursor (dev : DevTag) (n_obs n_jac : nat) (tp_size : Z)
    (rem : OpsData) :
  tp_size < 2 ^ 64 → Z.of_nat n_obs * tp_size ≤ Z.of_nat n_jac < 2 ^ 64 →
  ∀ s : Sweep B,
    sweep_inv dev n_obs n_jac s → cursor_inv tp_size rem s →
    ∃ s', sweep_loop tp_size (rev rem) s = (s', None)
          ∧ columns_kept n_obs tp_size s s'.
Proof.
  intros Htp64 Hfit. induction rem as [|o rem IH] using rev_ind; intros s Hinv Hcur.
  - exists s. split; [done | apply columns_kept_refl].
  - rewrite rev_unit.
    destruct (tp_it s) as [|t rest] eqn:Etp.
    + exists s. split; [| apply columns_kept_refl].
      apply sweep_loop_finished; [done |].
      destruct Hcur as [_ _ _ _ _ Htape _].
      apply Forall_app in Htape as [Htape Hop].
      constructor.
      * by apply Forall_singleton in Hop as [? _].
      * apply List.Forall_rev. eapply Forall_impl; [exact Htape |]. by intros ? [? _].
    + destruct (sweep_step_cursor dev n_obs n_jac tp_size rem o s)
        as (s1 & Hstep & Hcur1 & Htp1 & Hkept1); try done; [by rewrite Etp |].
      destruct (sweep_step_inv _ _ _ _ _ _ _ Hinv Hstep) as (Hinv1 & _ & Hle1).
      destruct (IH s1 Hinv1 Hcur1) as (s' & Hrun & Hkept').
      exists s'. simpl. rewrite Hstep. split; [done |].
      by apply (columns_kept_trans n_obs tp_size s s1 s').
Qed.

Lemma pending_split (rem : OpsData) (lo hi : list N) (t : N) :
  StronglySorted N.lt (lo ++ t :: hi) → Z.of_N t = getNumParOps rem - 1 →
  pending rem (rev (lo ++ t :: hi)) = t :: rev lo.
Proof.
  intros Hs Ht. rewrite rev_app_distr. simpl. rewrite <- app_assoc. simpl.
  unfold pending. rewrite List.filter_app. simpl.
  rewrite (proj2 (Z.leb_le _ _)) by lia.
  rewrite filter_none, filter_all; [done | |].
  - apply List.Forall_rev. apply Forall_forall. intros x Hx.
    apply Z.leb_le.
    assert (x < t)%N; [| lia].
    apply (StronglySorted_app_1_elem_of N.lt lo (t :: hi) x t Hs Hx). by left.
  - apply List.Forall_rev. apply Forall_forall. intros x Hx.
    apply Z.leb_gt.
    apply StronglySorted_app_1_r, StronglySorted_inv in Hs as [_ Hhi].
    rewrite Forall_forall in Hhi. specialize (Hhi x Hx). lia.
Qed.

Lemma adjointJacobian_sweep (ref_data : Amp B) (jac0 : list float)
    (obs : list ObservableGPU) (ops : OpsData) (tps : list N)
    (apply_operations : bool) (dev : DevTag) :
  tps ≠ [] →
  adjointJacobian ref_data jac0 obs ops tps apply_operations dev
  = (jac (sweep_loop (Z.of_nat (length tps)) (walk_order ops)
            (sweep_init ref_data jac0 obs ops tps apply_operations dev)).1,
     (sweep_loop (Z.of_nat (length tps)) (walk_order ops)
        (sweep_init ref_data jac0 obs ops tps apply_operations dev)).2).
Proof.
  intros Hne. unfold adjointJacobian.
  destruct tps as [|t tps'] eqn:E; [done |]. rewrite <- E.
  by destruct (sweep_loop _ _ _).
Qed.

(** X19. The entries [adjointJacobian] computes. Let the tape be
    [pre ++ op :: post], shorter than 2^31 operations, with at most one
    parameter per operation and none on the state-preparation sentinels; let
    the trainable positions [tps_lo ++ tp :: tps_hi] be strictly
    ascending and below the number of parametric operations, with a
    registered generator for every operation they designate (and a wire,
    where the generator reads the last one); and let [op]
    be the parametric operation at position [tp], on a buffer of at least
    [observables * trainable parameters] entries. Then the call succeeds,
    and for every observable [i] the entry in row [i] and column
    [length tps_lo] is [-2 * c * Im <b_i | g>], where the ket [g] is the
    generator of [op] (adjoint flag negated) applied to the input state with
    the operations after [op] undone, the bra [b_i] is observable [i]
    applied to the input state with the same operations undone, and [c] is
    the registered coefficient, negated when [op] is inverted. *)
Theorem adjointJacobian_entry (ref_data : Amp B) (jac0 : list float)
    (obs : list ObservableGPU) (pre post : OpsData) (op : OpData)
    (tps_lo tps_hi : list N) (tp : N) (apply_operations : bool) (dev : DevTag) :
  let ops := pre ++ op :: post in
  let tps := tps_lo ++ tp :: tps_hi in
  let tp_size := Z.of_nat (length tps) in
  let lambda0 :=
    if apply_operations then applyOperations (mkSV dev ref_data) ops false
    else mkSV dev ref_data in
  let undone := List.filter not_state_prep (rev post) in
  let lam := applyOperations lambda0 undone true in
  well_formed_tape ops → Z.of_nat (length ops) < 2 ^ 31 →
  StronglySorted N.lt tps → Forall (λ t, Z.of_N t < getNumParOps ops) tps →
  trained_supported ops tps →
  length (op_params op) = 1%nat → Z.of_N tp = getNumParOps pre →
  tp_size < 2 ^ 64 →
  Z.of_nat (length obs) * tp_size ≤ Z.of_nat (length jac0) < 2 ^ 64 →
  ∃ jac' mu' c,
    adjointJacobian ref_data jac0 obs ops tps apply_operations dev = (jac', None)
    ∧ applyGenerator lam (op_name op) (op_wires op) (negb (op_inverse op))
      = Ok (mu', c)
    ∧ ∀ (i : nat) ob, obs !! i = Some ob →
        jac' !! Z.to_nat (Z.of_nat i * tp_size + Z.of_nat (length tps_lo))
        = Some (jac_entry
                  (applyOperations
                     (applyInPlace ob
                        (updateData (sv_alloc (getNumQubits lambda0) dev) lambda0))
                     undone true)
                  mu' (c * (if op_inverse op then -1 else 1))).
Proof.
  intros ops tps tp_size lambda0 undone lam Htape Hlen Hsorted Hbound Hsup Hone Hpos
    Htp64 Hfit.
  set (s0 := sweep_init ref_data jac0 obs ops tps apply_operations dev).
  pose proof (sweep_init_inv ref_data jac0 obs ops tps apply_operations dev) as Hinv0.
  fold s0 in Hinv0.
  assert (Hops : ops = (pre ++ [op]) ++ post)
    by (unfold ops; by rewrite <- app_assoc).
  assert (Hnum : getNumParOps (pre ++ [op]) = getNumParOps pre + 1).
  { by rewrite getNumParOps_snoc, hasParams_one. }
  assert (Hcur0 : cursor_inv tp_size ops s0).
  { split.
    - done.
    - simpl. apply List.Forall_rev. eapply Forall_impl; [exact Hbound |].
      simpl. intros t Ht. lia.
    - simpl. by apply (StronglySorted_rev N.lt).
    - simpl. rewrite length_rev. unfold tp_size. lia.
    - simpl. intros pre' o post' t Heq Hpar Ht Hp.
      apply (Hsup pre' o post' t); [done | done | by apply elem_of_rev | done].
    - done.
    - lia. }
  assert (Hpend : pending (pre ++ [op]) (tp_it s0) = tp :: rev tps_lo).
  { simpl. apply pending_split; [done | lia]. }
  destruct (sweep_reach_cursor dev (length obs) (length jac0) tp_size post Htp64 Hfit
              (pre ++ [op]) s0 Hinv0) as (s & Hreach & Hinv & Hcur & Htp & _).
  { by rewrite <- Hops. }
  { by rewrite Hpend. }
  rewrite Hpend in Htp.
  destruct (sweep_reach_undo _ _ _ _ Hreach) as [Hlam HH].
  assert (Hdev0 : getDevTag lambda0 = dev).
  { unfold lambda0. destruct apply_operations; [| done].
    by rewrite applyOperations_DevTag. }
  assert (Hmu : updateData (mu s) (lambda s) = lam).
  { assert (Hlam' : lambda s = lam) by (rewrite Hlam; done).
    unfold updateData. rewrite Hlam'.
    transitivity (mkSV (getDevTag lam) (getData lam)); [| apply SV_eta].
    f_equal. unfold lam. rewrite applyOperations_DevTag, Hdev0. by destruct Hinv. }
  assert (Hcpi : current_param_idx s = Z.of_N tp).
  { destruct Hcur as [Hc _ _ _ _ _ _]. rewrite Hc, Hnum.
    pose proof (getNumParOps_bound pre). unfold ops in Hlen.
    rewrite length_app in Hlen. rewrite wrap64_small; lia. }
  assert (Hprep : is_state_prep (op_name op) = false).
  { destruct (is_state_prep (op_name op)) eqn:E; [| done].
    unfold ops in Htape. apply Forall_app in Htape as [_ Htape].
    apply Forall_cons in Htape as [[_ H0] _]. rewrite (H0 E) in Hone. done. }
  assert (Hsupp : supported op).
  { apply (Hsup pre op post tp); [done | by apply hasParams_one | | done].
    unfold tps. apply elem_of_app. right. by left. }
  destruct (supported_applyGenerator op lam (negb (op_inverse op)) Hsupp)
    as (mu2 & c & Hgen).
  destruct (sweep_step_trained dev (length obs) (length jac0) tp_size op s tp
              (rev tps_lo) mu2 c) as (jac2 & Hstep & Hnew & _); try done.
  { by rewrite Hmu. }
  { rewrite Htp. simpl. rewrite length_rev. unfold tp_size, tps.
    rewrite length_app. simpl. lia. }
  destruct (sweep_step_cursor dev (length obs) (length jac0) tp_size pre op s)
    as (s2 & Hstep2 & Hcur2 & Htp2 & _); try done; [by rewrite Htp |].
  destruct (sweep_step_inv _ _ _ _ _ _ _ Hinv Hstep2) as (Hinv2 & _ & _).
  destruct (sweep_loop_cursor dev (length obs) (length jac0) tp_size pre Htp64 Hfit
              s2 Hinv2 Hcur2) as (s' & Hrun & Hkept).
  rewrite Hstep in Hstep2. injection Hstep2 as Hs2.
  exists (jac s'), mu2, c. split; [| split; [done |]].
  - rewrite adjointJacobian_sweep by (unfold tps; by destruct tps_lo).
    assert (Hloop : sweep_loop tp_size (walk_order ops) s0 = (s', None)).
    { rewrite walk_order_small by done. unfold ops.
      rewrite rev_tape_split, (sweep_loop_reach _ _ _ _ _ Hreach).
      simpl. by rewrite Hstep, Hs2, Hrun. }
    fold tp_size s0. by rewrite Hloop.
  - intros i ob Hi.
    assert (Hi' : (i < length obs)%nat) by by eapply lookup_lt_Some.
    assert (Hlo : Z.of_nat (length tps_lo) < tp_size).
    { unfold tp_size, tps. rewrite length_app. simpl. lia. }
    rewrite Hkept; [| lia |].
    + rewrite <- Hs2. simpl. rewrite <- (length_rev tps_lo). apply Hnew.
      rewrite HH. simpl. unfold applyObservables.
      change (map ?f ?l) with (f <$> l). rewrite !list_lookup_fmap, Hi. done.
    + rewrite <- Hs2. simpl. rewrite length_rev. lia.
Qed.
End Entries.

Lemma adjointJacobian_entry_witness :
  ∃ jac',
    adjointJacobian Examples.ref_state [0; 0; 0; 0]%float Examples.obs2 Examples.tape2
      [0; 1]%N false Examples.dev0 = (jac', None)
    ∧ is_Some (jac' !! 0%nat).
Proof.
  assert (Htape : well_formed_tape ([] ++ Examples.RX 0 0.5 :: [Examples.RY 1 0.25])).
  { repeat constructor; simpl; (lia || done). }
  assert (Hsorted : StronglySorted N.lt ([] ++ 0%N :: [1%N])).
  { repeat constructor. }
  assert (Hbound : Forall (λ t, Z.of_N t
                                < getNumParOps ([] ++ Examples.RX 0 0.5
                                                :: [Examples.RY 1 0.25]))
                     ([] ++ 0%N :: [1%N])).
  { repeat constructor. }
  assert (Hsup : trained_supported ([] ++ Examples.RX 0 0.5 :: [Examples.RY 1 0.25])
                   ([] ++ 0%N :: [1%N])).
  { intros pre o post t Heq _ _ _.
    assert (Ho : o = Examples.RX 0 0.5 ∨ o = Examples.RY 1 0.25).
    { destruct pre as [|a [|b pre]]; simpl in Heq.
      - left. by injection Heq as <- _.
      - right. by injection Heq as _ <- _.
      - injection Heq as _ _ Heq. by destruct pre. }
    destruct Ho as [-> | ->]; (split; [by eexists | intros _; done]). }
  destruct (adjointJacobian_entry Examples.ref_state [0; 0; 0; 0]%float Examples.obs2
              [] [Examples.RY 1 0.25] (Examples.RX 0 0.5) [] [1%N] 0%N false
              Examples.dev0 Htape ltac:(simpl; lia) Hsorted Hbound Hsup eq_refl eq_refl
              ltac:(simpl; lia) ltac:(simpl; lia))
    as (jac' & mu' & c & Hrun & _ & Hentry).
  exists jac'. split; [exact Hrun |].
  eexists. apply (Hentry 0%nat (Examples.PauliZ_obs 0)). reflexivity.
Defined.


(** * Further properties: the device of the sweep *)

Section Device.
Context {B : Backend}.

Lemma applyInPlace_data (o : ObservableGPU) :
  ∀ sv sv' : StateVectorCudaManaged B,
    getData sv = getData sv' →
    getData (applyInPlace o sv) = getData (applyInPlace o sv').
Proof.
  induction o as [n w p|m w|obs aw IH|cs obs IH] using ObservableGPU_nested_ind;
    intros sv sv' Hd.
  - simpl. by rewrite Hd.
  - simpl. by rewrite Hd.
  - simpl. revert sv sv' Hd.
    induction IH as [|ob obs Hob _ IHobs]; intros sv sv' Hd; [done |].
    apply IHobs. by apply Hob.
  - simpl. unfold getLength. rewrite Hd.
    generalize (amp_zeros B (getLength_amp B (getData sv'))).
    revert cs. induction IH as [|ob obs Hob _ IHobs]; intros cs d.
    + by destruct cs.
    + destruct cs as [|c cs]; [done |]. rewrite (Hob sv sv' Hd). apply IHobs.
Qed.

Lemma applyOperations_data (ops : OpsData) (adj : bool) :
  ∀ sv sv' : StateVectorCudaManaged B,
    getData sv = getData sv' →
    getData (applyOperations sv ops adj) = getData (applyOperations sv' ops adj).
Proof.
  unfold applyOperations. induction ops as [|op ops IH]; intros sv sv' Hd; [done |].
  simpl. apply IH. simpl. by rewrite Hd.
Qed.

Lemma applyGenerator_data (sv sv' : StateVectorCudaManaged B) (name : string)
    (wires : list N) (adj : bool) :
  getData sv = getData sv' →
  generators_same_data (applyGenerator sv name wires adj)
    (applyGenerator sv' name wires adj).
Proof.
  intros Hd. unfold applyGenerator.
  destruct (generator_map !! name) as [g|]; [| done].
  destruct (scaling_factors !! name) as [c|];
    destruct g; unfold call_generator; try destruct (wires_back wires);
    simpl; by rewrite ?Hd.
Qed.

Lemma updateJacobian_all_data (H H' : list (StateVectorCudaManaged B)) :
  ∀ k mu mu' jac c p tp_size,
    map getData H = map getData H' → getData mu = getData mu' →
    Forall (λ h, getDeviceID (getDevTag h) = getDeviceID (getDevTag mu)) H →
    Forall (λ h, getDeviceID (getDevTag h) = getDeviceID (getDevTag mu')) H' →
    updateJacobian_all H k mu jac c p tp_size
    = updateJacobian_all H' k mu' jac c p tp_size.
Proof.
  revert H'. induction H as [|h H IH]; intros [|h' H'] k mu mu' jac c p tp_size
    Hmap Hmu Hd Hd'; simpl in *; try done.
  injection Hmap as Hh Hmap.
  apply Forall_cons in Hd as [Hdh Hd]. apply Forall_cons in Hd' as [Hdh' Hd'].
  unfold updateJacobian. rewrite Hdh, Hdh', !Z.eqb_refl, Hh, Hmu. simpl.
  destruct (_ <? _); [| done]. by apply IH.
Qed.

Lemma sweep_step_data (dev dev' : DevTag) (n_obs n_jac : nat) (tp_size : Z)
    (op : OpData) (s s' : Sweep B) :
  sweep_inv dev n_obs n_jac s → sweep_inv dev' n_obs n_jac s' → same_data s s' →
  steps_same_data (sweep_step tp_size op s) (sweep_step tp_size op s').
Proof.
  intros [Hmu HH _ _ _ _] [Hmu' HH' _ _ _ _] (Hl & HHd & Hm & Hj & Ht & Hc & Hi).
  unfold sweep_step. rewrite <- Hi, <- Hc, <- Ht, <- Hj.
  case_bool_decide; [done |].
  destruct (is_state_prep (op_name op)); [done |].
  destruct (tp_it s) as [|t rest]; [done |].
  assert (HH1 : map getData (applyOperationsAdj (H_lambda s) op)
                = map getData (applyOperationsAdj (H_lambda s') op)).
  { unfold applyOperationsAdj, applyOperationAdj. rewrite !map_map. simpl.
    rewrite <- !(map_map getData (λ d, exec B _ d)). by rewrite HHd. }
  destruct (hasParams op).
  - destruct (current_param_idx s =? Z.of_N t).
    + pose proof (applyGenerator_data (updateData (mu s) (lambda s))
                    (updateData (mu s') (lambda s')) (op_name op) (op_wires op)
                    (negb (op_inverse op)) Hl) as Hgen.
      destruct (applyGenerator (updateData (mu s) (lambda s)) _ _ _)
        as [[m c]|e] eqn:E;
        destruct (applyGenerator (updateData (mu s') (lambda s')) _ _ _)
          as [[m' c']|e'] eqn:E'; simpl in Hgen; try done.
      destruct Hgen as [Hmd <-].
      apply applyGenerator_DevTag in E, E'. simpl in E, E'.
      rewrite (updateJacobian_all_data (H_lambda s) (H_lambda s') 0 m m' (jac s)
                 _ _ tp_size HHd Hmd).
      * destruct (updateJacobian_all _ _ _ _ _ _ _) as [jac' [e|]]; simpl; [done |].
        repeat split; try done. simpl. by rewrite Hl.
      * eapply Forall_impl; [exact HH |]. simpl. intros h ->. by rewrite E, Hmu.
      * eapply Forall_impl; [exact HH' |]. simpl. intros h ->. by rewrite E', Hmu'.
    + simpl. repeat split; try done. simpl. by rewrite Hl.
  - simpl. repeat split; try done. simpl. by rewrite Hl.
Qed.

Lemma sweep_loop_data (dev dev' : DevTag) (n_obs n_jac : nat) (tp_size : Z)
    (walk : list OpData) :
  ∀ s s' : Sweep B,
    sweep_inv dev n_obs n_jac s → sweep_inv dev' n_obs n_jac s' → same_data s s' →
    jac (sweep_loop tp_size walk s).1 = jac (sweep_loop tp_size walk s').1
    ∧ (sweep_loop tp_size walk s).2 = (sweep_loop tp_size walk s').2.
Proof.
  induction walk as [|op walk IH]; intros s s' Hinv Hinv' Hs.
  - simpl. by destruct Hs as (_ & _ & _ & ? & _).
  - simpl. pose proof (sweep_step_data _ _ _ _ tp_size op _ _ Hinv Hinv' Hs) as Hstep.
    destruct (sweep_step tp_size op s) as [s1| |s1 e] eqn:E;
      destruct (sweep_step tp_size op s') as [s1'| |s1' e'] eqn:E';
      simpl in Hstep; try done.
    + destruct (sweep_step_inv _ _ _ _ _ _ _ Hinv E) as (Hinv1 & _).
      destruct (sweep_step_inv _ _ _ _ _ _ _ Hinv' E') as (Hinv1' & _).
      by apply IH.
    + simpl. by destruct Hs as (_ & _ & _ & ? & _).
    + simpl. by destruct Hstep as [-> ->].
Qed.

Lemma adjointJacobian_device (ref_data : Amp B) (jac0 : list float)
    (obs : list ObservableGPU) (ops : OpsData) (trainableParams : list N)
    (apply_operations : bool) (dev dev' : DevTag) :
  adjointJacobian ref_data jac0 obs ops trainableParams apply_operations dev
  = adjointJacobian ref_data jac0 obs ops trainableParams apply_operations dev'.
Proof.
  unfold adjointJacobian.
  destruct trainableParams as [|tp tps] eqn:Etps; [done |]. rewrite <- Etps.
  destruct (sweep_loop_data dev dev' (length obs) (length jac0)
              (Z.of_nat (length trainableParams)) (walk_order ops)
              (sweep_init ref_data jac0 obs ops trainableParams apply_operations dev)
              (sweep_init ref_data jac0 obs ops trainableParams apply_operations dev'))
    as [Hj Hr]; [apply sweep_init_inv | apply sweep_init_inv | |].
  - assert (Hl : getData (if apply_operations
                          then applyOperations (mkSV dev ref_data) ops false
                          else mkSV dev ref_data)
                 = getData (if apply_operations
                            then applyOperations (mkSV dev' ref_data) ops false
                            else mkSV dev' ref_data)).
    { destruct apply_operations; [by apply applyOperations_data | done]. }
    unfold same_data, sweep_init. simpl. unfold getNumQubits. rewrite Hl.
    repeat split; try done.
    unfold applyObservables. rewrite !map_map. apply map_ext. intros ob.
    by apply applyInPlace_data.
  - destruct (sweep_loop _ _ _) as [s r], (sweep_loop _ _ _) as [s' r'].
    simpl in *. congruence.
Qed.
End Device.


(** X23. The buffer and the outcome of [adjointJacobian] do not depend on
    the device tag it is given: the tag decides where the states live, and
    every kernel call, inner product and comparison of the sweep reads the
    amplitudes only. *)
Theorem adjointJacobian_any_device {B : Backend} (ref_data : Amp B)
    (jac0 : list float) (obs : list ObservableGPU) (ops : OpsData)
    (trainableParams : list N) (apply_operations : bool) (dev dev' : DevTag) :
  adjointJacobian ref_data jac0 obs ops trainableParams apply_operations dev
  = adjointJacobian ref_data jac0 obs ops trainableParams apply_operations dev'.
Proof. apply adjointJacobian_device. Qed.

(** * Further properties: batching with one trainable parameter *)

Lemma shard_start_step (n i k : Z) :
  0 < k → k ≤ n → 0 ≤ i < k →
  0 ≤ shard_start n i k < shard_start n (i + 1) k ∧ shard_start n (i + 1) k ≤ n.
Proof.
  intros Hk Hn Hi. unfold shard_start.
  assert (0 ≤ n * i / k) by (apply Z.div_pos; nia).
  assert (n * i / k + 1 ≤ (n * i + k) / k).
  { rewrite <- (Z.mul_1_l k) at 2. rewrite Z.div_add by lia. lia. }
  assert ((n * i + k) / k ≤ (n * i + n) / k) by (apply Z.div_le_mono; lia).
  replace (n * (i + 1)) with (n * i + n) by lia.
  assert ((n * i + n) / k ≤ n) by (apply Z.div_le_upper_bound; nia).
  lia.
Qed.

Lemma shard_start_0 (n k : Z) : shard_start n 0 k = 0.
Proof. unfold shard_start. by rewrite Z.mul_0_r. Qed.

Lemma shard_start_end (n k : Z) : 0 < k → shard_start n k k = n.
Proof. intros Hk. unfold shard_start. by rewrite Z.div_mul by lia. Qed.

Lemma run_workers_in_time {B : Backend} (sched : Schedule) (fuel : nat) :
  ∀ (i num_chunks : Z) (dp : DevicePool) (ref_data : Amp B)
    (obs : list ObservableGPU) (ops : OpsData) (trainableParams : list N)
    (apply_operations : bool),
    (∀ j, i ≤ j < i + Z.of_nat fuel → sched j = true) →
    run_workers sched fuel i num_chunks dp ref_data obs ops trainableParams
      apply_operations
    = run_workers all_in_time fuel i num_chunks dp ref_data obs ops trainableParams
        apply_operations.
Proof.
  induction fuel as [|fuel IH]; intros i num_chunks dp ref_data obs ops tps ao Hs;
    [done |].
  simpl.
  destruct (shard_first _ _ _) as [first|]; [| done].
  destruct (shard_last _ _ _) as [last|]; [| done].
  rewrite Hs by lia. unfold all_in_time at 1.
  destruct (adj_lambda dp first last ref_data obs ops tps ao) as [dp1 [rows|e|]];
    [| done..].
  rewrite IH; [done |]. intros j Hj. apply Hs. lia.
Qed.

Section OneParameter.
Context {B : Backend}.
Context (ref_data : Amp B) (obs : list ObservableGPU) (ops : OpsData) (t : N).
Context (apply_operations : bool) (num_gpus : N).
Local Notation k := (Z.of_N num_gpus).
Hypothesis Hk : 0 < k.
Hypothesis Hn : k ≤ Z.of_nat (length obs).
Hypothesis Hfit : Z.of_nat (length obs) * k < 2 ^ 53.

Lemma sweep_of_app (part1 part2 : list ObservableGPU) :
  Z.of_nat (length (part1 ++ part2)) < 2 ^ 64 →
  sweep_of ref_data ops t apply_operations (part1 ++ part2)
  = ((sweep_of ref_data ops t apply_operations part1).1
     ++ (sweep_of ref_data ops t apply_operations part2).1,
     (sweep_of ref_data ops t apply_operations part1).2)
  ∧ (sweep_of ref_data ops t apply_operations part1).2
    = (sweep_of ref_data ops t apply_operations part2).2.
Proof.
  intros Hlen. unfold sweep_of. rewrite length_app, replicate_add.
  apply adjointJacobian_concat.
  - rewrite length_replicate. simpl. lia.
  - rewrite length_replicate. simpl. lia.
  - rewrite length_app, !length_replicate. by rewrite length_app in Hlen.
  - simpl. lia.
Qed.

Lemma sweep_of_length (part : list ObservableGPU) :
  length (sweep_of ref_data ops t apply_operations part).1 = length part.
Proof. unfold sweep_of. by rewrite adjointJacobian_length, length_replicate. Qed.

Lemma obs_from_step (i : Z) :
  0 ≤ i < k → obs_from obs i k = shard_obs obs i k ++ obs_from obs (i + 1) k.
Proof.
  intros Hi. unfold obs_from, shard_obs.
  destruct (shard_start_step (Z.of_nat (length obs)) i k Hk Hn Hi) as [Hlt Hle].
  set (a := shard_start (Z.of_nat (length obs)) i k) in *.
  set (b := shard_start (Z.of_nat (length obs)) (i + 1) k) in *.
  rewrite <- (take_drop (Z.to_nat (b - a)) (drop (Z.to_nat a) obs)) at 1.
  f_equal. rewrite drop_drop. f_equal. lia.
Qed.

Lemma obs_from_length (i : Z) :
  0 ≤ i ≤ k → Z.of_nat (length (obs_from obs i k)) < 2 ^ 64.
Proof.
  intros Hi. unfold obs_from. rewrite length_drop. nia.
Qed.

Lemma shard_obs_length (i : Z) :
  0 ≤ i < k →
  Z.of_nat (length (shard_obs obs i k))
  = shard_start (Z.of_nat (length obs)) (i + 1) k
    - shard_start (Z.of_nat (length obs)) i k.
Proof.
  intros Hi. unfold shard_obs.
  destruct (shard_start_step (Z.of_nat (length obs)) i k Hk Hn Hi) as [Hlt Hle].
  rewrite length_take, length_drop. lia.
Qed.

(** What one worker does, given a free device. *)
Lemma adj_lambda_shard (dp : DevicePool) (id : Z) (rest : list Z) (i : Z) :
  0 ≤ i < k → available dp = id :: rest →
  adj_lambda dp (shard_start (Z.of_nat (length obs)) i k)
    (shard_start (Z.of_nat (length obs)) (i + 1) k - 1)
    ref_data obs ops [t] apply_operations
  = match sweep_of ref_data ops t apply_operations (shard_obs obs i k) with
    | (rows, None) => (mkPool (getTotalDevices dp) (rest ++ [id]), Fulfilled rows)
    | (_, Some e) => (mkPool (getTotalDevices dp) rest, Escaped e)
    end.
Proof.
  intros Hi Hdp.
  destruct (shard_start_step (Z.of_nat (length obs)) i k Hk Hn Hi) as [Hlt Hle].
  pose proof (shard_obs_length i Hi) as Hlen.
  set (a := shard_start (Z.of_nat (length obs)) i k) in *.
  set (b := shard_start (Z.of_nat (length obs)) (i + 1) k) in *.
  assert (Hrange : obs_range a (b - 1) obs = Ok (shard_obs obs i k)).
  { unfold obs_range. replace (b - 1 + 1) with b by lia.
    rewrite wrap64_small by nia.
    rewrite (proj2 (Z.leb_le a b)) by lia.
    rewrite (proj2 (Z.leb_le b _)) by lia. done. }
  rewrite (adj_lambda_end dp id rest a (b - 1) ref_data obs (shard_obs obs i k))
    by done.
  replace (Z.to_nat (wrap64 (wrap64 (b - 1 - a + 1) * Z.of_nat (length [t]))))
    with (length (shard_obs obs i k)).
  - unfold sweep_of.
    by rewrite (adjointJacobian_device _ _ _ _ _ _ (mkDevTag id 0) (mkDevTag 0 0)).
  - replace (b - 1 - a + 1) with (b - a) by lia. simpl length.
    rewrite (wrap64_small (b - a)) by nia. rewrite Z.mul_1_r.
    rewrite wrap64_small by nia. lia.
Qed.

Lemma run_workers_shards (fuel : nat) :
  ∀ (i : Z) (dp : DevicePool),
    Z.of_nat fuel = k - i → 0 ≤ i →
    available dp = seqZ i (k - i) ++ seqZ 0 i → getTotalDevices dp = k →
    (sweep_of ref_data ops t apply_operations (obs_from obs i k)).2 = None →
    run_workers all_in_time fuel i k dp ref_data obs ops [t] apply_operations
    = (mkPool k (seqZ 0 k),
       inr (map (λ j, (sweep_of ref_data ops t apply_operations (shard_obs obs j k)).1)
              (seqZ i (k - i)))).
Proof.
  induction fuel as [|fuel IH]; intros i dp Hfuel Hi Hav Htot Hok.
  - assert (i = k) by lia. subst i. simpl.
    rewrite Z.sub_diag in *. rewrite seqZ_nil in * by lia. simpl in *.
    destruct dp. simpl in *. by subst.
  - assert (Hik : 0 ≤ i < k) by lia.
    destruct (shard_start_step (Z.of_nat (length obs)) i k Hk Hn Hik) as [Hlt Hle].
    assert (k < 2 ^ 64) by nia.
    simpl run_workers.
    fold (shard_start (Z.of_nat (length obs)) i k).
    rewrite shard_first_small, shard_last_small by lia.
    fold (shard_start (Z.of_nat (length obs)) i k).
    fold (shard_start (Z.of_nat (length obs)) (i + 1) k).
    destruct (Z.eqb_spec (shard_start (Z.of_nat (length obs)) (i + 1) k) 0); [lia |].
    rewrite (seqZ_cons i) in Hav by lia. simpl in Hav.
    rewrite (adj_lambda_shard dp i _ i Hik Hav).
    destruct (sweep_of_app (shard_obs obs i k) (obs_from obs (i + 1) k)) as [Happ Hr].
    { rewrite <- obs_from_step by done. apply obs_from_length. lia. }
    rewrite <- obs_from_step in Happ by done. rewrite Happ in Hok. simpl in Hok.
    destruct (sweep_of ref_data ops t apply_operations (shard_obs obs i k))
      as [rows r] eqn:Erows. simpl in Hok, Hr. subst r.
    rewrite (IH (i + 1)); try done; try lia.
    + rewrite (seqZ_cons i (k - i)) by lia. simpl. rewrite Erows. simpl.
      replace (Z.succ i) with (i + 1) by lia.
      by replace (Z.pred (k - i)) with (k - (i + 1)) by lia.
    + simpl. rewrite <- app_assoc.
      replace (Z.pred (k - i)) with (k - (i + 1)) by lia.
      replace (Z.succ i) with (i + 1) by lia. f_equal.
      replace (i + 1) with (i + 1 + 0) at 2 by lia.
      rewrite (seqZ_app 0 i 1) by lia. by rewrite Z.add_0_l.
Qed.

Lemma concat_shards (fuel : nat) :
  ∀ i : Z,
    Z.of_nat fuel = k - i → 0 ≤ i →
    concat (map (λ j, (sweep_of ref_data ops t apply_operations (shard_obs obs j k)).1)
              (seqZ i (k - i)))
    = (sweep_of ref_data ops t apply_operations (obs_from obs i k)).1.
Proof.
  induction fuel as [|fuel IH]; intros i Hfuel Hi.
  - assert (i = k) by lia. subst i. rewrite seqZ_nil by lia. simpl.
    symmetry. apply nil_length_inv. rewrite sweep_of_length.
    unfold obs_from. rewrite shard_start_end by done. rewrite length_drop. lia.
  - assert (Hik : 0 ≤ i < k) by lia.
    rewrite (seqZ_cons i (k - i)) by lia. simpl.
    replace (Z.pred (k - i)) with (k - (i + 1)) by lia.
    replace (Z.succ i) with (i + 1) by lia.
    rewrite IH by lia.
    destruct (sweep_of_app (shard_obs obs i k) (obs_from obs (i + 1) k)) as [Happ _].
    { rewrite <- obs_from_step by done. apply obs_from_length. lia. }
    rewrite <- obs_from_step in Happ by done. by rewrite Happ.
Qed.

Lemma merge_blocks_shards (fuel : nat) :
  ∀ (i : Z) (jac : list float),
    Z.of_nat fuel = k - i → 0 ≤ i →
    Z.of_nat (length obs) ≤ Z.of_nat (length jac) < 2 ^ 64 →
    merge_blocks (Z.of_nat (length obs)) i k
      (map (λ j, (sweep_of ref_data ops t apply_operations (shard_obs obs j k)).1)
         (seqZ i (k - i)))
      jac
    = (take (Z.to_nat (shard_start (Z.of_nat (length obs)) i k)) jac
       ++ concat (map (λ j, (sweep_of ref_data ops t apply_operations
                               (shard_obs obs j k)).1)
                    (seqZ i (k - i)))
       ++ drop (length obs) jac, None).
Proof.
  induction fuel as [|fuel IH]; intros i jac Hfuel Hi Hjac.
  - assert (i = k) by lia. subst i. rewrite seqZ_nil by lia. simpl.
    rewrite shard_start_end, Nat2Z.id by done. by rewrite take_drop.
  - assert (Hik : 0 ≤ i < k) by lia.
    destruct (shard_start_step (Z.of_nat (length obs)) i k Hk Hn Hik) as [Hlt Hle].
    pose proof (shard_obs_length i Hik) as Hlen.
    rewrite (seqZ_cons i (k - i)) by lia. simpl.
    replace (Z.pred (k - i)) with (k - (i + 1)) by lia.
    replace (Z.succ i) with (i + 1) by lia.
    fold (shard_start (Z.of_nat (length obs)) i k).
    rewrite shard_first_small by lia.
    fold (shard_start (Z.of_nat (length obs)) i k).
    set (a := shard_start (Z.of_nat (length obs)) i k) in *.
    set (b := shard_start (Z.of_nat (length obs)) (i + 1) k) in *.
    set (rows := (sweep_of ref_data ops t apply_operations (shard_obs obs i k)).1).
    assert (Hrows : Z.of_nat (length rows) = b - a).
    { unfold rows. by rewrite sweep_of_length. }
    rewrite merge_rows_fits by lia. rewrite Z.add_0_r.
    rewrite IH by (rewrite ?length_app, ?length_take, ?length_drop; lia).
    f_equal. fold b.
    rewrite (app_assoc (take (Z.to_nat a) jac) rows).
    rewrite take_app_length' by (rewrite length_app, length_take; lia).
    rewrite drop_app_ge by (rewrite length_app, length_take; lia).
    rewrite drop_drop, <- !app_assoc. do 4 f_equal.
    rewrite length_app, length_take. lia.
Qed.
(** X24. With one trainable parameter, on a machine with [k] devices and at
    least [k] observables ([observables * k] below 2^53) and a buffer of at
    least one entry per observable, in a run in which every thread reads
    the bounds of its shard while the iteration that created it is still
    running: if the sweep of [adjointJacobian] over all observables on a
    zero-filled buffer succeeds, [batchAdjointJacobian] returns and the
    caller's buffer holds the result of that sweep followed by what it held
    beyond; if the sweep fails, the thread of the first shard fails with the
    same failure, the exception leaves its function and the process is
    terminated. Nothing is said of the runs in which a thread reads the
    bounds late: there the behaviour is undefined. *)
Theorem batch_with_one_trainable_parameter (sched : Schedule) (jac0 : list float)
    (dev : DevTag) :
  (∀ i, 0 ≤ i < k → sched i = true) →
  Z.of_nat (length obs) ≤ Z.of_nat (length jac0) < 2 ^ 64 →
  let single :=
    adjointJacobian ref_data (replicate (length obs) 0%float) obs ops [t]
      apply_operations dev in
  let batch :=
    batchAdjointJacobian sched num_gpus ref_data jac0 obs ops [t]
      apply_operations in
  (single.2 = None → batch = Returned (single.1 ++ drop (length obs) jac0))
  ∧ (∀ e, single.2 = Some e → batch = ended_by e).
Proof.
  intros Hsched Hjac single batch.
  assert (Hsingle : single = sweep_of ref_data ops t apply_operations obs).
  { unfold single, sweep_of. apply adjointJacobian_device. }
  assert (Hfrom0 : obs_from obs 0 k = obs).
  { unfold obs_from. by rewrite shard_start_0. }
  rewrite Hsingle. unfold batch, batchAdjointJacobian, DevicePool_new. simpl.
  rewrite run_workers_in_time by (intros j Hj; apply Hsched; lia).
  split.
  - intros Hok.
    rewrite (run_workers_shards (N.to_nat num_gpus) 0); try done; try lia.
    + rewrite (merge_blocks_shards (N.to_nat num_gpus) 0 jac0) by (done || lia).
      rewrite shard_start_0. simpl.
      rewrite (concat_shards (N.to_nat num_gpus) 0) by lia.
      by rewrite Hfrom0.
    + simpl. by rewrite Z.sub_0_r, app_nil_r.
    + by rewrite Hfrom0.
  - intros e He.
    destruct (N.to_nat num_gpus) as [|fuel] eqn:Efuel; [lia |].
    assert (H0k : 0 ≤ 0 < k) by lia.
    destruct (shard_start_step (Z.of_nat (length obs)) 0 k Hk Hn H0k) as [Hlt Hle].
    assert (k < 2 ^ 64) by nia.
    simpl run_workers.
    fold (shard_start (Z.of_nat (length obs)) 0 k).
    rewrite shard_first_small, shard_last_small by lia.
    fold (shard_start (Z.of_nat (length obs)) 0 k).
    fold (shard_start (Z.of_nat (length obs)) (0 + 1) k).
    destruct (Z.eqb_spec (shard_start (Z.of_nat (length obs)) (0 + 1) k) 0); [lia |].
    unfold all_in_time at 1.
    rewrite (adj_lambda_shard _ 0 (seqZ 1 (k - 1)) 0 H0k).
    2: { simpl. rewrite (seqZ_cons 0) by lia. done. }
    destruct (sweep_of_app (shard_obs obs 0 k) (obs_from obs (0 + 1) k)) as [Happ Hr].
    { rewrite <- obs_from_step by done. rewrite Hfrom0. lia. }
    rewrite <- obs_from_step in Happ by done.
    rewrite Hfrom0 in Happ. rewrite Happ in He. simpl in He.
    destruct (sweep_of ref_data ops t apply_operations (shard_obs obs 0 k))
      as [rows r]. simpl in He.
    by subst r.
Qed.
End OneParameter.

Lemma batch_with_one_trainable_parameter_witness :
  batchAdjointJacobian all_in_time 2 Examples.ref_state [0.5; 0.5; 0.25]%float
    Examples.obs2 Examples.tape2 [1%N] false
  = Returned
      ((adjointJacobian Examples.ref_state [0; 0]%float Examples.obs2 Examples.tape2
          [1%N] false Examples.dev0).1 ++ [0.25%float]).
Proof.
  apply (proj1 (batch_with_one_trainable_parameter Examples.ref_state Examples.obs2
                  Examples.tape2 1%N false 2%N ltac:(simpl; lia) ltac:(simpl; lia)
                  ltac:(simpl; lia) all_in_time [0.5; 0.5; 0.25]%float
                  Examples.dev0 ltac:(done) ltac:(simpl; lia))).
  vm_compute. reflexivity.
Defined.
